(** * Lead-Finder: reconciliation and prioritisation core

    A shallow embedding of the scoring engine ([utils/scoring.py]), the sort
    and the rank assigner of stage 3 ([stages/stage3_ranking.py]), the
    deduplicator and the affiliation parsers ([utils/data_processing.py]),
    the cache manager ([stages/cache_manager.py]), the keyword loop of
    stage 1 over both ([stages/stage1_identification.py]) and the priority
    filter of the dashboard ([utils/dashboard_utils.py]), with the
    properties stated about them.

    Text is modelled as [string] (8-bit characters): the development covers
    ASCII text, where Python's [lower], [strip], [len], [\S], [\d] and string
    comparison act byte by byte. *)

From Stdlib Require Import ZArith List Ascii String Lia Bool.
From stdpp Require Import base option gmap strings list sorting pretty.

Local Open Scope Z_scope.

(** ** Python values, exceptions and the string primitives the code uses *)

Module Py.

(** The scalar values a record field can hold. *)
Inductive value :=
| VStr (s : string)
| VInt (n : Z)
| VNone.

Global Instance value_eq_dec : EqDecision value.
Proof. solve_decision. Defined.

(** [==] on values. *)
Definition value_eqb (a b : value) : bool := bool_decide (a = b).

Inductive exn :=
| AttributeError
| TypeError
| ValueError
| KeyError
| JSONDecodeError
| PermissionError
| OSError.

Global Instance exn_eq_dec : EqDecision exn.
Proof. solve_decision. Defined.

Inductive result (A : Type) :=
| Ok (a : A)
| Raise (e : exn).
Global Arguments Ok {A} a.
Global Arguments Raise {A} e.

Global Instance result_bind : MBind result := fun A B k m =>
  match m with
  | Ok a => k a
  | Raise e => Raise e
  end.

(** [try: body except (handled...): handler]. *)
Definition try_except {A} (body : result A) (handled : exn -> bool)
    (handler : result A) : result A :=
  match body with
  | Ok a => Ok a
  | Raise e => if handled e then handler else Raise e
  end.

(** [bool(v)]. *)
Definition truthy (v : value) : bool :=
  match v with
  | VStr s => negb (String.eqb s "")
  | VInt n => negb (n =? 0)
  | VNone => false
  end.

(** A record of the pipeline: a dict from field name to scalar. *)
Abbreviation lead := (gmap string value).

(** [d.get(k, default)] *)
Definition get (d : lead) (k : string) (dflt : value) : value :=
  default dflt (d !! k).

(** [d.get(k)], whose default is [None]. *)
Definition get_none (d : lead) (k : string) : value := get d k VNone.

Definition lower_char (c : ascii) : ascii :=
  let n := N_of_ascii c in
  if ((65 <=? n) && (n <=? 90))%N then ascii_of_N (n + 32) else c.

(** [s.lower()] *)
Fixpoint lower (s : string) : string :=
  match s with
  | EmptyString => EmptyString
  | String c r => String (lower_char c) (lower r)
  end.

(** [v.lower()]: only [str] has the method. *)
Definition value_lower (v : value) : result string :=
  match v with
  | VStr s => Ok (lower s)
  | _ => Raise AttributeError
  end.

(** [c.isspace()] on ASCII: tab, LF, VT, FF, CR, FS, GS, RS, US, space. *)
Definition isspace (c : ascii) : bool :=
  let n := N_of_ascii c in
  (((9 <=? n) && (n <=? 13)) || ((28 <=? n) && (n <=? 32)))%N.

Definition isdigit (c : ascii) : bool :=
  let n := N_of_ascii c in ((48 <=? n) && (n <=? 57))%N.

Fixpoint lstrip (s : string) : string :=
  match s with
  | EmptyString => EmptyString
  | String c r => if isspace c then lstrip r else s
  end.

(** Drops trailing whitespace: a character stays when it is not a space or
    something stays after it. *)
Fixpoint rstrip (s : string) : string :=
  match s with
  | EmptyString => EmptyString
  | String c r =>
      match rstrip r with
      | EmptyString => if isspace c then EmptyString else String c EmptyString
      | r' => String c r'
      end
  end.

(** [s.strip()] *)
Definition strip (s : string) : string := rstrip (lstrip s).

Fixpoint starts_with (p s : string) : bool :=
  match p, s with
  | EmptyString, _ => true
  | String a p', String b s' => Ascii.eqb a b && starts_with p' s'
  | String _ _, EmptyString => false
  end.

(** [sub in s] for strings. *)
Fixpoint contains (sub s : string) : bool :=
  starts_with sub s ||
  match s with
  | EmptyString => false
  | String _ r => contains sub r
  end.

(** [s.split(sep)] for a one-character separator: never an empty list. *)
Fixpoint split (sep : ascii) (s : string) : list string :=
  match s with
  | EmptyString => [EmptyString]
  | String c r =>
      if Ascii.eqb c sep then EmptyString :: split sep r
      else match split sep r with
           | seg :: segs => String c seg :: segs
           | [] => [String c EmptyString]
           end
  end.

(** [sep.join(parts)] *)
Fixpoint join (sep : string) (parts : list string) : string :=
  match parts with
  | [] => EmptyString
  | [p] => p
  | p :: rest => p +:+ sep +:+ join sep rest
  end.

(** [s[:n]] *)
Fixpoint take_prefix (n : nat) (s : string) : string :=
  match n, s with
  | O, _ => EmptyString
  | S n', String c r => String c (take_prefix n' r)
  | S _, EmptyString => EmptyString
  end.

(** [s[n:]] *)
Fixpoint string_drop (n : nat) (s : string) : string :=
  match n, s with
  | O, _ => s
  | S n', String _ r => string_drop n' r
  | S _, EmptyString => EmptyString
  end.

(** [len(s)]. A string is the list of its bytes, so this is the number of
    characters of ASCII text; a character outside ASCII counts once for
    each byte of its encoding. *)
Definition len (s : string) : Z := Z.of_nat (String.length s).

(** [len(v)]: [int] and [None] have no length. *)
Definition value_len (v : value) : result Z :=
  match v with
  | VStr s => Ok (len s)
  | _ => Raise TypeError
  end.

Definition digit_val (c : ascii) : Z := Z.of_N (N_of_ascii c) - 48.

(** The digits of an [int] literal after sign and blanks are removed: digits,
    with single underscores allowed between two digits. [acc] is the value
    read so far and [prev_digit] tells whether the previous character was a
    digit. *)
Fixpoint int_digits (s : string) (acc : Z) (prev_digit : bool) : option Z :=
  match s with
  | EmptyString => if prev_digit then Some acc else None
  | String c r =>
      if isdigit c then int_digits r (10 * acc + digit_val c) true
      else if Ascii.eqb c "_" && prev_digit then
        match r with
        | String d _ => if isdigit d then int_digits r acc false else None
        | EmptyString => None
        end
      else None
  end.

(** [int(s)] in base 10: surrounding whitespace, an optional sign, digits. *)
Definition int_of_string (s : string) : result Z :=
  let body := strip s in
  let parsed :=
    match body with
    | String "-" r => option_map Z.opp (int_digits r 0 false)
    | String "+" r => int_digits r 0 false
    | _ => int_digits body 0 false
    end in
  match parsed with
  | Some n => Ok n
  | None => Raise ValueError
  end.

(** [v[:4]] followed by [int(...)], as far as the scalar types go: slicing an
    [int] or [None] raises [TypeError]. *)
Definition value_int_prefix4 (v : value) : result Z :=
  match v with
  | VStr s => int_of_string (take_prefix 4 s)
  | _ => Raise TypeError
  end.

(** [str(v)], which is also how an f-string formats [v]. *)
Definition str (v : value) : string :=
  match v with
  | VStr s => s
  | VInt n => pretty n
  | VNone => "None"
  end.

(** [sep.join(items)] on values: every item must be a [str]. *)
Fixpoint join_values (sep : string) (items : list value) : result string :=
  match items with
  | [] => Ok EmptyString
  | VStr s :: rest =>
      match rest with
      | [] => Ok s
      | _ => tail ← join_values sep rest; Ok (s +:+ sep +:+ tail)
      end
  | _ :: _ => Raise TypeError
  end.

(** [a > b]: defined between two strings and between two integers. *)
Definition value_gt (a b : value) : result bool :=
  match a, b with
  | VStr s, VStr t => Ok (String.ltb t s)
  | VInt m, VInt n => Ok (n <? m)
  | _, _ => Raise TypeError
  end.

End Py.

Import Py.

(** ** The weighted scorer: utils/scoring.py *)

Module Scoring.

Definition role_keywords : list string :=
  ["toxicology"; "safety"; "hepatic"; "3d"; "preclinical";
   "pre-clinical"; "drug safety"; "safety assessment";
   "preclinical safety"; "toxicologist"; "safety scientist"].

Definition scientific_keywords : list string :=
  ["dili"; "drug-induced liver injury"; "liver toxicity";
   "hepatic"; "liver injury"; "drug-induced";
   "hepatotoxicity"; "liver damage"].

Definition tech_keywords : list string :=
  ["3d"; "in-vitro"; "in vitro"; "organ-on-chip"; "organ on chip";
   "spheroid"; "cell culture"; "nam"; "new approach methodology";
   "organoid"; "microphysiological"; "mps"].

Definition hubs : list (string * list string) :=
  [("boston/cambridge", ["boston"; "cambridge"; "cambridge, ma"; "boston, ma"]);
   ("bay area",
     ["san francisco"; "palo alto"; "south san francisco";
      "fremont"; "bay area"; "menlo park"; "san jose";
      "mountain view"; "redwood city"]);
   ("basel", ["basel"; "switzerland"]);
   ("uk golden triangle",
     ["london"; "oxford"; "cambridge"; "cambridgeshire";
      "london, uk"; "oxford, uk"; "cambridge, uk"])].

(** [any(keyword in text for keyword in keywords)] *)
Definition any_keyword_in (keywords : list string) (text : string) : bool :=
  existsb (fun keyword => contains keyword text) keywords.

Definition _calculate_role_fit_score (l : lead) : result Z :=
  let title :=
    if truthy (get_none l "linkedin_title") then get l "linkedin_title" (VStr "")
    else if truthy (get_none l "title") then get l "title" (VStr "")
    else VStr "" in
  if negb (truthy title) then Ok 0
  else
    title_lower ← value_lower title;
    if any_keyword_in role_keywords title_lower then Ok 30 else Ok 0.

(** The body of the [try] block of the scientific-intent rule: [Some v] when
    the block executes [return v], [None] when control leaves the block and
    falls to the statement after it. *)
Definition recency_check (current_year : Z) (pub_date : value)
    : result (option Z) :=
  n ← value_len pub_date;
  if 4 <=? n then
    year ← value_int_prefix4 pub_date;
    if current_year - year <=? 2 then Ok (Some 40) else Ok None
  else Ok None.

Definition value_or_type_error (e : exn) : bool :=
  match e with
  | ValueError | TypeError => true
  | _ => false
  end.

(** [current_year] is [datetime.now().year]. *)
Definition _calculate_scientific_intent_score (current_year : Z) (l : lead)
    : result Z :=
  let pub_title := get l "publication_title" (VStr "") in
  let pub_date := get l "publication_date" (VStr "") in
  if negb (truthy pub_title) then Ok 0
  else
    pub_title_lower ← value_lower pub_title;
    let has_scientific_keyword :=
      any_keyword_in scientific_keywords pub_title_lower in
    if negb has_scientific_keyword then Ok 0
    else
      early ←
        (if truthy pub_date then
           try_except (recency_check current_year pub_date)
             value_or_type_error (Ok (Some 40))
         else Ok None);
      match early with
      | Some v => Ok v
      | None => Ok 40
      end.

Definition _calculate_company_intent_score (l : lead) : result Z :=
  let funding_stage := get l "company_funding_stage" (VStr "") in
  if negb (truthy funding_stage) then Ok 0
  else
    funding_stage_lower ← value_lower funding_stage;
    if contains "series a" funding_stage_lower
       || contains "series b" funding_stage_lower then Ok 20
    else if contains "series c" funding_stage_lower
            || contains "ipo" funding_stage_lower then Ok 15
    else Ok 0.

Definition _calculate_technographic_score (l : lead) : result Z :=
  industry ← value_lower (get l "company_industry" (VStr ""));
  pub_title ← value_lower (get l "publication_title" (VStr ""));
  if existsb (fun keyword => contains keyword industry
                             || contains keyword pub_title) tech_keywords
  then Ok 15 else Ok 0.

Definition _calculate_location_score (l : lead) : result Z :=
  let location :=
    if truthy (get_none l "person_location") then get l "person_location" (VStr "")
    else if truthy (get_none l "company_hq") then get l "company_hq" (VStr "")
    else VStr "" in
  if negb (truthy location) then Ok 0
  else
    location_lower ← value_lower location;
    if existsb (fun hub => any_keyword_in (snd hub) location_lower) hubs
    then Ok 10 else Ok 0.

(** The [score_breakdown] dict: a fixed set of five keys. *)
Record breakdown := {
  role_fit : Z;
  scientific_intent : Z;
  company_intent : Z;
  technographic : Z;
  location : Z
}.

(** [score_breakdown.values()] *)
Definition values (b : breakdown) : list Z :=
  [role_fit b; scientific_intent b; company_intent b; technographic b;
   location b].

(** [sum(xs)] *)
Definition sum (xs : list Z) : Z := fold_left Z.add xs 0.

Inductive priority := High | Medium | Low.

Record score_data := {
  propensity_score : Z;
  score_breakdown : breakdown;
  priority_level : priority
}.

Definition calculate_propensity_score (current_year : Z) (l : lead)
    : result score_data :=
  rf ← _calculate_role_fit_score l;
  si ← _calculate_scientific_intent_score current_year l;
  ci ← _calculate_company_intent_score l;
  tg ← _calculate_technographic_score l;
  lc ← _calculate_location_score l;
  let score_breakdown :=
    {| role_fit := rf; scientific_intent := si; company_intent := ci;
       technographic := tg; location := lc |} in
  let total_score := sum (values score_breakdown) in
  let propensity_score := Z.min total_score 100 in
  let priority_level :=
    if 80 <=? propensity_score then High
    else if 50 <=? propensity_score then Medium
    else Low in
  Ok {| propensity_score := propensity_score;
        score_breakdown := score_breakdown;
        priority_level := priority_level |}.

Definition zero_score : score_data :=
  {| propensity_score := 0;
     score_breakdown :=
       {| role_fit := 0; scientific_intent := 0; company_intent := 0;
          technographic := 0; location := 0 |};
     priority_level := Low |}.

(** The score fields [run_stage3] attaches to one lead: the computed ones, or
    the all-zero ones when the computation raised. *)
Definition stage3_score (current_year : Z) (l : lead) : score_data :=
  match calculate_propensity_score current_year l with
  | Ok sd => sd
  | Raise _ => zero_score
  end.

End Scoring.

(** ** The rank assigner: stages/stage3_ranking.py *)

Module Ranking.

Definition is_none (v : value) : bool :=
  match v with
  | VNone => true
  | _ => false
  end.

(** The [for] loop of [_assign_ranks] run over [leads] from the loop state
    [(current_rank, current_score, rank_count)]. The source stores the rank
    in each dict in place and returns the same list; the dicts of the list
    are distinct objects (copies made by [run_stage3]), so the result is
    the list of updated dicts. *)
Fixpoint assign_loop (leads : list lead) (current_rank : Z)
    (current_score : value) (rank_count : Z) : list lead :=
  match leads with
  | [] => []
  | l :: rest =>
      let score := get l "propensity_score" (VInt 0) in
      let '(current_rank, current_score, rank_count) :=
        if is_none current_score || negb (value_eqb score current_score) then
          ((if negb (is_none current_score) then current_rank + rank_count
            else current_rank),
           score, 1)
        else (current_rank, current_score, rank_count + 1) in
      <["rank" := VInt current_rank]> l
        :: assign_loop rest current_rank current_score rank_count
  end.

Definition _assign_ranks (ranked_results : list lead) : list lead :=
  match ranked_results with
  | [] => []
  | _ => assign_loop ranked_results 1 VNone 0
  end.

(** *** The sort of [run_stage3] *)

(** The sort key [x.get('propensity_score', 0)]. *)
Definition score_key (l : lead) : value := get l "propensity_score" (VInt 0).

Definition is_int (v : value) : bool :=
  match v with
  | VInt _ => true
  | _ => false
  end.

Definition is_string (v : value) : bool :=
  match v with
  | VStr _ => true
  | _ => false
  end.

(** [a <= b] on two keys of one type. *)
Definition key_leb (a b : value) : bool :=
  match a, b with
  | VInt m, VInt n => m <=? n
  | VStr s, VStr t => String.leb s t
  | _, _ => false
  end.

Fixpoint insert_by_score (x : lead) (sorted : list lead) : list lead :=
  match sorted with
  | [] => [x]
  | y :: rest =>
      if key_leb (score_key y) (score_key x) then x :: y :: rest
      else y :: insert_by_score x rest
  end.

(** [ranked_results.sort(key=..., reverse=True)]. The sort compares keys
    with [<], which raises [TypeError] between a [str] and an [int] and on
    [None]: two or more keys can be put in order only when they are all
    integers or all strings. The sort is stable, so its result is the one
    arrangement by descending key that keeps records with equal keys in
    their order; insertion builds it. *)
Definition sort_by_score (ranked_results : list lead) : result (list lead) :=
  let sort_keys := map score_key ranked_results in
  if (length ranked_results <=? 1)%nat
     || forallb is_int sort_keys || forallb is_string sort_keys
  then Ok (foldr insert_by_score [] ranked_results)
  else Raise TypeError.

(** The last steps of [run_stage3]: sort by score, then assign the ranks. *)
Definition sort_and_rank (ranked_results : list lead) : result (list lead) :=
  sorted ← sort_by_score ranked_results;
  Ok (_assign_ranks sorted).

End Ranking.

(** ** Deduplication and affiliation parsing: utils/data_processing.py *)

Module DataProcessing.

(** [priority.get(pos, 0)] for the author-position table of the merge. *)
Definition position_priority (pos : value) : Z :=
  match pos with
  | VStr "Corresponding Author" => 4
  | VStr "First Author" => 3
  | VStr "Last Author" => 2
  | VStr "Co-Author" => 1
  | _ => 0
  end.

(** The merge of two list-like text fields (publication titles, journals):
    the new value of the field, or [None] when the field is left alone. *)
Definition merge_joined (v1 v2 : value) : result (option value) :=
  if truthy v1 && truthy v2 && negb (value_eqb v1 v2) then
    let items := [v1] in
    let items := if negb (existsb (value_eqb v2) items) then items ++ [v2]
                 else items in
    joined ← join_values "; " items;
    Ok (Some (VStr joined))
  else if negb (truthy v1) && truthy v2 then Ok (Some v2)
  else Ok None.

(** [merged[k] = v] when the step produced a value. *)
Definition assign (k : string) (v : option value) (merged : lead) : lead :=
  match v with
  | Some v => <[k := v]> merged
  | None => merged
  end.

(** The blocks of [_merge_lead_data], one per field, each acting on the
    accumulating copy [merged] of the first lead. *)

Definition merge_publication_title (merged lead2 : lead) : result lead :=
  let pub1 := get merged "publication_title" (VStr "") in
  let pub2 := get lead2 "publication_title" (VStr "") in
  new_pub ← merge_joined pub1 pub2;
  Ok (assign "publication_title" new_pub merged).

Definition merge_email (merged lead2 : lead) : lead :=
  let email1 := get merged "email" (VStr "") in
  let email2 := get lead2 "email" (VStr "") in
  if negb (truthy email1) && truthy email2 then <["email" := email2]> merged
  else if truthy email1 && truthy email2 && negb (value_eqb email1 email2)
  then <["email" := VStr (str email1 +:+ "; " +:+ str email2)]> merged
  else merged.

Definition merge_location (merged lead2 : lead) : lead :=
  let location1 := get merged "location" (VStr "") in
  let location2 := get lead2 "location" (VStr "") in
  if negb (truthy location1) && truthy location2
  then <["location" := location2]> merged
  else merged.

Definition merge_company (merged lead2 : lead) : lead :=
  let company1 := get merged "company" (VStr "") in
  let company2 := get lead2 "company" (VStr "") in
  if value_eqb company1 (VStr "Unknown") && truthy company2
     && negb (value_eqb company2 (VStr "Unknown"))
  then <["company" := company2]> merged
  else merged.

Definition merge_author_position (merged lead2 : lead) : lead :=
  let pos1 := get merged "author_position" (VStr "") in
  let pos2 := get lead2 "author_position" (VStr "") in
  if position_priority pos1 <? position_priority pos2
  then <["author_position" := pos2]> merged
  else merged.

Definition merge_pubmed_id (merged lead2 : lead) : lead :=
  let pmid1 := get merged "pubmed_id" (VStr "") in
  let pmid2 := get lead2 "pubmed_id" (VStr "") in
  if truthy pmid1 && truthy pmid2 && negb (value_eqb pmid1 pmid2)
  then <["pubmed_id" := VStr (str pmid1 +:+ "; " +:+ str pmid2)]> merged
  else if negb (truthy pmid1) && truthy pmid2
  then <["pubmed_id" := pmid2]> merged
  else merged.

Definition merge_publication_journal (merged lead2 : lead) : result lead :=
  let journal1 := get merged "publication_journal" (VStr "") in
  let journal2 := get lead2 "publication_journal" (VStr "") in
  new_journal ← merge_joined journal1 journal2;
  Ok (assign "publication_journal" new_journal merged).

Definition merge_publication_date (merged lead2 : lead) : result lead :=
  let date1 := get merged "publication_date" (VStr "") in
  let date2 := get lead2 "publication_date" (VStr "") in
  newer ←
    (if truthy date2 then
       if negb (truthy date1) then Ok true else value_gt date2 date1
     else Ok false);
  Ok (if (newer : bool) then <["publication_date" := date2]> merged
      else merged).

Definition _merge_lead_data (lead1 lead2 : lead) : result lead :=
  let merged := lead1 in
  merged ← merge_publication_title merged lead2;
  let merged := merge_email merged lead2 in
  let merged := merge_location merged lead2 in
  let merged := merge_company merged lead2 in
  let merged := merge_author_position merged lead2 in
  let merged := merge_pubmed_id merged lead2 in
  merged ← merge_publication_journal merged lead2;
  merge_publication_date merged lead2.

Section Dedup.

(** [fuzz.ratio] and [fuzz.token_set_ratio] of the fuzzywuzzy package, which
    is not part of the repository: similarity scores on a 0 to 100 scale. *)
Variable ratio : string -> string -> Z.
Variable token_set_ratio : string -> string -> Z.

(** [str(lead.get(k, '')).lower().strip()] *)
Definition normalized (l : lead) (k : string) : string :=
  strip (lower (str (get l k (VStr "")))).

Definition nonempty (s : string) : bool := negb (String.eqb s "").

Definition _is_same_person (lead1 lead2 : lead) (threshold : Z) : bool :=
  let name1 := normalized lead1 "name" in
  let name2 := normalized lead2 "name" in
  let company1 := normalized lead1 "company" in
  let company2 := normalized lead2 "company" in
  if negb (nonempty name1) || negb (nonempty name2) then false
  else
    let name_similarity := ratio name1 name2 in
    let token_ratio := token_set_ratio name1 name2 in
    let name_match := threshold <=? Z.max name_similarity token_ratio in
    let company_match :=
      if nonempty company1 && nonempty company2 then
        let company_similarity := ratio company1 company2 in
        (80 <=? company_similarity) || String.eqb company1 company2
      else true in
    name_match && company_match.

Definition SIMILARITY_THRESHOLD : Z := 85.

(** The state of the inner loop: [seen_indices], [matching_indices] and
    [merged_lead]. *)
Definition scan_state : Type := gset nat * list nat * lead.

(** The inner [for j, lead2 in enumerate(leads[i+1:], start=i+1)] loop, run
    over what is left of the slice from index [j]. *)
Fixpoint scan_later (lead1 : lead) (later : list lead) (j : nat)
    (st : scan_state) : result scan_state :=
  match later with
  | [] => Ok st
  | lead2 :: rest =>
      let '(seen_indices, matching_indices, merged_lead) := st in
      if bool_decide (j ∈ seen_indices) then scan_later lead1 rest (S j) st
      else if _is_same_person lead1 lead2 SIMILARITY_THRESHOLD then
        merged_lead ← _merge_lead_data merged_lead lead2;
        scan_later lead1 rest (S j)
          ({[j]} ∪ seen_indices, matching_indices ++ [j], merged_lead)
      else scan_later lead1 rest (S j) st
  end.

(** The outer [for i, lead1 in enumerate(leads)] loop, run over [leads[i:]].
    Each element of [processed] is a merged lead together with the
    [matching_indices] the source collects for it and then drops. *)
Fixpoint scan_seeds (remaining : list lead) (i : nat)
    (seen_indices : gset nat) (processed : list (list nat * lead))
    : result (list (list nat * lead)) :=
  match remaining with
  | [] => Ok processed
  | lead1 :: later =>
      if bool_decide (i ∈ seen_indices)
      then scan_seeds later (S i) seen_indices processed
      else
        st ← scan_later lead1 later (S i) (seen_indices, [i], lead1);
        let '(seen_indices, matching_indices, merged_lead) := st in
        scan_seeds later (S i) ({[i]} ∪ seen_indices)
          (processed ++ [(matching_indices, merged_lead)])
  end.

(** [deduplicate_leads] with the clusters kept next to the merged leads. *)
Definition deduplicate_clusters (leads : list lead)
    : result (list (list nat * lead)) :=
  match leads with
  | [] => Ok []
  | _ => scan_seeds leads 0 ∅ []
  end.

Definition deduplicate_leads (leads : list lead) : result (list lead) :=
  clusters ← deduplicate_clusters leads;
  Ok (map snd clusters).

End Dedup.

(** *** Company extraction *)

(** The longest prefix of non-blank characters and what follows it. *)
Fixpoint span_nonspace (s : string) : string * string :=
  match s with
  | EmptyString => (EmptyString, EmptyString)
  | String c r =>
      if isspace c then (EmptyString, s)
      else let '(run, rest) := span_nonspace r in (String c run, rest)
  end.

(** Whether an [@] of [run] has a character after it. *)
Fixpoint at_then_more (run : string) : bool :=
  match run with
  | String "@" (String _ _ as r) => true
  | String _ r => at_then_more r
  | EmptyString => false
  end.

(** A match of [\S+@\S+] at the start of [s]: the text after the match.
    The first [\S+] needs one character before the [@], the second one after
    it, and being greedy the match runs to the end of the non-blank run. *)
Definition match_email (s : string) : option string :=
  let '(run, rest) := span_nonspace s in
  match run with
  | String _ r => if at_then_more r then Some rest else None
  | EmptyString => None
  end.

(** [re.sub(r'\S+@\S+', '', s)]: matches are tried from left to right and
    the scan resumes after a match. Each step consumes a character, so
    [fuel] is the length of the text. *)
Fixpoint sub_email_from (fuel : nat) (s : string) : string :=
  match fuel with
  | O => s
  | S fuel =>
      match s with
      | EmptyString => EmptyString
      | String c r =>
          match match_email s with
          | Some rest => sub_email_from fuel rest
          | None => String c (sub_email_from fuel r)
          end
      end
  end.

Definition sub_email (s : string) : string :=
  sub_email_from (String.length s) s.

Definition skip_keywords : list string :=
  ["department"; "university"; "college"; "school"; "institute";
   "institution"; "center"; "centre"; "laboratory"; "lab"; "faculty"].

(** [re.match(r'^\d+', part)] succeeds. *)
Definition starts_with_digit (part : string) : bool :=
  match part with
  | String c _ => isdigit c
  | EmptyString => false
  end.

(** The first [for part in parts] loop: [Some part] when it returns. *)
Fixpoint first_company (parts : list string) : option string :=
  match parts with
  | [] => None
  | part :: rest =>
      let part_lower := lower part in
      if existsb (fun keyword => contains keyword part_lower) skip_keywords
      then first_company rest
      else if starts_with_digit part || (len part <? 3)
      then first_company rest
      else if 3 <? len part then Some part
      else first_company rest
  end.

(** The second loop. *)
Fixpoint first_substantial (parts : list string) : option string :=
  match parts with
  | [] => None
  | part :: rest => if 5 <? len part then Some part else first_substantial rest
  end.

Definition extract_company_from_affiliation (affiliation : string) : string :=
  if String.eqb affiliation "" then "Unknown"
  else
    let affiliation := sub_email affiliation in
    let parts := map strip (split "," affiliation) in
    match first_company parts with
    | Some part => part
    | None =>
        match first_substantial parts with
        | Some part => part
        | None => "Unknown"
        end
    end.

(** *** Location extraction *)

(** [parts[-n:]] for [n] of 1 or 2: the last [n] items, all of them when
    there are fewer. *)
Definition last_items (n : nat) (parts : list string) : list string :=
  drop (length parts - n) parts.

Definition extract_location_from_affiliation (affiliation : string) : string :=
  if String.eqb affiliation "" then ""
  else
    let affiliation := sub_email affiliation in
    let parts := map strip (split "," affiliation) in
    if (2 <=? length parts)%nat then
      let location_parts :=
        if (2 <=? length parts)%nat then last_items 2 parts
        else last_items 1 parts in
      join ", " location_parts
    else "".

End DataProcessing.

(** ** The expiring cache store: stages/cache_manager.py *)

Module CacheManager.

Definition CACHE_EXPIRY_DAYS : Z := 30.
Definition MAX_CACHE_SIZE_MB : Z := 100.
Definition MAX_CACHE_ENTRIES : nat := 50.

(** One cached query: [{'timestamp': ..., 'results': ..., 'count': ...}].
    A field is [None] when the key is absent from the dict; a timestamp that
    is present is a string. *)
Record entry := {
  timestamp : option string;
  results : option (list lead);
  count : option Z
}.

(** The [metadata] dict. *)
Record metadata := {
  total_queries : option Z;
  last_cleanup : option string;
  last_updated : option string
}.

(** What the key ['metadata'] of the cache dict holds: nothing, a value
    that is not a dict, or the dict. *)
Inductive meta :=
| MetaMissing
| MetaBad
| MetaDict (m : metadata).

(** A Python dict from query key to entry: the items in insertion order. *)
Definition queries : Type := list (string * entry).

(** The cache dict. [search_queries] is [None] when the key is absent. *)
Record cache := {
  version : option string;
  created : option string;
  search_queries : option queries;
  cache_meta : meta
}.

Definition set_queries (q : option queries) (c : cache) : cache :=
  {| version := version c; created := created c; search_queries := q;
     cache_meta := cache_meta c |}.

Definition set_meta (m : meta) (c : cache) : cache :=
  {| version := version c; created := created c;
     search_queries := search_queries c; cache_meta := m |}.

(** The dict that [_create_empty_cache] builds, for its two time stamps. *)
Definition empty_cache (created_at cleanup_at : string) : cache :=
  {| version := Some "1.0";
     created := Some created_at;
     search_queries := Some [];
     cache_meta := MetaDict {| total_queries := Some 0;
                               last_cleanup := Some cleanup_at;
                               last_updated := None |} |}.

(** *** Dict operations on the items *)

Definition dict_mem (k : string) (d : queries) : bool :=
  existsb (fun item => String.eqb (fst item) k) d.

Definition dict_get (k : string) (d : queries) : option entry :=
  option_map snd (List.find (fun item => String.eqb (fst item) k) d).

(** [d[k] = e]: an existing key keeps its place, a new one goes last. *)
Fixpoint dict_set (k : string) (e : entry) (d : queries) : queries :=
  match d with
  | [] => [(k, e)]
  | item :: rest =>
      if String.eqb (fst item) k then (k, e) :: rest
      else item :: dict_set k e rest
  end.

(** [del d[k]] *)
Definition dict_del (k : string) (d : queries) : queries :=
  List.filter (fun item => negb (String.eqb (fst item) k)) d.

(** [entry.get('timestamp', '')] *)
Definition timestamp_str (e : entry) : string := default "" (timestamp e).

(** [sorted(items, key=timestamp, reverse=True)]: the sort is stable, so its
    result is the one arrangement by descending key that keeps items with
    equal keys in their order; insertion builds it. *)
Fixpoint insert_newest_first (x : string * entry) (sorted : queries)
    : queries :=
  match sorted with
  | [] => [x]
  | y :: rest =>
      if String.leb (timestamp_str (snd y)) (timestamp_str (snd x))
      then x :: y :: rest
      else y :: insert_newest_first x rest
  end.

Definition sorted_newest_first (items : queries) : queries :=
  foldr insert_newest_first [] items.

(** *** The file system and the clock *)

(** What [open(..., encoding='utf-8')] and [json.load] make of the bytes of
    a file: text that is not JSON ([json.JSONDecodeError]), a value that is
    not a dict, a dict whose ['search_queries'] is not a dict of dicts, a
    cache dict, or bytes that are not UTF-8 text ([UnicodeDecodeError],
    which is a [ValueError] and not a [JSONDecodeError]). *)
Inductive file_content :=
| Unparsable
| NotADict
| BadQueries
| Document (c : cache)
| Undecodable.

Record file := {
  content : file_content;
  size : Z
}.

(** The cache file, the temporary file next to it, and the files renamed
    aside as corrupted. The name of such a file ends in the time of the
    rename, [strftime('%Y%m%d_%H%M%S')]: it is kept under the second of
    that time, which decides whether two names are the same. *)
Record fs := {
  cache_file : option file;
  temp_file : option file;
  corrupted : list (Z * file)
}.

(** The state around the manager: the disk and how many times the clock has
    been read. *)
Record world := {
  disk : fs;
  tick : nat
}.

Definition set_disk (d : fs) (w : world) : world :=
  {| disk := d; tick := tick w |}.

Inductive io_fault :=
| NoFault
| Denied           (* PermissionError *)
| Failed.          (* any other exception *)

(** Which system calls of one operation fail. *)
Record faults := {
  read_fails : bool;            (* opening or decoding the cache file *)
  getsize_fails : bool;
  backup_rename_fails : bool;
  write_fault : io_fault;       (* opening or writing the temporary file *)
  write_leaves_partial : bool;  (* a failed write leaves a partial file *)
  replace_fault : io_fault;     (* os.replace / os.rename onto the cache file *)
  remove_fails : bool
}.

Definition no_faults : faults :=
  {| read_fails := false; getsize_fails := false;
     backup_rename_fails := false; write_fault := NoFault;
     write_leaves_partial := false; replace_fault := NoFault;
     remove_fails := false |}.

(** Computations that read the clock and use the disk. *)
Definition M (A : Type) : Type := world -> A * world.

Definition ret {A} (a : A) : M A := fun w => (a, w).

Global Instance M_bind : MBind M := fun A B k m w =>
  let '(a, w) := m w in k a w.

Section Manager.

(** The clock and the [datetime] functions. [clock n] is the instant, in
    microseconds, that the [n]-th call of [datetime.now()] returns.
    [fromisoformat s] is the instant that [datetime.fromisoformat(s)]
    denotes, [None] when parsing [s], or comparing the result with
    [datetime.now()], raises [ValueError] or [TypeError]. *)
Variable clock : nat -> Z.
Variable isoformat : Z -> string.
Variable fromisoformat : string -> option Z.

(** The length in bytes of [json.dump(cache, indent=2, ensure_ascii=False)]. *)
Variable json_size : cache -> Z.

(** [self.expiry_days] *)
Variable expiry_days : Z.

Definition microseconds_per_day : Z := 86400000000.

(** [datetime.now()] *)
Definition now : M Z := fun w =>
  (clock (tick w), {| disk := disk w; tick := S (tick w) |}).

(** [datetime.now().isoformat()] *)
Definition now_iso : M string := t ← now; ret (isoformat t).

Definition _create_empty_cache : M cache :=
  created_at ← now_iso;
  cleanup_at ← now_iso;
  ret (empty_cache created_at cleanup_at).

(** [cache['metadata'][field] = value], by way of [update]. *)
Definition update_metadata (update : metadata -> metadata) (c : cache)
    : result cache :=
  match cache_meta c with
  | MetaDict m => Ok (set_meta (MetaDict (update m)) c)
  | MetaMissing => Raise KeyError
  | MetaBad => Raise TypeError
  end.

Definition with_total_queries (n : Z) (m : metadata) : metadata :=
  {| total_queries := Some n; last_cleanup := last_cleanup m;
     last_updated := last_updated m |}.

Definition with_last_cleanup (t : string) (m : metadata) : metadata :=
  {| total_queries := total_queries m; last_cleanup := Some t;
     last_updated := last_updated m |}.

Definition with_last_updated (t : string) (m : metadata) : metadata :=
  {| total_queries := total_queries m; last_cleanup := last_cleanup m;
     last_updated := Some t |}.

(** The expiry test both the sweep and the lookup apply to an entry, for the
    clock reading [t]: an empty timestamp is never tested; one that does not
    parse counts as expired in the sweep. [None] stands for the handled
    exception. *)
Definition older_than_expiry (t : Z) (stamp : string) : option bool :=
  match fromisoformat stamp with
  | Some entry_date => Some (entry_date <? t - expiry_days * microseconds_per_day)
  | None => None
  end.

(** The first loop of [_cleanup_expired_entries]: the keys to remove. *)
Fixpoint expired_keys (t : Z) (items : queries) : list string :=
  match items with
  | [] => []
  | (key, e) :: rest =>
      let stamp := timestamp_str e in
      if negb (String.eqb stamp "") then
        match older_than_expiry t stamp with
        | Some true => key :: expired_keys t rest
        | Some false => expired_keys t rest
        | None => key :: expired_keys t rest
        end
      else expired_keys t rest
  end.

(** The cache dict as [json.load] returned it: [None] stands for a dict
    whose ['search_queries'] is not a dict of dicts, on which the first loop
    raises [AttributeError]. *)
Definition _cleanup_expired_entries (parsed : option cache)
    : M (result cache) :=
  match parsed with
  | None => _ ← now; ret (Raise AttributeError)
  | Some c =>
      match search_queries c with
      | None => ret (Ok c)
      | Some items =>
          t ← now;
          let expired := expired_keys t items in
          let items := foldl (fun d key => dict_del key d) items expired in
          let c := set_queries (Some items) c in
          match expired with
          | [] => ret (Ok c)
          | _ =>
              cleanup_at ← now_iso;
              ret (c ← update_metadata (with_last_cleanup cleanup_at) c;
                   update_metadata
                     (with_total_queries (Z.of_nat (length items))) c)
          end
      end
  end.

(** [_remove_oldest_entries] changes the dict in place: the result is the
    dict as the call leaves it and the exception it raised, if any. *)
Definition _remove_oldest_entries (c : cache) (keep_count : nat)
    : M (cache * option exn) :=
  match search_queries c with
  | None => ret (c, None)
  | Some items =>
      let sorted_entries := sorted_newest_first items in
      let kept := take keep_count sorted_entries in
      let c := set_queries (Some kept) c in
      match update_metadata (with_total_queries (Z.of_nat (length kept))) c with
      | Raise e => ret (c, Some e)
      | Ok c =>
          cleanup_at ← now_iso;
          match update_metadata (with_last_cleanup cleanup_at) c with
          | Raise e => ret (c, Some e)
          | Ok c => ret (c, None)
          end
      end
  end.

(** [os.path.getsize(self.cache_file)] *)
Definition getsize (f : faults) : M (result Z) := fun w =>
  match cache_file (disk w) with
  | Some file => if getsize_fails f then (Raise OSError, w)
                 else (Ok (size file), w)
  | None => (Raise OSError, w)
  end.

(** [len(cache.get('search_queries', {}))] *)
Definition entry_count (c : cache) : nat :=
  length (default [] (search_queries c)).

(** The [try] block of [_enforce_size_limits]: whatever it raises is passed
    over, and what [_remove_oldest_entries] did to the dict before raising
    stays. *)
Definition trim_if_file_too_large (f : faults) (c : cache) : M cache :=
  file_size ← getsize f;
  match file_size with
  | Ok bytes =>
      if MAX_CACHE_SIZE_MB * (1024 * 1024) <? bytes then
        r ← _remove_oldest_entries c MAX_CACHE_ENTRIES;
        ret (fst r)
      else ret c
  | Raise _ => ret c
  end.

Definition _enforce_size_limits (f : faults) (c : cache) : M (result cache) :=
  match search_queries c with
  | None => ret (Ok c)
  | Some _ =>
      c ← trim_if_file_too_large f c;
      if (MAX_CACHE_ENTRIES <? entry_count c)%nat then
        r ← _remove_oldest_entries c MAX_CACHE_ENTRIES;
        ret (match snd r with
             | None => Ok (fst r)
             | Some e => Raise e
             end)
      else ret (Ok c)
  end.

(** [open(self.cache_file)] and [json.load]: the parsed dict ([None] inside
    for the dict with unusable queries), or the value that is not a dict. *)
Inductive loaded :=
| LoadedDict (parsed : option cache)
| LoadedOther.

Definition read_cache_file (f : faults) : M (result loaded) := fun w =>
  match cache_file (disk w) with
  | None => (Raise OSError, w)
  | Some file =>
      if read_fails f then (Raise OSError, w)
      else match content file with
           | Unparsable => (Raise JSONDecodeError, w)
           | NotADict => (Ok LoadedOther, w)
           | BadQueries => (Ok (LoadedDict None), w)
           | Document c => (Ok (LoadedDict (Some c)), w)
           | Undecodable => (Raise ValueError, w)
           end
  end.

(** [os.path.exists(self.cache_file)] *)
Definition cache_file_exists : M bool := fun w =>
  (bool_decide (is_Some (cache_file (disk w))), w).

(** The second that [strftime('%Y%m%d_%H%M%S')] renders, for an instant
    in microseconds. *)
Definition backup_second (t : Z) : Z := t / 1000000.

(** [os.rename(self.cache_file, backup_file)] inside its [try]: a failure
    is logged and nothing moves. A file already there under the same name,
    a backup made in the same second, is replaced. *)
Definition rename_to_backup (f : faults) (second : Z) : M unit := fun w =>
  if backup_rename_fails f then (tt, w)
  else
    let d := disk w in
    match cache_file d with
    | Some file =>
        (tt, set_disk
               {| cache_file := None; temp_file := temp_file d;
                  corrupted :=
                    (second, file)
                    :: List.filter (fun backup => negb (fst backup =? second))
                         (corrupted d) |} w)
    | None => (tt, w)
    end.

Definition _backup_corrupted_cache (f : faults) : M unit :=
  present ← cache_file_exists;
  if (present : bool) then
    stamp ← now;   (* the time stamp in the backup name *)
    rename_to_backup f (backup_second stamp)
  else ret tt.

(** The body of the [try] block of [load_cache]. *)
Definition load_body (f : faults) : M (result cache) :=
  data ← read_cache_file f;
  match data with
  | Raise e => ret (Raise e)
  | Ok LoadedOther => c ← _create_empty_cache; ret (Ok c)
  | Ok (LoadedDict parsed) =>
      cleaned ← _cleanup_expired_entries parsed;
      match cleaned with
      | Raise e => ret (Raise e)
      | Ok c => _enforce_size_limits f c
      end
  end.

Definition load_cache (f : faults) : M cache :=
  present ← cache_file_exists;
  if negb present then _create_empty_cache
  else
    r ← load_body f;
    match r with
    | Ok c => ret c
    | Raise JSONDecodeError =>
        _ ← _backup_corrupted_cache f;
        _create_empty_cache
    | Raise _ => _create_empty_cache
    end.

(** Writing the temporary file: [open(temp_file, 'w')] and [json.dump]. *)
Definition write_temp_file (f : faults) (c : cache) : M (result unit) :=
  fun w =>
    let d := disk w in
    match write_fault f with
    | NoFault =>
        (Ok tt,
         set_disk {| cache_file := cache_file d;
                     temp_file := Some {| content := Document c;
                                          size := json_size c |};
                     corrupted := corrupted d |} w)
    | Denied => (Raise PermissionError, w)
    | Failed =>
        (Raise OSError,
         if write_leaves_partial f then
           set_disk {| cache_file := cache_file d;
                       temp_file := Some {| content := Unparsable; size := 0 |};
                       corrupted := corrupted d |} w
         else w)
    end.

(** [os.replace(temp_file, self.cache_file)], or [os.rename] when the cache
    file does not exist yet. *)
Definition replace_cache_file (f : faults) : M (result unit) := fun w =>
  let d := disk w in
  match replace_fault f with
  | NoFault =>
      (Ok tt, set_disk {| cache_file := temp_file d; temp_file := None;
                          corrupted := corrupted d |} w)
  | Denied => (Raise PermissionError, w)
  | Failed => (Raise OSError, w)
  end.

(** The clean-up of the last handler of [save_cache]. *)
Definition remove_temp_file (f : faults) : M unit := fun w =>
  let d := disk w in
  match temp_file d with
  | Some _ =>
      if remove_fails f then (tt, w)
      else (tt, set_disk {| cache_file := cache_file d; temp_file := None;
                            corrupted := corrupted d |} w)
  | None => (tt, w)
  end.

(** The body of the [try] block of [save_cache]. *)
Definition save_body (f : faults) (c : cache) : M (result bool) :=
  let c := match cache_meta c with
           | MetaMissing =>
               set_meta (MetaDict {| total_queries := None;
                                     last_cleanup := None;
                                     last_updated := None |}) c
           | _ => c
           end in
  match update_metadata (with_total_queries (Z.of_nat (entry_count c))) c with
  | Raise e => ret (Raise e)
  | Ok c =>
      updated_at ← now_iso;
      match update_metadata (with_last_updated updated_at) c with
      | Raise e => ret (Raise e)
      | Ok c =>
          written ← write_temp_file f c;
          match written with
          | Raise e => ret (Raise e)
          | Ok _ =>
              (* [os.path.exists(temp_file)] holds after the write *)
              replaced ← replace_cache_file f;
              match replaced with
              | Raise e => ret (Raise e)
              | Ok _ => ret (Ok true)
              end
          end
      end
  end.

Definition save_cache (f : faults) (c : cache) : M bool :=
  r ← save_body f c;
  match r with
  | Ok b => ret b
  | Raise PermissionError => ret false
  | Raise _ => _ ← remove_temp_file f; ret false
  end.

Definition get_cached_results (f : faults) (cache_key : string)
    : M (option (list lead)) :=
  c ← load_cache f;
  let items := default [] (search_queries c) in
  match dict_get cache_key items with
  | None => ret None
  | Some e =>
      let stamp := timestamp_str e in
      if negb (String.eqb stamp "") then
        match fromisoformat stamp with
        | None => ret None
        | Some entry_date =>
            t ← now;
            if entry_date <? t - expiry_days * microseconds_per_day then
              let c := set_queries (Some (dict_del cache_key items)) c in
              _ ← save_cache f c;
              ret None
            else ret (Some (default [] (results e)))
        end
      else ret (Some (default [] (results e)))
  end.

Definition save_query_results (f : faults) (cache_key : string)
    (payload : list lead) : M bool :=
  c ← load_cache f;
  let items := default [] (search_queries c) in
  stamp ← now_iso;
  let e := {| timestamp := Some stamp; results := Some payload;
              count := Some (Z.of_nat (length payload)) |} in
  save_cache f (set_queries (Some (dict_set cache_key e items)) c).

(** The ['total_queries'] of [get_cache_info]. *)
Definition info_total_queries (f : faults) : M Z :=
  present ← cache_file_exists;
  if (present : bool) then
    file_size ← getsize f;
    match file_size with
    | Raise _ => ret 0
    | Ok _ => c ← load_cache f; ret (Z.of_nat (entry_count c))
    end
  else ret 0.

(** [os.remove(self.cache_file)] *)
Definition remove_cache_file (f : faults) : M (result unit) := fun w =>
  let d := disk w in
  if remove_fails f then (Raise OSError, w)
  else (Ok tt, set_disk {| cache_file := None; temp_file := temp_file d;
                           corrupted := corrupted d |} w).

Definition clear_all_cache (f : faults) : M bool :=
  present ← cache_file_exists;
  if (present : bool) then
    removed ← remove_cache_file f;
    match removed with
    | Ok _ => ret true
    | Raise _ => ret false
    end
  else ret true.

(** [clear_query_cache]: the update of the metadata is outside any [try],
    so what it raises reaches the caller. *)
Definition clear_query_cache (f : faults) (cache_key : string)
    : M (result bool) :=
  c ← load_cache f;
  let items := default [] (search_queries c) in
  if dict_mem cache_key items then
    let c := set_queries (Some (dict_del cache_key items)) c in
    match update_metadata
            (with_total_queries (Z.of_nat (entry_count c))) c with
    | Raise e => ret (Raise e)
    | Ok c => saved ← save_cache f c; ret (Ok saved)
    end
  else ret (Ok true).

End Manager.

End CacheManager.

(** ** Stage 1, the caller of the cache and of the deduplicator:
    stages/stage1_identification.py *)

Module Stage1.
Import CacheManager DataProcessing.

Section Identification.

Variable clock : nat -> Z.
Variable isoformat : Z -> string.
Variable fromisoformat : string -> option Z.
Variable json_size : cache -> Z.

(** [fuzz.ratio] and [fuzz.token_set_ratio]. *)
Variable ratio : string -> string -> Z.
Variable token_set_ratio : string -> string -> Z.

(** [search_pubmed(keyword, max_results, years_back)] of utils/pubmed_api,
    which queries the network: the leads found, or the exception raised. *)
Variable search_pubmed : string -> Z -> Z -> result (list lead).

(** [bool(xs)] for a list. *)
Definition nonempty_list {A} (xs : list A) : bool :=
  match xs with
  | [] => false
  | _ => true
  end.

(** The [for keyword in scientific_keywords] loop. The module-level
    [CacheManager()] has the default expiry of [CACHE_EXPIRY_DAYS]. *)
Fixpoint gather (f : faults) (scientific_keywords : list string)
    (results_per_keyword years_back : Z) (all_results : list lead)
    : M (list lead) :=
  match scientific_keywords with
  | [] => ret all_results
  | keyword :: rest =>
      let keyword := strip keyword in
      if String.eqb keyword "" then
        gather f rest results_per_keyword years_back all_results
      else
        let cache_key :=
          keyword +:+ "_" +:+ pretty results_per_keyword +:+ "_"
            +:+ pretty years_back in
        cached_results ←
          get_cached_results clock isoformat fromisoformat json_size
            CACHE_EXPIRY_DAYS f cache_key;
        if nonempty_list (default [] cached_results) then
          gather f rest results_per_keyword years_back
            (all_results ++ default [] cached_results)
        else
          match search_pubmed keyword results_per_keyword years_back with
          | Ok keyword_results =>
              if nonempty_list keyword_results then
                saved ←
                  save_query_results clock isoformat fromisoformat json_size
                    CACHE_EXPIRY_DAYS f cache_key keyword_results;
                gather f rest results_per_keyword years_back
                  (all_results ++ keyword_results)
              else gather f rest results_per_keyword years_back all_results
          | Raise _ => gather f rest results_per_keyword years_back all_results
          end
  end.

(** The end of [run_stage1]: deduplicate, and fall back on the leads as
    gathered when the deduplication raises. *)
Definition deduplicate_or_keep (all_results : list lead) : list lead :=
  match all_results with
  | [] => []
  | _ =>
      match deduplicate_leads ratio token_set_ratio all_results with
      | Ok deduplicated_results => deduplicated_results
      | Raise _ => all_results
      end
  end.

Definition run_stage1 (f : faults) (scientific_keywords : list string)
    (results_per_keyword years_back : Z) : M (list lead) :=
  match scientific_keywords with
  | [] => ret []
  | _ =>
      all_results ←
        gather f scientific_keywords results_per_keyword years_back [];
      ret (deduplicate_or_keep all_results)
  end.

End Identification.

End Stage1.

(** ** The priority filter of the dashboard: utils/dashboard_utils.py *)

Module Dashboard.

(** The [priority_map] of [calculate_priority_ranges]. *)
Definition priority_map : list (string * (Z * Z)) :=
  [("High (80+)", (80, 100)); ("Medium (50-79)", (50, 79));
   ("Low (<50)", (0, 49))].

(** [priority_map[level]] when [level in priority_map]. *)
Definition priority_map_get (level : string) : option (Z * Z) :=
  option_map snd
    (List.find (fun item => String.eqb (fst item) level) priority_map).

Fixpoint calculate_priority_ranges (priority_levels : list string)
    : list (Z * Z) :=
  match priority_levels with
  | [] => []
  | level :: rest =>
      match priority_map_get level with
      | Some range => range :: calculate_priority_ranges rest
      | None => calculate_priority_ranges rest
      end
  end.

(** [any(low <= x <= high for low, high in priority_ranges)] *)
Definition in_some_range (priority_ranges : list (Z * Z)) (x : Z) : bool :=
  existsb (fun range => (fst range <=? x) && (x <=? snd range))
    priority_ranges.

(** The DataFrame is the list of its rows and [probability] reads the
    column ['probability'] of a row; [df[mask]] keeps the rows whose mask
    is true, in their order. *)
Definition filter_by_priority_range {row : Type} (probability : row -> Z)
    (df : list row) (priority_ranges : list (Z * Z)) : list row :=
  match priority_ranges with
  | [] => df
  | _ => List.filter
           (fun r => in_some_range priority_ranges (probability r)) df
  end.

End Dashboard.

(** ** Facts about the Python primitives *)

Module PyFacts.

Lemma bind_Ok {A B} (m : result A) (k : A -> result B) (b : B) :
  m ≫= k = Ok b -> exists a, m = Ok a /\ k a = Ok b.
Proof. destruct m as [a|e]; [eauto | discriminate]. Qed.

Lemma bind_Raise {A B} (m : result A) (k : A -> result B) (e : exn) :
  m = Raise e -> m ≫= k = Raise e.
Proof. intros ->. reflexivity. Qed.

Lemma get_Some (d : lead) (k : string) (dflt v : value) :
  d !! k = Some v -> get d k dflt = v.
Proof. unfold get. intros ->. reflexivity. Qed.

Lemma get_None (d : lead) (k : string) (dflt : value) :
  d !! k = None -> get d k dflt = dflt.
Proof. unfold get. intros ->. reflexivity. Qed.

End PyFacts.

(** ** Properties of the scorer *)

Module ScoringFacts.
Import Scoring PyFacts.

(** Inverts an equation [m ≫= k = Ok v], naming the intermediate value. *)
Ltac bind_inv H x Hx :=
  apply bind_Ok in H; destruct H as (x & Hx & H).

Lemma role_fit_values l v :
  _calculate_role_fit_score l = Ok v -> v = 0 \/ v = 30.
Proof.
  unfold _calculate_role_fit_score. intros H.
  destruct (negb _) in H; [inversion H; auto|].
  bind_inv H t Ht.
  destruct (any_keyword_in _ _) in H; inversion H; auto.
Qed.

Lemma recency_check_values cy d r :
  try_except (recency_check cy d) value_or_type_error (Ok (Some 40)) = Ok r ->
  r = Some 40 \/ r = None.
Proof.
  unfold try_except. intros H.
  destruct (recency_check cy d) as [a|e] eqn:E.
  - inversion H; subst a; clear H. unfold recency_check in E.
    bind_inv E n Hn. destruct (4 <=? n); [|inversion E; auto].
    bind_inv E y Hy. destruct (cy - y <=? 2); inversion E; auto.
  - destruct (value_or_type_error e); inversion H; auto.
Qed.

Lemma scientific_intent_values cy l v :
  _calculate_scientific_intent_score cy l = Ok v -> v = 0 \/ v = 40.
Proof.
  unfold _calculate_scientific_intent_score. intros H.
  destruct (negb (truthy _)) in H; [inversion H; auto|].
  bind_inv H t Ht.
  destruct (negb (any_keyword_in _ _)) in H; [inversion H; auto|].
  bind_inv H r Hr.
  destruct (truthy _) in Hr.
  - apply recency_check_values in Hr as [-> | ->]; inversion H; auto.
  - inversion Hr; subst r. inversion H; auto.
Qed.

Lemma company_intent_values l v :
  _calculate_company_intent_score l = Ok v -> v = 0 \/ v = 15 \/ v = 20.
Proof.
  unfold _calculate_company_intent_score. intros H.
  destruct (negb _) in H; [inversion H; auto|].
  bind_inv H t Ht.
  destruct (_ || _) in H; [inversion H; auto|].
  destruct (_ || _) in H; inversion H; auto.
Qed.

Lemma technographic_values l v :
  _calculate_technographic_score l = Ok v -> v = 0 \/ v = 15.
Proof.
  unfold _calculate_technographic_score. intros H.
  bind_inv H i Hi. bind_inv H t Ht.
  destruct (existsb _ _) in H; inversion H; auto.
Qed.

Lemma location_values l v :
  _calculate_location_score l = Ok v -> v = 0 \/ v = 10.
Proof.
  unfold _calculate_location_score. intros H.
  destruct (negb _) in H; [inversion H; auto|].
  bind_inv H t Ht.
  destruct (existsb _ _) in H; inversion H; auto.
Qed.

(** What the scoring-bounds property asks of one scored record. *)
Definition within_bounds (sd : score_data) : Prop :=
  let b := score_breakdown sd in
  0 <= role_fit b <= 30 /\
  0 <= scientific_intent b <= 40 /\
  0 <= company_intent b <= 20 /\
  0 <= technographic b <= 15 /\
  0 <= location b <= 10 /\
  propensity_score sd = Z.min 100 (sum (values b)).

Lemma calculate_within_bounds cy l sd :
  calculate_propensity_score cy l = Ok sd -> within_bounds sd.
Proof.
  unfold calculate_propensity_score. intros H.
  bind_inv H rf Erf. bind_inv H si Esi. bind_inv H ci Eci.
  bind_inv H tg Etg. bind_inv H lc Elc.
  apply role_fit_values in Erf. apply scientific_intent_values in Esi.
  apply company_intent_values in Eci. apply technographic_values in Etg.
  apply location_values in Elc.
  inversion H; subst sd; clear H. unfold within_bounds; simpl.
  rewrite Z.min_comm. unfold sum; simpl. repeat split; lia.
Qed.

Lemma zero_score_within_bounds : within_bounds zero_score.
Proof. unfold within_bounds; simpl. repeat split; lia. Qed.

(** The [try] block of the scientific-intent rule never lets an exception
    out: slicing, [len] and [int] raise only what the handler catches. *)
Lemma recency_check_guarded cy d :
  exists r, try_except (recency_check cy d) value_or_type_error (Ok (Some 40))
            = Ok r.
Proof.
  unfold recency_check, value_len, value_int_prefix4, int_of_string.
  destruct d as [s| |]; simpl; eauto.
  destruct (4 <=? len s); simpl; eauto.
  match goal with |- context [match ?p with Some _ => _ | None => _ end] =>
    destruct p end; simpl; eauto.
  destruct (cy - _ <=? 2); eauto.
Qed.

(** Once the title carries a keyword the rule returns 40 whatever the
    publication date holds: the recency test can only return 40 early, and
    every other path reaches the final [return 40]. *)
Lemma scientific_intent_ignores_date cy (l : lead) (t : string) :
  l !! "publication_title" = Some (VStr t) ->
  any_keyword_in scientific_keywords (lower t) = true ->
  _calculate_scientific_intent_score cy l = Ok 40.
Proof.
  intros Ht Hkw. unfold _calculate_scientific_intent_score.
  rewrite (get_Some _ _ _ _ Ht).
  assert (Hne : truthy (VStr t) = true).
  { destruct t; [discriminate Hkw | reflexivity]. }
  rewrite Hne. cbn [negb value_lower mbind result_bind].
  rewrite Hkw. cbn [negb]. clear Hne.
  destruct (truthy (get l "publication_date" (VStr ""))).
  - destruct (recency_check_guarded cy (get l "publication_date" (VStr "")))
      as [r Hr].
    rewrite Hr. apply recency_check_values in Hr as [-> | ->]; reflexivity.
  - reflexivity.
Qed.

(** A record published in 2000 on a matching topic, scored in 2026. *)
Definition old_publication : lead :=
  <["publication_title" := VStr "Hepatotoxicity in rats"]>
    (<["publication_date" := VStr "2000-05-01"]> ∅).

(** C1. The claim asks for a scientific-intent score of 0 when the title has
    a keyword and the date's leading year is more than two years back. The
    code returns 40 there: when the recency test fails, control leaves the
    [try] block and reaches the final [return 40]. *)
Theorem scientific_intent_old_year_scores_40 :
  value_int_prefix4 (get old_publication "publication_date" (VStr "")) = Ok 2000 /\
  2026 - 2000 > 2 /\
  _calculate_scientific_intent_score 2026 old_publication = Ok 40.
Proof. repeat split. Qed.

(** C4. Every sub-score that the scorer returns lies between 0 and its rule's
    maximum (30, 40, 20, 15, 10) and the propensity score is the minimum of
    100 and the sum of the breakdown values; this holds for what
    [calculate_propensity_score] returns and for the fields [run_stage3]
    attaches to a record, the all-zero fallback included. *)
Theorem score_breakdown_bounds (current_year : Z) (l : lead) :
  within_bounds (stage3_score current_year l) /\
  (forall sd, calculate_propensity_score current_year l = Ok sd ->
              within_bounds sd).
Proof.
  split; [|apply calculate_within_bounds].
  unfold stage3_score.
  destruct (calculate_propensity_score current_year l) as [sd|e] eqn:E.
  - eapply calculate_within_bounds; eassumption.
  - apply zero_score_within_bounds.
Qed.

(** The scoring example of the specification: every rule fires. *)
Definition full_marks : lead :=
  <["title" := VStr "Director of Toxicology"]>
  (<["publication_title" :=
       VStr "Drug-Induced Liver Injury in 3D hepatic spheroids"]>
  (<["publication_date" := VStr "2024"]>
  (<["company_funding_stage" := VStr "Series B"]>
  (<["company_industry" := VStr "organ-on-chip"]>
  (<["person_location" := VStr "Boston, MA"]> ∅))))).

Lemma score_breakdown_bounds_witness :
  calculate_propensity_score 2026 full_marks
  = Ok {| propensity_score := 100;
          score_breakdown :=
            {| role_fit := 30; scientific_intent := 40; company_intent := 20;
               technographic := 15; location := 10 |};
          priority_level := High |} /\
  within_bounds
    {| propensity_score := 100;
       score_breakdown :=
         {| role_fit := 30; scientific_intent := 40; company_intent := 20;
            technographic := 15; location := 10 |};
       priority_level := High |}.
Proof.
  assert (E : calculate_propensity_score 2026 full_marks
              = Ok {| propensity_score := 100;
                      score_breakdown :=
                        {| role_fit := 30; scientific_intent := 40;
                           company_intent := 20; technographic := 15;
                           location := 10 |};
                      priority_level := High |}) by (vm_compute; reflexivity).
  split; [exact E|].
  exact (proj2 (score_breakdown_bounds 2026 full_marks) _ E).
Defined.

End ScoringFacts.
(** ** Properties of the rank assigner *)

Module RankingFacts.
Import Ranking.

(** The number of scores strictly higher than [s]. *)
Fixpoint count_higher (s : Z) (scores : list Z) : Z :=
  match scores with
  | [] => 0
  | x :: rest => (if s <? x then 1 else 0) + count_higher s rest
  end.

Fixpoint count_equal (s : Z) (scores : list Z) : Z :=
  match scores with
  | [] => 0
  | x :: rest => (if s =? x then 1 else 0) + count_equal s rest
  end.

(** [lead.get('propensity_score', 0)] of every record. *)
Definition scores_of (leads : list lead) : list value :=
  map (fun l => get l "propensity_score" (VInt 0)) leads.

(** The records of [leads] with the competition rank of their score among
    [all]. *)
Definition with_competition_ranks (all : list Z) (leads : list lead)
    (scores : list Z) : list lead :=
  zip_with (fun l s => <["rank" := VInt (1 + count_higher s all)]> l)
    leads scores.

Lemma count_higher_app s xs ys :
  count_higher s (xs ++ ys) = count_higher s xs + count_higher s ys.
Proof. induction xs as [|x xs IH]; simpl; [lia | rewrite IH; lia]. Qed.

Lemma count_equal_app s xs ys :
  count_equal s (xs ++ ys) = count_equal s xs + count_equal s ys.
Proof. induction xs as [|x xs IH]; simpl; [lia | rewrite IH; lia]. Qed.

Lemma count_higher_none s xs :
  Forall (fun x => x <= s) xs -> count_higher s xs = 0.
Proof.
  induction 1 as [|x xs Hx _ IH]; simpl; [reflexivity|].
  rewrite IH. destruct (Z.ltb_spec s x); lia.
Qed.

Lemma count_equal_none s xs :
  Forall (fun x => s < x) xs -> count_equal s xs = 0.
Proof.
  induction 1 as [|x xs Hx _ IH]; simpl; [reflexivity|].
  rewrite IH. destruct (Z.eqb_spec s x); lia.
Qed.

Lemma count_higher_all s xs :
  Forall (fun x => s < x) xs -> count_higher s xs = Z.of_nat (length xs).
Proof.
  induction 1 as [|x xs Hx _ IH]; simpl length; simpl count_higher; [reflexivity|].
  rewrite IH. destruct (Z.ltb_spec s x); lia.
Qed.

(** Among scores that are all at least [c], those above [c] and those equal
    to [c] are all of them. *)
Lemma count_higher_equal c xs :
  Forall (fun x => c <= x) xs ->
  count_higher c xs + count_equal c xs = Z.of_nat (length xs).
Proof.
  induction 1 as [|x xs Hx _ IH]; simpl length; simpl count_higher;
    simpl count_equal; [reflexivity|].
  destruct (Z.ltb_spec c x), (Z.eqb_spec c x); lia.
Qed.

(** A descending list has its head above everything that follows. *)
Lemma descending_head c rs :
  Sorted Z.ge (c :: rs) -> Forall (fun x => x <= c) rs.
Proof.
  intros H. apply Sorted_StronglySorted in H.
  - inversion H as [|? ? _ Hall]; subst.
    eapply Forall_impl; [exact Hall|]. simpl. intros; lia.
  - intros x y z ? ?; lia.
Qed.

(** The loop invariant: [pre] holds the scores already ranked, all at least
    the current score [c]; the current rank counts the scores above [c] and
    the tie counter those equal to it. *)
Lemma assign_loop_spec rest : forall pre c rs,
  Forall (fun x => c <= x) pre ->
  scores_of rest = map VInt rs ->
  Sorted Z.ge (c :: rs) ->
  assign_loop rest (1 + count_higher c pre) (VInt c) (count_equal c pre)
  = with_competition_ranks (pre ++ rs) rest rs.
Proof.
  induction rest as [|l rest IH]; intros pre c rs Hpre Hsc Hsorted.
  - reflexivity.
  - destruct rs as [|s rs]; [discriminate|].
    simpl in Hsc. injection Hsc as Hs Hrest.
    assert (Hle : s <= c).
    { apply descending_head in Hsorted. inversion Hsorted; assumption. }
    assert (Htail : Sorted Z.ge (s :: rs)) by (inversion Hsorted; assumption).
    assert (Hrs : count_higher s (s :: rs) = 0).
    { apply count_higher_none. constructor; [lia|].
      apply descending_head; assumption. }
    simpl assign_loop. rewrite Hs. simpl is_none. simpl orb.
    unfold value_eqb.
    unfold with_competition_ranks. simpl zip_with.
    rewrite count_higher_app, Hrs.
    destruct (decide (s = c)) as [->|Hne].
    + rewrite bool_decide_eq_true_2 by reflexivity. simpl negb.
      cbv iota beta. f_equal; [f_equal; f_equal; lia|].
      change (pre ++ c :: rs) with (pre ++ [c] ++ rs). rewrite app_assoc.
      replace (1 + count_higher c pre) with (1 + count_higher c (pre ++ [c])).
      2:{ rewrite count_higher_app. simpl. rewrite Z.ltb_irrefl. lia. }
      replace (count_equal c pre + 1) with (count_equal c (pre ++ [c])).
      2:{ rewrite count_equal_app. simpl. rewrite Z.eqb_refl. lia. }
      apply IH; [|assumption|assumption].
      apply Forall_app; split; [assumption|constructor; [lia|constructor]].
    + rewrite bool_decide_eq_false_2 by congruence. simpl negb.
      cbv iota beta.
      assert (Hpre' : Forall (fun x => s < x) pre).
      { eapply Forall_impl; [exact Hpre|]. simpl. intros; lia. }
      pose proof (count_higher_equal c pre Hpre) as Hall.
      pose proof (count_higher_all s pre Hpre') as Hall'.
      f_equal; [f_equal; f_equal; lia|].
      change (pre ++ s :: rs) with (pre ++ [s] ++ rs). rewrite app_assoc.
      replace (1 + count_higher c pre + count_equal c pre)
        with (1 + count_higher s (pre ++ [s])).
      2:{ rewrite count_higher_app. simpl. rewrite Z.ltb_irrefl. lia. }
      replace 1 with (count_equal s (pre ++ [s])) at 2.
      2:{ rewrite count_equal_app, (count_equal_none s pre Hpre'). simpl.
          rewrite Z.eqb_refl. lia. }
      apply IH; [|assumption|assumption].
      apply Forall_app; split.
      * eapply Forall_impl; [exact Hpre'|]. simpl. intros; lia.
      * constructor; [lia|constructor].
Qed.

Lemma assign_ranks_spec leads scores :
  scores_of leads = map VInt scores ->
  Sorted Z.ge scores ->
  _assign_ranks leads = with_competition_ranks scores leads scores.
Proof.
  intros Hsc Hsorted.
  destruct leads as [|l rest]; [reflexivity|].
  destruct scores as [|s rs]; [discriminate|].
  simpl in Hsc. injection Hsc as Hs Hrest.
  unfold _assign_ranks, with_competition_ranks.
  cbn [assign_loop]. rewrite Hs. cbn [zip_with is_none orb negb].
  assert (Hrs : count_higher s (s :: rs) = 0).
  { apply count_higher_none. constructor; [lia|].
    apply descending_head; assumption. }
  rewrite Hrs. f_equal.
  pose proof (assign_loop_spec rest [s] s rs) as Hloop.
  simpl count_higher in Hloop. simpl count_equal in Hloop.
  rewrite Z.ltb_irrefl, Z.eqb_refl in Hloop.
  apply Hloop; [constructor; [lia|constructor]|assumption|assumption].
Qed.

(** The tie example of the specification, as records that carry only their
    score. *)
Definition tie_example : list lead :=
  map (fun s => {["propensity_score" := VInt s]}) [90; 90; 70; 70; 70; 10].

(** C3. On an input sorted by [propensity_score] descending, [_assign_ranks]
    gives the record at every position the rank [1 + (number of records with
    a strictly higher score)] and changes nothing else, so records with the
    same score share a rank, ranks skip over tie groups, and the first
    record has rank 1; the scores [90, 90, 70, 70, 70, 10] get the ranks
    [1, 1, 3, 3, 3, 6]. *)
Theorem assign_ranks_competition (leads : list lead) (scores : list Z) :
  scores_of leads = map VInt scores ->
  Sorted Z.ge scores ->
  (forall (i : nat) (l : lead) (s : Z),
      leads !! i = Some l -> scores !! i = Some s ->
      _assign_ranks leads !! i
      = Some (<["rank" := VInt (1 + count_higher s scores)]> l)) /\
  (forall l, head leads = Some l ->
      head (_assign_ranks leads) = Some (<["rank" := VInt 1]> l)) /\
  map (fun l => l !! "rank") (_assign_ranks tie_example)
  = map (fun r => Some (VInt r)) [1; 1; 3; 3; 3; 6].
Proof.
  intros Hsc Hsorted.
  pose proof (assign_ranks_spec leads scores Hsc Hsorted) as Hspec.
  split; [|split].
  - intros i l s Hl Hs. rewrite Hspec. unfold with_competition_ranks.
    rewrite lookup_zip_with, Hl. simpl. rewrite Hs. reflexivity.
  - intros l Hl. rewrite Hspec.
    destruct leads as [|l0 rest]; [discriminate|].
    destruct scores as [|s rs]; [discriminate|].
    injection Hl as ->. unfold with_competition_ranks.
    cbn [zip_with head].
    rewrite (count_higher_none s (s :: rs)); [reflexivity|].
    constructor; [lia|]. apply descending_head; assumption.
  - vm_compute. reflexivity.
Qed.

Lemma assign_ranks_competition_witness :
  scores_of tie_example = map VInt [90; 90; 70; 70; 70; 10] /\
  Sorted Z.ge [90; 90; 70; 70; 70; 10] /\
  _assign_ranks tie_example !! 2%nat
  = Some (<["rank" := VInt (1 + count_higher 70 [90; 90; 70; 70; 70; 10])]>
            {["propensity_score" := VInt 70]}).
Proof.
  assert (Hsc : scores_of tie_example = map VInt [90; 90; 70; 70; 70; 10])
    by reflexivity.
  assert (Hsorted : Sorted Z.ge [90; 90; 70; 70; 70; 10]).
  { repeat (constructor; try (compute; discriminate)). }
  split; [exact Hsc|split; [exact Hsorted|]].
  apply (proj1 (assign_ranks_competition tie_example _ Hsc Hsorted) 2%nat);
    reflexivity.
Defined.

End RankingFacts.

(** ** More on the rank assigner: any input, and the sort before it *)

Module RankingMore.
Import Ranking PyFacts RankingFacts.

(** The records of [leads] with the ranks [ranks] written in. *)
Definition with_ranks (leads : list lead) (ranks : list Z) : list lead :=
  zip_with (fun l r => <["rank" := VInt r]> l) leads ranks.

(** The loop from any state: [n] records are done, the rank is at least 1
    and, with the tie counter, at most [1 + n]. *)
Lemma assign_loop_bounds rest :
  forall rank cur cnt (n : Z),
  1 <= rank -> 0 <= cnt -> rank + cnt <= 1 + n ->
  exists ranks,
    assign_loop rest rank cur cnt = with_ranks rest ranks /\
    length ranks = length rest /\
    Forall (fun r => rank <= r) ranks /\
    StronglySorted Z.le ranks /\
    (forall (k : nat) r, ranks !! k = Some r -> r <= n + Z.of_nat k + 1).
Proof.
  induction rest as [|l rest IH]; intros rank cur cnt n Hrank Hcnt Hsum.
  - exists []. repeat split; try constructor. intros k r Hk. discriminate.
  - cbn [assign_loop].
    set (st := if is_none cur || negb (value_eqb (get l "propensity_score" (VInt 0)) cur)
               then ((if negb (is_none cur) then rank + cnt else rank),
                     get l "propensity_score" (VInt 0), 1)
               else (rank, cur, cnt + 1)).
    assert (Hst : exists rank' cur' cnt',
               st = (rank', cur', cnt') /\ rank <= rank' /\ 0 <= cnt' /\
               rank' + cnt' <= 1 + (n + 1) /\ rank' <= n + 1).
    { unfold st. destruct (_ || _).
      - destruct (negb (is_none cur)); eexists _, _, _;
          (split; [reflexivity|]); lia.
      - eexists _, _, _. split; [reflexivity|]. lia. }
    destruct Hst as (rank' & cur' & cnt' & -> & Hle & Hcnt' & Hsum' & Hpos).
    destruct (IH rank' cur' cnt' (n + 1)) as (ranks & -> & Hlen & Hall & Hs & Hb);
      [lia..|].
    exists (rank' :: ranks). split; [reflexivity|].
    split; [simpl; lia|]. split.
    { constructor; [exact Hle|].
      eapply Forall_impl; [exact Hall|]. cbn beta. intros; lia. }
    split; [constructor; assumption|].
    intros [|k] r Hk.
    + injection Hk as <-. lia.
    + apply Hb in Hk. lia.
Qed.

(** X5. On every input, sorted or not, [_assign_ranks] returns the records
    in their order, each with nothing changed but its ['rank']; the ranks
    start at 1, never decrease along the list, and never exceed the
    position of the record counted from 1. *)
Theorem assign_ranks_keeps_records (leads : list lead) :
  exists ranks,
    _assign_ranks leads = with_ranks leads ranks /\
    length ranks = length leads /\
    StronglySorted Z.le ranks /\
    (forall (k : nat) r,
       ranks !! k = Some r -> 1 <= r <= Z.of_nat k + 1) /\
    (forall r, head ranks = Some r -> r = 1).
Proof.
  destruct leads as [|l rest].
  { exists []. repeat split; try constructor; intros; discriminate. }
  unfold _assign_ranks.
  destruct (assign_loop_bounds (l :: rest) 1 VNone 0 0)
    as (ranks & Hout & Hlen & Hall & Hs & Hb); [lia..|].
  exists ranks. split; [exact Hout|]. split; [exact Hlen|].
  split; [exact Hs|]. split.
  - intros k r Hk. split; [|apply Hb in Hk; lia].
    rewrite Forall_forall in Hall. apply Hall.
    eapply list_elem_of_lookup_2. exact Hk.
  - intros r Hr. rewrite head_lookup in Hr.
    pose proof (Hb 0%nat r Hr).
    rewrite Forall_forall in Hall.
    assert (1 <= r) by (apply Hall; eapply list_elem_of_lookup_2; exact Hr).
    lia.
Qed.

(** The rank the loop gives each record of [rest] when the record before
    has the score [prev] and the rank [prev_rank]: the same rank on an equal
    score, and otherwise its own position [pos], counted from 1. *)
Fixpoint run_ranks (prev : value) (prev_rank : Z) (pos : Z)
    (rest : list lead) : list Z :=
  match rest with
  | [] => []
  | l :: rest =>
      let r := if value_eqb (score_key l) prev then prev_rank else pos in
      r :: run_ranks (score_key l) r (pos + 1) rest
  end.

Lemma value_eqb_true (a b : value) : value_eqb a b = true -> a = b.
Proof. unfold value_eqb. intros H. exact (bool_decide_eq_true_1 _ H). Qed.

Lemma assign_loop_runs rest :
  forall rank prev cnt,
  prev <> VNone ->
  Forall (fun l => score_key l <> VNone) rest ->
  assign_loop rest rank prev cnt
  = with_ranks rest (run_ranks prev rank (rank + cnt) rest).
Proof.
  induction rest as [|l rest IH]; intros rank prev cnt Hprev Hall;
    [reflexivity|].
  apply Forall_cons in Hall as [Hl Hall].
  cbn [assign_loop run_ranks]. fold (score_key l).
  assert (Hn : is_none prev = false) by (destruct prev; [reflexivity..|congruence]).
  rewrite Hn. cbn [orb negb].
  unfold with_ranks. cbn [zip_with].
  destruct (value_eqb (score_key l) prev) eqn:Heq; cbn [negb].
  - apply value_eqb_true in Heq. f_equal.
    rewrite (IH rank prev (cnt + 1) Hprev Hall).
    unfold with_ranks. rewrite Heq.
    replace (rank + (cnt + 1)) with (rank + cnt + 1) by lia. reflexivity.
  - f_equal. rewrite (IH (rank + cnt) (score_key l) 1 Hl Hall).
    reflexivity.
Qed.

(** Scores [90, 70, 90]: not in order, the two 90s are apart. *)
Definition unsorted_example : list lead :=
  map (fun s => {["propensity_score" := VInt s]}) [90; 70; 90].

(** X6. When no record has the score [None], the rank of a record depends
    on the record just before it only: the first record gets rank 1, a
    record with the score of its predecessor gets the predecessor's rank,
    and every other record gets its own position counted from 1. The
    scores are not compared for order, so on the unsorted scores
    [90, 70, 90] the ranks are [1, 2, 3]. *)
Theorem rank_follows_predecessor (first : lead) (rest : list lead) :
  Forall (fun l => score_key l <> VNone) (first :: rest) ->
  _assign_ranks (first :: rest)
  = with_ranks (first :: rest) (1 :: run_ranks (score_key first) 1 2 rest) /\
  map (fun l => l !! "rank") (_assign_ranks unsorted_example)
  = map (fun r => Some (VInt r)) [1; 2; 3].
Proof.
  intros Hall. apply Forall_cons in Hall as [Hfirst Hall]. split.
  - unfold _assign_ranks. cbn [assign_loop is_none orb negb].
    fold (score_key first). unfold with_ranks at 1. cbn [zip_with].
    f_equal. exact (assign_loop_runs rest 1 (score_key first) 1 Hfirst Hall).
  - vm_compute. reflexivity.
Qed.

Lemma rank_follows_predecessor_witness :
  _assign_ranks unsorted_example
  = with_ranks unsorted_example
      (1 :: run_ranks (VInt 90) 1 2 (tail unsorted_example)).
Proof.
  refine (proj1 (rank_follows_predecessor
                   {["propensity_score" := VInt 90]}
                   (tail unsorted_example) _)).
  repeat constructor; vm_compute; discriminate.
Defined.

(** *** The sort *)

Definition int_score (l : lead) : Z :=
  match score_key l with
  | VInt n => n
  | _ => 0
  end.

Definition int_keyed (l : lead) : Prop := is_int (score_key l) = true.

Lemma int_keyed_score l : int_keyed l -> score_key l = VInt (int_score l).
Proof.
  unfold int_keyed, int_score. destruct (score_key l); simpl; congruence.
Qed.

Lemma insert_by_score_perm x sorted :
  insert_by_score x sorted ≡ₚ x :: sorted.
Proof.
  induction sorted as [|y rest IH]; cbn [insert_by_score]; [reflexivity|].
  destruct (key_leb _ _); [reflexivity|].
  rewrite IH. apply Permutation_swap.
Qed.

Lemma sorted_perm leads : foldr insert_by_score [] leads ≡ₚ leads.
Proof.
  induction leads as [|l rest IH]; cbn [foldr]; [reflexivity|].
  rewrite insert_by_score_perm, IH. reflexivity.
Qed.

(** Descending by integer score. *)
Definition descending (leads : list lead) : Prop :=
  StronglySorted (fun a b => int_score b <= int_score a) leads.

Lemma insert_by_score_descending x sorted :
  int_keyed x -> Forall int_keyed sorted -> descending sorted ->
  descending (insert_by_score x sorted).
Proof.
  unfold descending. intros Hx Hall Hs.
  induction Hs as [|y rest Hrest IH Hy]; cbn [insert_by_score].
  { repeat constructor. }
  apply Forall_cons in Hall as [Hky Hall].
  rewrite (int_keyed_score x Hx), (int_keyed_score y Hky). cbn [key_leb].
  destruct (Z.leb_spec (int_score y) (int_score x)) as [Hle|Hlt].
  - constructor; [constructor; assumption|].
    constructor; [exact Hle|].
    eapply Forall_impl; [exact Hy|]. cbn beta. intros; lia.
  - constructor; [apply IH; assumption|].
    rewrite insert_by_score_perm. constructor; [lia|exact Hy].
Qed.

Lemma sorted_descending leads :
  Forall int_keyed leads -> descending (foldr insert_by_score [] leads).
Proof.
  induction 1 as [|l rest Hl Hall IH]; cbn [foldr]; [constructor|].
  apply insert_by_score_descending; [exact Hl| |exact IH].
  rewrite sorted_perm. exact Hall.
Qed.

Lemma count_higher_perm s xs ys :
  xs ≡ₚ ys -> count_higher s xs = count_higher s ys.
Proof.
  induction 1; cbn [count_higher]; lia.
Qed.

Lemma zip_with_map_r {A B C} (f : A -> B -> C) (g : A -> B) (l : list A) :
  zip_with f l (map g l) = map (fun x => f x (g x)) l.
Proof. induction l as [|x l IH]; cbn; [reflexivity|]. rewrite IH. reflexivity. Qed.

(** The competition rank of a record among [leads]. *)
Definition competition_rank (leads : list lead) (l : lead) : Z :=
  1 + count_higher (int_score l) (map int_score leads).

Definition three_scored : list lead :=
  map (fun s => {["propensity_score" := VInt s]}) [70; 90; 70].

(** X7. The sort and the ranking of [run_stage3] together, on records that
    all carry an integer score (in any order): the step does not raise; the
    sorted list is a rearrangement of the input in descending score order;
    and every record comes out with nothing changed but its ['rank'], which
    is 1 plus the number of records of the batch with a strictly higher
    score. *)
Theorem sort_and_rank_competition (leads : list lead) :
  Forall int_keyed leads ->
  exists sorted,
    sort_by_score leads = Ok sorted /\
    sorted ≡ₚ leads /\
    descending sorted /\
    sort_and_rank leads
    = Ok (map (fun l => <["rank" := VInt (competition_rank leads l)]> l)
            sorted).
Proof.
  intros Hall. exists (foldr insert_by_score [] leads).
  assert (Hkeys : forallb is_int (map score_key leads) = true).
  { induction Hall as [|l rest Hl _ IH]; [reflexivity|].
    cbn [map forallb]. rewrite IH. unfold int_keyed in Hl. rewrite Hl.
    reflexivity. }
  assert (Hsort : sort_by_score leads = Ok (foldr insert_by_score [] leads)).
  { unfold sort_by_score. rewrite Hkeys, orb_true_r. reflexivity. }
  pose proof (sorted_perm leads) as Hperm.
  pose proof (sorted_descending leads Hall) as Hdesc.
  split; [exact Hsort|]. split; [exact Hperm|]. split; [exact Hdesc|].
  unfold sort_and_rank. rewrite Hsort. cbn [mbind result_bind]. f_equal.
  set (sorted := foldr insert_by_score [] leads) in *.
  assert (Hall' : Forall int_keyed sorted) by (rewrite Hperm; exact Hall).
  rewrite (assign_ranks_spec sorted (map int_score sorted)).
  - unfold with_competition_ranks. rewrite zip_with_map_r.
    apply map_ext. intros l. unfold competition_rank.
    rewrite (count_higher_perm _ (map int_score sorted) (map int_score leads));
      [reflexivity|].
    apply Permutation_map. exact Hperm.
  - unfold scores_of. rewrite map_map.
    apply Forall_fmap_ext_1.
    eapply Forall_impl; [exact Hall'|]. cbn beta.
    intros l Hl. exact (int_keyed_score l Hl).
  - unfold descending in Hdesc. apply StronglySorted_Sorted.
    clearbody sorted. clear -Hdesc.
    induction Hdesc as [|l rest Hrest IH Hl]; cbn [map]; constructor.
    + exact IH.
    + rewrite Forall_forall in Hl. rewrite Forall_forall.
      intros s Hs. apply list_elem_of_fmap in Hs as (l' & -> & Hl').
      apply Hl in Hl'. lia.
Qed.

Lemma sort_and_rank_competition_witness :
  exists sorted,
    sort_by_score three_scored = Ok sorted /\
    sorted ≡ₚ three_scored /\
    descending sorted /\
    sort_and_rank three_scored
    = Ok (map (fun l => <["rank" := VInt (competition_rank three_scored l)]> l)
            sorted).
Proof.
  apply (sort_and_rank_competition three_scored).
  repeat constructor.
Defined.

End RankingMore.

(** ** Properties of the merge policy and of company extraction *)

Module MergeFacts.
Import DataProcessing PyFacts.

Ltac bind_inv H x Hx :=
  apply bind_Ok in H; destruct H as (x & Hx & H).

(** Each block writes its own field only. *)

Lemma assign_frame k v (m : lead) k' :
  k' <> k -> assign k v m !! k' = m !! k'.
Proof.
  intros Hne. destruct v; simpl; [|reflexivity].
  apply lookup_insert_ne. congruence.
Qed.

Lemma merge_publication_title_frame (m l2 m' : lead) k :
  merge_publication_title m l2 = Ok m' ->
  k <> "publication_title" -> m' !! k = m !! k.
Proof.
  unfold merge_publication_title. intros H Hne. bind_inv H v Hv.
  injection H as <-. apply assign_frame; assumption.
Qed.

Lemma merge_email_frame (m l2 : lead) k :
  k <> "email" -> merge_email m l2 !! k = m !! k.
Proof.
  intros Hne. unfold merge_email.
  repeat match goal with |- context [if ?b then _ else _] => destruct b end;
    try reflexivity; apply lookup_insert_ne; congruence.
Qed.

Lemma merge_location_frame (m l2 : lead) k :
  k <> "location" -> merge_location m l2 !! k = m !! k.
Proof.
  intros Hne. unfold merge_location.
  destruct (_ && _); [apply lookup_insert_ne; congruence | reflexivity].
Qed.

Lemma merge_company_frame (m l2 : lead) k :
  k <> "company" -> merge_company m l2 !! k = m !! k.
Proof.
  intros Hne. unfold merge_company.
  destruct (_ && _); [apply lookup_insert_ne; congruence | reflexivity].
Qed.

Lemma merge_author_position_frame (m l2 : lead) k :
  k <> "author_position" -> merge_author_position m l2 !! k = m !! k.
Proof.
  intros Hne. unfold merge_author_position.
  destruct (_ <? _); [apply lookup_insert_ne; congruence | reflexivity].
Qed.

Lemma merge_pubmed_id_frame (m l2 : lead) k :
  k <> "pubmed_id" -> merge_pubmed_id m l2 !! k = m !! k.
Proof.
  intros Hne. unfold merge_pubmed_id.
  repeat match goal with |- context [if ?b then _ else _] => destruct b end;
    try reflexivity; apply lookup_insert_ne; congruence.
Qed.

Lemma merge_publication_journal_frame (m l2 m' : lead) k :
  merge_publication_journal m l2 = Ok m' ->
  k <> "publication_journal" -> m' !! k = m !! k.
Proof.
  unfold merge_publication_journal. intros H Hne. bind_inv H v Hv.
  injection H as <-. apply assign_frame; assumption.
Qed.

Lemma merge_publication_date_frame (m l2 m' : lead) k :
  merge_publication_date m l2 = Ok m' ->
  k <> "publication_date" -> m' !! k = m !! k.
Proof.
  unfold merge_publication_date. intros H Hne. bind_inv H v Hv.
  injection H as <-.
  destruct v; [apply lookup_insert_ne; congruence | reflexivity].
Qed.

(** [get] sees only the field it reads. *)
Lemma get_lookup_eq (m m' : lead) k dflt :
  m !! k = m' !! k -> get m k dflt = get m' k dflt.
Proof. unfold get. intros ->. reflexivity. Qed.

(** The location block keeps a location that is set. *)
Lemma merge_location_keeps (m l2 : lead) :
  truthy (get m "location" (VStr "")) = true ->
  merge_location m l2 = m.
Proof. unfold merge_location. intros ->. reflexivity. Qed.

(** The location of the merge when the first lead has one. *)
Lemma merge_keeps_location (lead1 lead2 merged : lead) :
  truthy (get lead1 "location" (VStr "")) = true ->
  _merge_lead_data lead1 lead2 = Ok merged ->
  merged !! "location" = lead1 !! "location".
Proof.
  intros Hloc H. unfold _merge_lead_data in H.
  bind_inv H m1 H1. bind_inv H m2 H2.
  rewrite (merge_publication_date_frame _ _ _ _ H) by discriminate.
  rewrite (merge_publication_journal_frame _ _ _ _ H2) by discriminate.
  rewrite merge_pubmed_id_frame by discriminate.
  rewrite merge_author_position_frame by discriminate.
  rewrite merge_company_frame by discriminate.
  assert (Hm : merge_email m1 lead2 !! "location" = lead1 !! "location").
  { rewrite merge_email_frame by discriminate.
    apply (merge_publication_title_frame _ _ _ _ H1). discriminate. }
  rewrite merge_location_keeps; [exact Hm|].
  rewrite (get_lookup_eq _ _ _ _ Hm). exact Hloc.
Qed.

(** The author position of the merge: the second lead's when it outranks
    the first lead's, the first lead's otherwise. *)
Lemma merge_author_position_rule (lead1 lead2 merged : lead) :
  _merge_lead_data lead1 lead2 = Ok merged ->
  let pos1 := get lead1 "author_position" (VStr "") in
  let pos2 := get lead2 "author_position" (VStr "") in
  merged !! "author_position"
  = if position_priority pos1 <? position_priority pos2 then Some pos2
    else lead1 !! "author_position".
Proof.
  intros H. unfold _merge_lead_data in H.
  bind_inv H m1 H1. bind_inv H m2 H2. cbv zeta.
  rewrite (merge_publication_date_frame _ _ _ _ H) by discriminate.
  rewrite (merge_publication_journal_frame _ _ _ _ H2) by discriminate.
  rewrite merge_pubmed_id_frame by discriminate.
  set (m := merge_company _ _).
  assert (Hm : m !! "author_position" = lead1 !! "author_position").
  { unfold m. rewrite merge_company_frame by discriminate.
    rewrite merge_location_frame by discriminate.
    rewrite merge_email_frame by discriminate.
    apply (merge_publication_title_frame _ _ _ _ H1). discriminate. }
  unfold merge_author_position.
  rewrite (get_lookup_eq m lead1 _ _ Hm).
  destruct (_ <? _); [apply lookup_insert_eq | exact Hm].
Qed.

(** Values outside the four ranked positions have priority 0. *)
Lemma position_priority_unranked (pos : value) :
  pos <> VStr "Corresponding Author" -> pos <> VStr "First Author" ->
  pos <> VStr "Last Author" -> pos <> VStr "Co-Author" ->
  position_priority pos = 0.
Proof.
  intros H1 H2 H3 H4.
  destruct (decide (position_priority pos = 0)) as [|Hne]; [assumption|].
  exfalso. unfold position_priority in Hne.
  repeat match type of Hne with
  | context [match ?x with _ => _ end] => destruct x; try congruence
  end.
Qed.

End MergeFacts.

Module ExtractFacts.
Import DataProcessing.

(** A segment the first pass discards: it holds a denylisted keyword, or
    starts with a digit, or has fewer than three characters. *)
Definition denylisted (segment : string) : bool :=
  existsb (fun keyword => contains keyword (lower segment)) skip_keywords.

Definition discarded (segment : string) : bool :=
  denylisted segment || starts_with_digit segment || (len segment <? 3).

Lemma first_company_find parts :
  first_company parts
  = List.find (fun seg => negb (discarded seg) && (3 <? len seg)) parts.
Proof.
  induction parts as [|part rest IH]; [reflexivity|].
  cbn [first_company List.find]. rewrite IH.
  unfold discarded, denylisted.
  destruct (existsb _ skip_keywords); [reflexivity|].
  destruct (starts_with_digit part); [reflexivity|].
  destruct (len part <? 3); [reflexivity|].
  destruct (3 <? len part); reflexivity.
Qed.

Lemma first_substantial_find parts :
  first_substantial parts = List.find (fun seg => 5 <? len seg) parts.
Proof.
  induction parts as [|part rest IH]; [reflexivity|].
  cbn [first_substantial List.find]. rewrite IH.
  destruct (5 <? len part); reflexivity.
Qed.

End ExtractFacts.

(** ** The company extractor against the wording of the specification *)

Module StringFacts.

Lemma append_nil_l (s : string) : "" +:+ s = s.
Proof. reflexivity. Qed.

Lemma append_cons (c : ascii) (a b : string) :
  String c a +:+ b = String c (a +:+ b).
Proof. reflexivity. Qed.

Lemma append_nil_r (s : string) : s +:+ "" = s.
Proof.
  induction s as [|c s IH]; [reflexivity|].
  rewrite append_cons, IH. reflexivity.
Qed.

Lemma append_assoc (a b c : string) : (a +:+ b) +:+ c = a +:+ (b +:+ c).
Proof.
  induction a as [|x a IH]; [reflexivity|].
  rewrite !append_cons, IH. reflexivity.
Qed.

Lemma append_snoc (a : string) (c : ascii) (b : string) :
  (a +:+ String c "") +:+ b = a +:+ String c b.
Proof. rewrite append_assoc. reflexivity. Qed.

Lemma length_append (a b : string) :
  String.length (a +:+ b) = (String.length a + String.length b)%nat.
Proof.
  induction a as [|x a IH]; [reflexivity|].
  rewrite append_cons. cbn [String.length]. rewrite IH. reflexivity.
Qed.

Lemma list_append (a b : string) :
  list_ascii_of_string (a +:+ b)
  = list_ascii_of_string a ++ list_ascii_of_string b.
Proof.
  induction a as [|x a IH]; [reflexivity|].
  rewrite append_cons. cbn [list_ascii_of_string app]. rewrite IH. reflexivity.
Qed.

End StringFacts.

Module CompanyClaim.
Import DataProcessing PyFacts ExtractFacts StringFacts.

(** *** The words of the claim *)

Definition is_at (c : ascii) : bool := Ascii.eqb c "@".

(** The characters an email address is written with: letters, digits and
    [@ . _ % + -]. *)
Definition address_char (c : ascii) : bool :=
  let n := N_of_ascii c in
  (((48 <=? n) && (n <=? 57)) || ((65 <=? n) && (n <=? 90))
   || ((97 <=? n) && (n <=? 122)))%N
  || existsb (Ascii.eqb c) ["@"; "."; "_"; "%"; "+"; "-"]%char.

(** Blank characters: space, tab, line feed, vertical tab, form feed,
    carriage return and the four separators FS, GS, RS, US. *)
Definition blank (c : ascii) : bool :=
  existsb (Ascii.eqb c)
    [" "; "009"; "010"; "011"; "012"; "013"; "028"; "029"; "030"; "031"]%char.

Definition decimal_digit (c : ascii) : bool :=
  existsb (Ascii.eqb c) ["0"; "1"; "2"; "3"; "4"; "5"; "6"; "7"; "8"; "9"]%char.

(** The characters between the first and the last. *)
Definition inside (l : list ascii) : list ascii := removelast (tail l).

(** An [@] that is neither the first nor the last character of [w]. *)
Definition has_at_inside (w : string) : bool :=
  existsb is_at (inside (list_ascii_of_string w)).

(** The pieces of [s] between the characters that [sep] accepts, the text
    before the first of them starting with [current]. *)
Fixpoint pieces_from (sep : ascii -> bool) (current s : string)
    : list string :=
  match s with
  | EmptyString => [current]
  | String c r =>
      if sep c then current :: pieces_from sep EmptyString r
      else pieces_from sep (current +:+ String c EmptyString) r
  end.

Definition pieces (sep : ascii -> bool) (s : string) : list string :=
  pieces_from sep EmptyString s.

(** A run of characters is dropped when it has an [@] inside. *)
Definition unless_email (run : string) : string :=
  if has_at_inside run then EmptyString else run.

(** [s] without the maximal runs of [in_run] characters that have an [@]
    inside; [run] is the run that the text before [s] ends with. *)
Fixpoint drop_runs (in_run : ascii -> bool) (run s : string) : string :=
  match s with
  | EmptyString => unless_email run
  | String c r =>
      if in_run c then drop_runs in_run (run +:+ String c EmptyString) r
      else unless_email run +:+ String c (drop_runs in_run EmptyString r)
  end.

(** The text without its email substrings: an email substring is a maximal
    run of address characters with an [@] inside. *)
Definition strip_emails (s : string) : string :=
  drop_runs address_char EmptyString s.

Fixpoint drop_blanks (l : list ascii) : list ascii :=
  match l with
  | [] => []
  | c :: rest => if blank c then drop_blanks rest else l
  end.

(** [s] without the blanks around it. *)
Definition trimmed (s : string) : string :=
  string_of_list_ascii
    (rev (drop_blanks (rev (drop_blanks (list_ascii_of_string s))))).

Definition institutional_keywords : list string :=
  ["department"; "university"; "college"; "school"; "institute";
   "institution"; "center"; "centre"; "laboratory"; "lab"; "faculty"].

Definition small_letter (c : ascii) : bool :=
  let n := N_of_ascii c in ((97 <=? n) && (n <=? 122))%N.

(** The capital of a small letter. *)
Definition capital (c : ascii) : ascii :=
  if small_letter c then ascii_of_N (N_of_ascii c - 32) else c.

(** [c] is the keyword's letter [k], small or capital. *)
Definition same_letter (k c : ascii) : bool :=
  Ascii.eqb c k || Ascii.eqb c (capital k).

Fixpoint begins_with (keyword s : string) : bool :=
  match keyword, s with
  | EmptyString, _ => true
  | String k keyword', String c s' =>
      same_letter k c && begins_with keyword' s'
  | String _ _, EmptyString => false
  end.

(** The keyword occurs somewhere in [s], in any letter case. *)
Fixpoint occurs (keyword s : string) : bool :=
  begins_with keyword s ||
  match s with
  | EmptyString => false
  | String _ r => occurs keyword r
  end.

(** The segment holds an institutional keyword, in any letter case. *)
Definition mentions_institution (segment : string) : bool :=
  existsb (fun keyword => occurs keyword segment) institutional_keywords.

Definition numeric_leading (segment : string) : bool :=
  match segment with
  | String c _ => decimal_digit c
  | EmptyString => false
  end.

Definition longer_than (n : nat) (segment : string) : bool :=
  (n <? String.length segment)%nat.

(** A segment survives when it is not discarded: no institutional keyword,
    no leading digit, at least three characters. *)
Definition survives (segment : string) : bool :=
  negb (mentions_institution segment) && negb (numeric_leading segment)
  && negb (String.length segment <? 3)%nat.

(** The comma-separated segments of the text without its email
    substrings, each without the blanks around it. *)
Definition claimed_segments (affiliation : string) : list string :=
  map trimmed (pieces (fun c => Ascii.eqb c ",") (strip_emails affiliation)).

(** The claim read to the letter: the first surviving segment longer than
    3 characters; the first segment longer than 5 when no segment
    survives; ["Unknown"] otherwise. *)
Definition claimed_company (affiliation : string) : string :=
  let segments := claimed_segments affiliation in
  let survivors := List.filter survives segments in
  match List.find (longer_than 3) survivors with
  | Some segment => segment
  | None =>
      match survivors with
      | [] =>
          match List.find (longer_than 5) segments with
          | Some segment => segment
          | None => "Unknown"
          end
      | _ :: _ => "Unknown"
      end
  end.

(** The claim as amended: the fallback applies whenever no surviving
    segment is longer than 3 characters, also when shorter ones survive. *)
Definition amended_company (affiliation : string) : string :=
  let segments := claimed_segments affiliation in
  match List.find (longer_than 3) (List.filter survives segments) with
  | Some segment => segment
  | None =>
      match List.find (longer_than 5) segments with
      | Some segment => segment
      | None => "Unknown"
      end
  end.

(** Every character is ASCII: the text model is byte-wise, and on ASCII
    text bytes are characters. *)
Definition is_ascii (s : string) : bool :=
  forallb (fun c => (N_of_ascii c <? 128)%N) (list_ascii_of_string s).

(** A word with an [@] inside is written with address characters only. *)
Definition stands_alone (word : string) : bool :=
  implb (has_at_inside word)
    (forallb address_char (list_ascii_of_string word)).

(** Each email address stands as a blank-delimited word of its own, with
    no other text attached to it. *)
Definition emails_stand_alone (s : string) : bool :=
  forallb stands_alone (pieces blank s).

Definition nonblank (c : ascii) : bool := negb (blank c).

(** *** Character classes *)

Lemma blank_isspace (c : ascii) : isspace c = blank c.
Proof. destruct c as [[] [] [] [] [] [] [] []]; reflexivity. Qed.

Lemma decimal_digit_isdigit (c : ascii) : isdigit c = decimal_digit c.
Proof. destruct c as [[] [] [] [] [] [] [] []]; reflexivity. Qed.

Lemma blank_not_address (c : ascii) : blank c = true -> address_char c = false.
Proof. destruct c as [[] [] [] [] [] [] [] []]; intros H; try reflexivity; discriminate H. Qed.

Lemma same_letter_lower (k c : ascii) :
  small_letter k = true -> Ascii.eqb k (lower_char c) = same_letter k c.
Proof.
  destruct k as [[] [] [] [] [] [] [] []]; intros H; vm_compute in H;
    try discriminate H; clear H;
    destruct c as [[] [] [] [] [] [] [] []]; reflexivity.
Qed.

Lemma begins_with_lower (keyword s : string) :
  forallb small_letter (list_ascii_of_string keyword) = true ->
  starts_with keyword (lower s) = begins_with keyword s.
Proof.
  revert s. induction keyword as [|k keyword IH]; intros s H.
  - destruct s; reflexivity.
  - cbn [list_ascii_of_string forallb] in H.
    apply andb_true_iff in H as [Hk H].
    destruct s as [|c s]; [reflexivity|].
    cbn [lower starts_with begins_with].
    rewrite (same_letter_lower k c Hk), (IH s H). reflexivity.
Qed.

Lemma occurs_lower (keyword s : string) :
  forallb small_letter (list_ascii_of_string keyword) = true ->
  contains keyword (lower s) = occurs keyword s.
Proof.
  intros H. induction s as [|c s IH].
  - cbn [lower contains occurs].
    rewrite <- (begins_with_lower keyword "" H). reflexivity.
  - cbn [lower contains occurs]. rewrite IH.
    change (String (lower_char c) (lower s)) with (lower (String c s)).
    rewrite (begins_with_lower keyword (String c s) H). reflexivity.
Qed.

Lemma keywords_are_small :
  forallb (fun keyword => forallb small_letter (list_ascii_of_string keyword))
    skip_keywords = true.
Proof. vm_compute. reflexivity. Qed.

Lemma existsb_ext_in {A} (p q : A -> bool) (l : list A) :
  (forall x, In x l -> p x = q x) -> existsb p l = existsb q l.
Proof.
  induction l as [|x l IH]; intros H; [reflexivity|].
  cbn [existsb]. rewrite (H x (or_introl eq_refl)), IH; [reflexivity|].
  intros y Hy. apply H. right. exact Hy.
Qed.

Lemma mentions_institution_denylisted (segment : string) :
  denylisted segment = mentions_institution segment.
Proof.
  unfold denylisted, mentions_institution.
  change institutional_keywords with skip_keywords.
  apply existsb_ext_in. intros keyword Hin.
  apply occurs_lower.
  pose proof keywords_are_small as H.
  rewrite forallb_forall in H. apply H, Hin.
Qed.

(** *** Blanks, segments and lengths *)

Lemma lstrip_drop_blanks (s : string) :
  list_ascii_of_string (lstrip s) = drop_blanks (list_ascii_of_string s).
Proof.
  induction s as [|c s IH]; [reflexivity|].
  cbn [lstrip list_ascii_of_string drop_blanks].
  rewrite blank_isspace. destruct (blank c); [exact IH | reflexivity].
Qed.

Lemma drop_blanks_snoc (l : list ascii) (c : ascii) :
  drop_blanks (l ++ [c])
  = match drop_blanks l with
    | [] => if blank c then [] else [c]
    | kept => kept ++ [c]
    end.
Proof.
  induction l as [|x l IH]; [reflexivity|].
  cbn [app drop_blanks]. destruct (blank x); [exact IH | reflexivity].
Qed.

Lemma rstrip_drop_blanks (s : string) :
  list_ascii_of_string (rstrip s)
  = rev (drop_blanks (rev (list_ascii_of_string s))).
Proof.
  induction s as [|c s IH]; [reflexivity|].
  cbn [rstrip list_ascii_of_string rev]. rewrite drop_blanks_snoc.
  rewrite blank_isspace.
  destruct (rstrip s) as [|d kept] eqn:E.
  - destruct (drop_blanks (rev (list_ascii_of_string s))) as [|y l] eqn:D.
    + destruct (blank c); reflexivity.
    + cbn [list_ascii_of_string rev] in IH.
      symmetry in IH. apply app_eq_nil in IH as [_ IH]. discriminate IH.
  - destruct (drop_blanks (rev (list_ascii_of_string s))) as [|y l] eqn:D.
    + discriminate IH.
    + rewrite rev_app_distr. cbn [rev app list_ascii_of_string].
      f_equal. exact IH.
Qed.

Lemma strip_trimmed (s : string) : strip s = trimmed s.
Proof.
  unfold strip, trimmed.
  rewrite <- lstrip_drop_blanks, <- rstrip_drop_blanks.
  rewrite string_of_list_ascii_of_string. reflexivity.
Qed.

Lemma split_never_empty (sep : ascii) (s : string) : split sep s <> [].
Proof.
  destruct s as [|c s]; [discriminate|].
  cbn [split]. destruct (Ascii.eqb c sep); [discriminate|].
  destruct (split sep s); discriminate.
Qed.

Lemma pieces_from_split (sep : ascii) (current s : string) :
  pieces_from (fun c => Ascii.eqb c sep) current s
  = match split sep s with
    | segment :: segments => (current +:+ segment) :: segments
    | [] => [current]
    end.
Proof.
  revert current. induction s as [|c s IH]; intros current.
  - cbn [pieces_from split]. rewrite append_nil_r. reflexivity.
  - cbn [pieces_from split]. destruct (Ascii.eqb c sep).
    + rewrite append_nil_r, IH.
      destruct (split sep s) as [|segment segments] eqn:E;
        [destruct (split_never_empty sep s E) | reflexivity].
    + rewrite IH.
      destruct (split sep s) as [|segment segments];
        rewrite ?append_snoc; reflexivity.
Qed.

Lemma split_pieces (sep : ascii) (s : string) :
  split sep s = pieces (fun c => Ascii.eqb c sep) s.
Proof.
  unfold pieces. rewrite pieces_from_split.
  destruct (split sep s) as [|segment segments] eqn:E;
    [destruct (split_never_empty sep s E) | reflexivity].
Qed.

Lemma len_longer (n : nat) (s : string) :
  (Z.of_nat n <? len s) = longer_than n s.
Proof.
  unfold len, longer_than.
  destruct (Z.ltb_spec (Z.of_nat n) (Z.of_nat (String.length s)));
    destruct (Nat.ltb_spec n (String.length s)); try reflexivity; lia.
Qed.

Lemma len_shorter (n : nat) (s : string) :
  (len s <? Z.of_nat n) = (String.length s <? n)%nat.
Proof.
  unfold len.
  destruct (Z.ltb_spec (Z.of_nat (String.length s)) (Z.of_nat n));
    destruct (Nat.ltb_spec (String.length s) n); try reflexivity; lia.
Qed.

Lemma starts_with_digit_numeric (s : string) :
  starts_with_digit s = numeric_leading s.
Proof. destruct s as [|c s]; [reflexivity | apply decimal_digit_isdigit]. Qed.

Lemma discarded_survives (segment : string) :
  negb (discarded segment) = survives segment.
Proof.
  unfold discarded, survives.
  rewrite mentions_institution_denylisted, starts_with_digit_numeric.
  rewrite (len_shorter 3). rewrite !negb_orb. reflexivity.
Qed.

Lemma find_filter {A} (keep p : A -> bool) (l : list A) :
  List.find p (List.filter keep l) = List.find (fun x => keep x && p x) l.
Proof.
  induction l as [|x l IH]; [reflexivity|].
  cbn [List.filter List.find]. destruct (keep x); cbn [List.find andb];
    rewrite IH; reflexivity.
Qed.

Lemma find_same {A} (p q : A -> bool) (l : list A) :
  (forall x, p x = q x) -> List.find p l = List.find q l.
Proof.
  intros H. induction l as [|x l IH]; [reflexivity|].
  cbn [List.find]. rewrite H, IH. reflexivity.
Qed.

(** *** Email substrings *)

Lemma has_at_inside_list (w : string) :
  has_at_inside w = existsb is_at (inside (list_ascii_of_string w)).
Proof. reflexivity. Qed.

Lemma at_then_more_cons (c : ascii) (r : string) :
  at_then_more (String c r)
  = (is_at c && match r with EmptyString => false | String _ _ => true end)
    || at_then_more r.
Proof.
  destruct c as [[] [] [] [] [] [] [] []]; destruct r; reflexivity.
Qed.

Lemma at_then_more_removelast (r : string) :
  at_then_more r = existsb is_at (removelast (list_ascii_of_string r)).
Proof.
  induction r as [|c r IH]; [reflexivity|].
  rewrite at_then_more_cons, IH.
  destruct r as [|d r]; [destruct (is_at c); reflexivity|].
  cbn [list_ascii_of_string removelast existsb]. rewrite andb_true_r.
  reflexivity.
Qed.

Lemma has_at_inside_cons (c : ascii) (r : string) :
  has_at_inside (String c r) = at_then_more r.
Proof. rewrite at_then_more_removelast. reflexivity. Qed.

Lemma in_removelast_app {A} (z : A) (l y : list A) :
  In z (removelast l) -> In z (removelast (l ++ y)).
Proof.
  induction l as [|a l IH]; [intros []|].
  destruct l as [|b l]; [intros []|].
  change (In z (a :: removelast (b :: l)) ->
          In z (a :: removelast ((b :: l) ++ y))).
  intros [->|H]; [left; reflexivity | right; exact (IH H)].
Qed.

Lemma in_inside_app_r {A} (z : A) (l y : list A) :
  In z (removelast (tail l)) -> In z (removelast (tail (l ++ y))).
Proof.
  destruct l as [|a l]; [intros []|].
  cbn [tail app]. apply in_removelast_app.
Qed.

Lemma in_inside_cons {A} (z a : A) (l : list A) :
  In z (removelast (tail l)) -> In z (removelast (tail (a :: l))).
Proof.
  cbn [tail]. destruct l as [|b l]; [intros []|].
  cbn [tail]. destruct l as [|c l]; [intros []|].
  intros H. change (In z (b :: removelast (c :: l))). right. exact H.
Qed.

Lemma in_inside_app_l {A} (z : A) (x l : list A) :
  In z (removelast (tail l)) -> In z (removelast (tail (x ++ l))).
Proof.
  induction x as [|a x IH]; [auto|].
  intros H. cbn [app]. apply in_inside_cons, IH, H.
Qed.

(** A text with no [@] inside has none inside any stretch of it. *)
Lemma no_at_inside_stretch (before middle after : string) :
  has_at_inside (before +:+ middle +:+ after) = false ->
  has_at_inside middle = false.
Proof.
  rewrite !has_at_inside_list, !list_append. unfold inside.
  intros H. apply not_true_is_false. intros Hm.
  apply existsb_exists in Hm as (z & Hin & Hz).
  assert (existsb is_at
    (removelast (tail (list_ascii_of_string before
       ++ list_ascii_of_string middle ++ list_ascii_of_string after))) = true)
    as Hall; [|congruence].
  apply existsb_exists. exists z. split; [|exact Hz].
  apply in_inside_app_l, in_inside_app_r, Hin.
Qed.

Lemma unless_email_nil : unless_email "" = "".
Proof. reflexivity. Qed.

(** After a run read to its end, the rest is read afresh. *)
Lemma drop_runs_app (in_run : ascii -> bool) (run word rest : string) :
  match rest with
  | EmptyString => True
  | String d _ => in_run d = false
  end ->
  drop_runs in_run run (word +:+ rest)
  = drop_runs in_run run word +:+ drop_runs in_run "" rest.
Proof.
  intros Hrest. revert run. induction word as [|c word IH]; intros run.
  - rewrite append_nil_l. cbn [drop_runs].
    destruct rest as [|d rest]; cbn [drop_runs].
    + rewrite unless_email_nil, append_nil_r. reflexivity.
    + rewrite Hrest, unless_email_nil, append_nil_l. reflexivity.
  - rewrite append_cons. cbn [drop_runs]. destruct (in_run c).
    + apply IH.
    + rewrite IH, append_assoc, append_cons. reflexivity.
Qed.

(** A word of address characters is one run. *)
Lemma drop_runs_address_word (run word : string) :
  forallb address_char (list_ascii_of_string word) = true ->
  drop_runs address_char run word = unless_email (run +:+ word).
Proof.
  revert run. induction word as [|c word IH]; intros run H.
  - rewrite append_nil_r. reflexivity.
  - cbn [list_ascii_of_string forallb] in H.
    apply andb_true_iff in H as [Hc H].
    cbn [drop_runs]. rewrite Hc, (IH _ H), append_snoc. reflexivity.
Qed.

(** A word with no [@] inside is kept as it is, whatever its runs. *)
Lemma drop_runs_plain_word (in_run : ascii -> bool) (before run word : string) :
  has_at_inside (before +:+ run +:+ word) = false ->
  drop_runs in_run run word = run +:+ word.
Proof.
  revert before run. induction word as [|c word IH]; intros before run H.
  - rewrite append_nil_r. cbn [drop_runs]. unfold unless_email.
    rewrite (no_at_inside_stretch before run "" H). reflexivity.
  - cbn [drop_runs]. destruct (in_run c).
    + rewrite (IH before); [apply append_snoc|].
      rewrite append_snoc. exact H.
    + unfold unless_email.
      rewrite (no_at_inside_stretch before run (String c word) H).
      rewrite (IH (before +:+ run +:+ String c "") "");
        [reflexivity|].
      rewrite append_nil_l, !append_assoc. exact H.
Qed.

Lemma drop_runs_word (word : string) :
  stands_alone word = true ->
  drop_runs address_char "" word = unless_email word.
Proof.
  unfold stands_alone. intros H.
  destruct (has_at_inside word) eqn:E.
  - cbn [implb] in H. rewrite (drop_runs_address_word "" word H).
    reflexivity.
  - rewrite (drop_runs_plain_word address_char "" "" word E).
    unfold unless_email. rewrite append_nil_l, E. reflexivity.
Qed.

(** Where every email stands alone, dropping the non-blank words with an
    [@] inside drops the email substrings and nothing else. *)
Lemma words_are_emails (word s : string) :
  forallb stands_alone (pieces_from blank word s) = true ->
  drop_runs nonblank word s = drop_runs address_char "" (word +:+ s).
Proof.
  revert word. induction s as [|c s IH]; intros word H.
  - cbn [pieces_from forallb] in H. rewrite andb_true_r in H.
    rewrite append_nil_r, (drop_runs_word word H). reflexivity.
  - cbn [pieces_from] in H. cbn [drop_runs]. unfold nonblank at 1.
    destruct (blank c) eqn:Hc; cbn [negb].
    + cbn [forallb] in H. apply andb_true_iff in H as [Hword H].
      rewrite (IH "" H), append_nil_l.
      rewrite (drop_runs_app address_char "" word (String c s));
        [|apply blank_not_address, Hc].
      rewrite (drop_runs_word word Hword).
      cbn [drop_runs]. rewrite (blank_not_address c Hc).
      rewrite unless_email_nil, append_nil_l. reflexivity.
    + rewrite (IH _ H), append_snoc. reflexivity.
Qed.

(** The scan of [sub_email_from], one non-blank run at a time. *)
Lemma span_nonspace_length (s run rest : string) :
  span_nonspace s = (run, rest) ->
  (String.length rest <= String.length s)%nat.
Proof.
  revert run rest. induction s as [|c s IH]; intros run rest H.
  - injection H as <- <-. reflexivity.
  - cbn [span_nonspace] in H. destruct (isspace c).
    + injection H as <- <-. reflexivity.
    + destruct (span_nonspace s) as [run' rest'] eqn:E.
      injection H as <- <-. cbn [String.length].
      specialize (IH run' rest' eq_refl). lia.
Qed.

Lemma drop_runs_span (word s run rest : string) :
  span_nonspace s = (run, rest) ->
  drop_runs nonblank word s
  = unless_email (word +:+ run) +:+ drop_runs nonblank "" rest.
Proof.
  revert word run rest. induction s as [|c s IH]; intros word run rest H.
  - injection H as <- <-. cbn [drop_runs].
    rewrite unless_email_nil, !append_nil_r. reflexivity.
  - cbn [span_nonspace] in H. cbn [drop_runs]. unfold nonblank at 1.
    rewrite <- blank_isspace. destruct (isspace c) eqn:Hc; cbn [negb].
    + injection H as <- <-. rewrite append_nil_r. cbn [drop_runs].
      unfold nonblank at 2. rewrite <- blank_isspace, Hc. cbn [negb].
      rewrite unless_email_nil, append_nil_l. reflexivity.
    + destruct (span_nonspace s) as [run' rest'] eqn:E.
      injection H as <- <-.
      rewrite (IH _ run' rest' eq_refl), append_snoc. reflexivity.
Qed.

Lemma sub_email_from_drop_runs (fuel : nat) (s : string) :
  (String.length s <= fuel)%nat ->
  sub_email_from fuel s = drop_runs nonblank "" s.
Proof.
  revert s. induction fuel as [|fuel IH]; intros s Hlen.
  - destruct s; [reflexivity | cbn [String.length] in Hlen; lia].
  - destruct s as [|c s]; [reflexivity|].
    cbn [String.length] in Hlen.
    cbn [sub_email_from]. unfold match_email. cbn [span_nonspace].
    cbn [drop_runs]. unfold nonblank at 1. rewrite <- blank_isspace.
    destruct (isspace c) eqn:Hc; cbn [negb].
    + rewrite unless_email_nil, append_nil_l, IH by lia. reflexivity.
    + destruct (span_nonspace s) as [run rest] eqn:E.
      rewrite append_nil_l.
      rewrite (drop_runs_span (String c "") s run rest E).
      change (String c "" +:+ run) with (String c run).
      unfold unless_email at 1. rewrite has_at_inside_cons.
      destruct (at_then_more run) eqn:Hat.
      * rewrite append_nil_l. apply IH.
        pose proof (span_nonspace_length s run rest E). lia.
      * rewrite IH by lia.
        rewrite (drop_runs_span "" s run rest E), append_nil_l.
        unfold unless_email.
        assert (has_at_inside run = false) as ->; [|reflexivity].
        apply (no_at_inside_stretch (String c "") run "").
        rewrite append_nil_r.
        change (String c "" +:+ run) with (String c run).
        rewrite has_at_inside_cons. exact Hat.
Qed.

Lemma sub_email_strip_emails (s : string) :
  emails_stand_alone s = true -> sub_email s = strip_emails s.
Proof.
  intros H. unfold sub_email, strip_emails.
  rewrite sub_email_from_drop_runs by reflexivity.
  rewrite (words_are_emails "" s H). reflexivity.
Qed.

(** *** The claim and the code *)

Lemma segments_of_code (affiliation : string) :
  emails_stand_alone affiliation = true ->
  map strip (split "," (sub_email affiliation)) = claimed_segments affiliation.
Proof.
  intros H. unfold claimed_segments.
  rewrite (sub_email_strip_emails affiliation H), split_pieces.
  apply map_ext, strip_trimmed.
Qed.

Lemma first_company_survivor (segments : list string) :
  first_company segments
  = List.find (longer_than 3) (List.filter survives segments).
Proof.
  rewrite first_company_find, find_filter.
  apply find_same. intros segment.
  rewrite discarded_survives, (len_longer 3). reflexivity.
Qed.

Lemma first_substantial_longer (segments : list string) :
  first_substantial segments = List.find (longer_than 5) segments.
Proof.
  rewrite first_substantial_find. apply find_same. intros segment.
  apply (len_longer 5).
Qed.

(** The claim, for every affiliation string. *)
Definition company_as_claimed : Prop :=
  forall affiliation : string,
    extract_company_from_affiliation affiliation = claimed_company affiliation.

(** C9 fails as stated, in two ways. The pattern that removes an email
    takes the whole non-blank word, so the company name written after an
    email with only a comma between them is lost with it. And a segment of
    exactly three characters survives the discards without being returned,
    yet the fallback to the first segment longer than 5 still applies. *)
Lemma email_word_and_short_survivor :
  ~ company_as_claimed /\
  (extract_company_from_affiliation "jane@acme.org,Acme Inc" = "Unknown" /\
   claimed_company "jane@acme.org,Acme Inc" = "Acme Inc") /\
  (List.filter survives (claimed_segments "IBM, University of Basel") = ["IBM"] /\
   extract_company_from_affiliation "IBM, University of Basel"
   = "University of Basel" /\
   claimed_company "IBM, University of Basel" = "Unknown").
Proof.
  split; [|repeat split; vm_compute; reflexivity].
  intros H. specialize (H "jane@acme.org,Acme Inc").
  vm_compute in H. discriminate H.
Qed.

(** C9, as the code has it. On ASCII text in which each email address
    stands as a word of its own, [extract_company_from_affiliation] takes
    the text without its email substrings, splits it on commas and trims
    the segments; it discards the segments that hold an institutional
    keyword in any letter case, start with a digit or are shorter than 3
    characters, and returns the first surviving segment longer than 3
    characters; when no surviving segment is that long it returns the first
    segment longer than 5 characters, and ["Unknown"] when there is none. *)
Theorem extract_company_as_amended (affiliation : string) :
  is_ascii affiliation = true ->
  emails_stand_alone affiliation = true ->
  extract_company_from_affiliation affiliation = amended_company affiliation.
Proof.
  intros _ Hemails.
  unfold extract_company_from_affiliation, amended_company.
  destruct (String.eqb_spec affiliation "") as [->|_]; [reflexivity|].
  cbv zeta. rewrite (segments_of_code affiliation Hemails).
  rewrite first_company_survivor, first_substantial_longer. reflexivity.
Qed.

Lemma extract_company_as_amended_witness :
  extract_company_from_affiliation
    "Department of Biology, Acme Corp, Boston. jane@acme.org"
  = amended_company "Department of Biology, Acme Corp, Boston. jane@acme.org".
Proof.
  apply (extract_company_as_amended
           "Department of Biology, Acme Corp, Boston. jane@acme.org");
    vm_compute; reflexivity.
Defined.

End CompanyClaim.
(** ** Properties of the deduplicator *)

Module DedupFacts.
Import DataProcessing PyFacts.

Ltac bind_inv H x Hx :=
  apply bind_Ok in H; destruct H as (x & Hx & H).

Section WithSimilarity.

Variable ratio : string -> string -> Z.
Variable token_set_ratio : string -> string -> Z.

(** The match test of the deduplicator at its fixed threshold. *)
Definition same (lead1 lead2 : lead) : bool :=
  _is_same_person ratio token_set_ratio lead1 lead2 SIMILARITY_THRESHOLD.

(** The indices the inner loop adds when it scans [later], whose first
    element has index [j], for the seed [lead1]: those not yet consumed
    whose record matches the seed. *)
Definition joins (lead1 : lead) (later : list lead) (j : nat)
    (seen : gset nat) (x : nat) : Prop :=
  exists (k : nat) (lead2 : lead),
    later !! k = Some lead2 /\ x = (j + k)%nat /\ (x ∉ seen) /\
    same lead1 lead2 = true.

Lemma joins_cons_skip lead1 lead2 rest j seen x :
  (j ∈ seen \/ same lead1 lead2 = false) ->
  joins lead1 (lead2 :: rest) j seen x <-> joins lead1 rest (S j) seen x.
Proof.
  intros Hskip. split.
  - intros (k & l & Hk & -> & Hx & Hs). destruct k as [|k].
    + simpl in Hk. injection Hk as <-. rewrite Nat.add_0_r in Hx.
      destruct Hskip as [?|Hf]; [contradiction | congruence].
    + exists k, l. simpl in Hk.
      replace (S j + k)%nat with (j + S k)%nat by lia. auto.
  - intros (k & l & Hk & -> & Hx & Hs). exists (S k), l.
    replace (j + S k)%nat with (S j + k)%nat by lia. auto.
Qed.

Lemma joins_cons_take lead1 lead2 rest j seen x :
  j ∉ seen -> same lead1 lead2 = true ->
  joins lead1 (lead2 :: rest) j seen x
  <-> x = j \/ joins lead1 rest (S j) ({[j]} ∪ seen) x.
Proof.
  intros Hj Hsame. split.
  - intros (k & l & Hk & -> & Hx & Hs). destruct k as [|k].
    + left. lia.
    + right. exists k, l. simpl in Hk.
      replace (S j + k)%nat with (j + S k)%nat by lia.
      split; [assumption|]. split; [reflexivity|]. split; [|assumption].
      intros [Hin|Hin]%elem_of_union; [|contradiction].
      apply elem_of_singleton in Hin. lia.
  - intros [->|(k & l & Hk & -> & Hx & Hs)].
    + exists 0%nat, lead2. rewrite Nat.add_0_r. auto.
    + exists (S k), l.
      replace (j + S k)%nat with (S j + k)%nat by lia.
      split; [assumption|]. split; [reflexivity|]. split; [|assumption].
      intros Hin. apply Hx. apply elem_of_union. right. assumption.
Qed.

(** What the inner loop leaves: the indices it appended are those that
    join, they are exactly what it added to [seen_indices], and without a
    match the merged lead is untouched. *)
Lemma scan_later_spec lead1 later :
  forall j seen matching merged seen' matching' merged',
  scan_later ratio token_set_ratio lead1 later j (seen, matching, merged)
  = Ok (seen', matching', merged') ->
  exists extra,
    matching' = matching ++ extra /\
    (forall x, x ∈ extra <-> joins lead1 later j seen x) /\
    (forall x, x ∈ seen' <-> x ∈ seen \/ x ∈ extra) /\
    (extra = [] -> merged' = merged).
Proof.
  induction later as [|lead2 rest IH];
    intros j seen matching merged seen' matching' merged' H.
  - simpl in H. injection H as <- <- <-. exists [].
    rewrite app_nil_r. repeat split; try tauto.
    + intros Hx. inversion Hx.
    + intros (k & l & Hk & _). discriminate.
    + intros [?|Hx]; [assumption | inversion Hx].
  - cbn [scan_later] in H. case_bool_decide as Hj.
    + apply IH in H as (extra & -> & Hext & Hseen & Hm).
      exists extra. repeat split; try assumption; try apply Hseen.
      * intros Hx. apply joins_cons_skip; [auto|]. apply Hext; assumption.
      * intros Hx. apply Hext. eapply joins_cons_skip; [|exact Hx]. auto.
    + fold (same lead1 lead2) in H. destruct (same lead1 lead2) eqn:Hsame.
      * bind_inv H merged1 Hmerge.
        apply IH in H as (extra & -> & Hext & Hseen & Hm).
        exists (j :: extra). rewrite <- app_assoc. repeat split.
        -- intros Hx. apply joins_cons_take; [assumption..|].
           apply elem_of_cons in Hx as [->|Hx]; [auto|].
           right. apply Hext; assumption.
        -- intros Hx. apply joins_cons_take in Hx; [|assumption..].
           apply elem_of_cons. destruct Hx as [->|Hx]; [auto|].
           right. apply Hext; assumption.
        -- intros Hx. apply Hseen in Hx as [Hx|Hx].
           ++ apply elem_of_union in Hx as [Hx|Hx]; [|auto].
              apply elem_of_singleton in Hx as ->. right. constructor.
           ++ right. apply elem_of_cons. auto.
        -- intros [Hx|Hx]; apply Hseen.
           ++ left. apply elem_of_union. auto.
           ++ apply elem_of_cons in Hx as [->|Hx]; [|auto].
              left. apply elem_of_union. left. apply elem_of_singleton.
              reflexivity.
        -- discriminate.
      * apply IH in H as (extra & -> & Hext & Hseen & Hm).
        exists extra. repeat split; try assumption; try apply Hseen.
        -- intros Hx. apply joins_cons_skip; [auto|]. apply Hext; assumption.
        -- intros Hx. apply Hext. eapply joins_cons_skip; [|exact Hx]. auto.
Qed.

(** A property of the accumulating lead that every merge keeps. *)
Definition merge_stable (P : lead -> Prop) : Prop :=
  forall merged lead2 merged',
    P merged -> _merge_lead_data merged lead2 = Ok merged' -> P merged'.

Lemma scan_later_preserves (P : lead -> Prop) lead1 later :
  merge_stable P ->
  forall j seen matching merged seen' matching' merged',
  scan_later ratio token_set_ratio lead1 later j (seen, matching, merged)
  = Ok (seen', matching', merged') ->
  P merged -> P merged'.
Proof.
  intros HP. induction later as [|lead2 rest IH];
    intros j seen matching merged seen' matching' merged' H Hm.
  - simpl in H. injection H as <- <- <-. exact Hm.
  - cbn [scan_later] in H. case_bool_decide.
    + eapply IH; eassumption.
    + destruct (_is_same_person _ _ _ _ _).
      * bind_inv H merged1 Hmerge. eapply IH; [exact H|].
        eapply HP; eassumption.
      * eapply IH; eassumption.
Qed.

(** What holds of a cluster, given the clusters formed before it: it starts
    with its seed, which no earlier cluster holds; the other members are the
    later records that match the seed and that no earlier cluster holds;
    without other members the merged lead is the seed itself. *)
Definition cluster_ok (leads : list lead) (earlier : list (list nat * lead))
    (c : list nat * lead) : Prop :=
  exists (i : nat) (lead1 : lead) (extra : list nat),
    leads !! i = Some lead1 /\
    fst c = i :: extra /\
    (forall c', c' ∈ earlier -> i ∉ fst c') /\
    (forall j, j ∈ extra <->
       (i < j)%nat /\
       exists lead2, leads !! j = Some lead2 /\ same lead1 lead2 = true /\
                     forall c', c' ∈ earlier -> j ∉ fst c') /\
    (extra = [] -> snd c = lead1) /\
    (forall P, merge_stable P -> P lead1 -> P (snd c)).

(** The outer loop, started after the records of [prefix] with everything
    before consumed: it appends clusters that are all [cluster_ok], and in
    the end every record is in a cluster. *)
Lemma scan_seeds_spec (leads : list lead) remaining :
  forall prefix seen processed clusters,
  leads = prefix ++ remaining ->
  (forall x, x ∈ seen <-> exists c, c ∈ processed /\ x ∈ fst c) ->
  (forall x, (x < length prefix)%nat -> x ∈ seen) ->
  scan_seeds ratio token_set_ratio remaining (length prefix) seen processed
  = Ok clusters ->
  exists new,
    clusters = processed ++ new /\
    (forall k c, new !! k = Some c ->
                 cluster_ok leads (processed ++ take k new) c) /\
    (forall x, (x < length leads)%nat -> exists c, c ∈ clusters /\ x ∈ fst c).
Proof.
  induction remaining as [|lead1 later IH];
    intros prefix seen processed clusters Hleads Hseen Hcov H.
  - simpl in H. injection H as <-. exists []. rewrite app_nil_r.
    split; [reflexivity|]. split; [intros k c Hk; discriminate|].
    intros x Hx. apply Hseen, Hcov.
    rewrite Hleads, app_nil_r in Hx. exact Hx.
  - assert (Hleads' : leads = (prefix ++ [lead1]) ++ later)
      by (rewrite <- app_assoc; exact Hleads).
    assert (Hlen : length (prefix ++ [lead1]) = S (length prefix))
      by (rewrite length_app; simpl; lia).
    cbn [scan_seeds] in H. case_bool_decide as Hi.
    + rewrite <- Hlen in H. apply IH in H; [exact H|exact Hleads'|exact Hseen|].
      intros x Hx. rewrite Hlen in Hx.
      destruct (decide (x = length prefix)) as [->|]; [assumption|].
      apply Hcov. lia.
    + bind_inv H st Hscan. destruct st as [[seen' mt] merged].
      assert (Hstable : forall P, merge_stable P -> P lead1 -> P merged).
      { intros P HP. eapply scan_later_preserves; eassumption. }
      apply scan_later_spec in Hscan as (extra & -> & Hext & Hseen' & Hm).
      rewrite <- Hlen in H. apply IH in H; [|exact Hleads'| |].
      * destruct H as (new & -> & Hok & Hall).
        exists (([length prefix] ++ extra, merged) :: new).
        split; [rewrite <- app_assoc; reflexivity|].
        split; [|exact Hall].
        intros [|k] c Hk.
        -- simpl in Hk. injection Hk as <-. rewrite take_0, app_nil_r.
           exists (length prefix), lead1, extra.
           split; [rewrite Hleads; apply list_lookup_middle; reflexivity|].
           split; [reflexivity|].
           split; [intros c' Hc' Hin; apply Hi, Hseen; eauto|].
           split; [|split; [exact Hm|exact Hstable]].
           intros j. rewrite Hext. split.
           ++ intros (k & lead2 & Hk & -> & Hj & Hs).
              split; [lia|]. exists lead2.
              split; [|split; [exact Hs|]].
              ** rewrite Hleads', lookup_app_r by lia.
                 rewrite Hlen. rewrite <- Hk. f_equal. lia.
              ** intros c' Hc' Hin. apply Hj, Hseen. eauto.
           ++ intros (Hlt & lead2 & Hj & Hs & Hfree).
              exists (j - S (length prefix))%nat, lead2.
              split; [|split; [lia|split; [|exact Hs]]].
              ** rewrite Hleads', lookup_app_r in Hj by lia.
                 rewrite Hlen in Hj. exact Hj.
              ** intros (c' & Hc' & Hin)%Hseen. exact (Hfree c' Hc' Hin).
        -- simpl in Hk. apply Hok in Hk.
           cbn [take]. rewrite <- app_assoc in Hk. exact Hk.
      * intros x. rewrite elem_of_union, elem_of_singleton, Hseen', Hseen.
        split.
        -- intros [->|[(c & Hc & Hx)|Hx]].
           ++ eexists. split; [apply elem_of_app; right; constructor|].
              simpl. constructor.
           ++ exists c. split; [apply elem_of_app; left; exact Hc|exact Hx].
           ++ eexists. split; [apply elem_of_app; right; constructor|].
              simpl. apply elem_of_cons. right. exact Hx.
        -- intros (c & [Hc|Hc]%elem_of_app & Hx).
           ++ right. left. eauto.
           ++ apply list_elem_of_singleton in Hc as ->. simpl in Hx.
              apply elem_of_cons in Hx as [->|Hx]; auto.
      * intros x Hx. rewrite Hlen in Hx.
        apply elem_of_union.
        destruct (decide (x = length prefix)) as [->|].
        -- left. apply elem_of_singleton. reflexivity.
        -- right. apply Hseen'. left. apply Hcov. lia.
Qed.

(** The match test spelled out: both names non-empty, the better of the two
    name similarities at least 85, and the companies compatible. *)
Lemma same_spec (lead1 lead2 : lead) :
  let name1 := normalized lead1 "name" in
  let name2 := normalized lead2 "name" in
  let company1 := normalized lead1 "company" in
  let company2 := normalized lead2 "company" in
  same lead1 lead2 = true <->
  name1 <> "" /\ name2 <> "" /\
  85 <= Z.max (ratio name1 name2) (token_set_ratio name1 name2) /\
  (company1 <> "" -> company2 <> "" ->
   80 <= ratio company1 company2 \/ company1 = company2).
Proof.
  cbv zeta. unfold same, _is_same_person, nonempty, SIMILARITY_THRESHOLD.
  destruct (String.eqb_spec (normalized lead1 "name") "") as [E1|E1];
    cbn [negb orb]; [split; [discriminate | tauto]|].
  destruct (String.eqb_spec (normalized lead2 "name") "") as [E2|E2];
    cbn [negb orb]; [split; [discriminate | tauto]|].
  rewrite andb_true_iff, Z.leb_le.
  destruct (String.eqb_spec (normalized lead1 "company") "") as [C1|C1];
    cbn [negb andb]; [tauto|].
  destruct (String.eqb_spec (normalized lead2 "company") "") as [C2|C2];
    cbn [negb andb]; [tauto|].
  rewrite orb_true_iff, Z.leb_le, String.eqb_eq. tauto.
Qed.

(** A record whose name is empty once trimmed matches nothing. *)
Lemma same_empty_name (lead other : lead) :
  normalized lead "name" = "" ->
  same lead other = false /\ same other lead = false.
Proof.
  intros Hn. unfold same, _is_same_person. rewrite Hn. cbn [nonempty String.eqb negb orb].
  split; [reflexivity|]. rewrite orb_true_r. reflexivity.
Qed.

Lemma deduplicate_clusters_spec (leads : list lead) clusters :
  deduplicate_clusters ratio token_set_ratio leads = Ok clusters ->
  (forall k c, clusters !! k = Some c ->
               cluster_ok leads (take k clusters) c) /\
  (forall x, (x < length leads)%nat -> exists c, c ∈ clusters /\ x ∈ fst c).
Proof.
  intros H. destruct leads as [|l0 rest].
  - injection H as <-. split; [intros k c Hk; discriminate|].
    simpl. intros x Hx. lia.
  - unfold deduplicate_clusters in H.
    apply (scan_seeds_spec (l0 :: rest) (l0 :: rest) [] ∅ []) in H.
    + destruct H as (new & -> & Hok & Hall). simpl. split; assumption.
    + reflexivity.
    + intros x. split; [intros Hx; set_solver|].
      intros (c & Hc & _). inversion Hc.
    + simpl. intros x Hx. lia.
Qed.

End WithSimilarity.

(** C6. When [deduplicate_leads] returns, every cluster starts with its
    seed, and a later record that no earlier cluster has consumed is in the
    cluster exactly when it matches the original seed record (never the
    accumulating merged lead); a member other than the seed therefore always
    matches the seed. The match test is: both trimmed lower-cased names
    non-empty, the larger of the two name similarities at least 85, and the
    companies, when both non-empty, at least 80 similar or equal. A record
    whose name is empty matches nothing and is emitted unmerged as a
    singleton cluster. *)
Theorem clusters_decided_by_seed (ratio token_set_ratio : string -> string -> Z)
    (leads : list lead) (clusters : list (list nat * lead)) :
  deduplicate_clusters ratio token_set_ratio leads = Ok clusters ->
  (forall k mt merged, clusters !! k = Some (mt, merged) ->
     exists i lead1,
       leads !! i = Some lead1 /\ head mt = Some i /\
       forall j lead2, leads !! j = Some lead2 -> (i < j)%nat ->
         (j ∈ mt <->
          same ratio token_set_ratio lead1 lead2 = true /\
          forall k' mt' merged', (k' < k)%nat ->
            clusters !! k' = Some (mt', merged') -> j ∉ mt')) /\
  (forall lead1 lead2,
     same ratio token_set_ratio lead1 lead2 = true <->
     normalized lead1 "name" <> "" /\ normalized lead2 "name" <> "" /\
     85 <= Z.max (ratio (normalized lead1 "name") (normalized lead2 "name"))
             (token_set_ratio (normalized lead1 "name")
                (normalized lead2 "name")) /\
     (normalized lead1 "company" <> "" -> normalized lead2 "company" <> "" ->
      80 <= ratio (normalized lead1 "company") (normalized lead2 "company")
      \/ normalized lead1 "company" = normalized lead2 "company")) /\
  (forall i lead, leads !! i = Some lead -> normalized lead "name" = "" ->
     (forall other, same ratio token_set_ratio lead other = false /\
                    same ratio token_set_ratio other lead = false) /\
     ([i], lead) ∈ clusters).
Proof.
  intros H. apply deduplicate_clusters_spec in H as [Hok Hall].
  split; [|split].
  - intros k mt merged Hk.
    destruct (Hok k _ Hk) as (i & lead1 & extra & Hi & Hmt & _ & Hext & _).
    simpl in Hmt. subst mt. exists i, lead1.
    split; [exact Hi|]. split; [reflexivity|].
    intros j lead2 Hj Hlt. rewrite elem_of_cons, Hext. split.
    + intros [->|(_ & l2 & Hj' & Hs & Hfree)]; [lia|].
      rewrite Hj in Hj'. injection Hj' as <-. split; [exact Hs|].
      intros k' mt' merged' Hk' Hc Hin.
      apply (Hfree (mt', merged')); [|exact Hin].
      apply elem_of_take. eauto.
    + intros [Hs Hfree]. right. split; [exact Hlt|].
      exists lead2. split; [exact Hj|]. split; [exact Hs|].
      intros [mt' merged'] (k' & Hc & Hk')%elem_of_take Hin.
      exact (Hfree k' mt' merged' Hk' Hc Hin).
  - intros lead1 lead2. apply same_spec.
  - intros x lead Hx Hn.
    split; [intros other; apply same_empty_name; exact Hn|].
    destruct (Hall x) as (c & Hc & Hin); [eapply lookup_lt_Some; exact Hx|].
    apply list_elem_of_lookup in Hc as [k Hk].
    destruct (Hok k _ Hk) as (i & lead1 & extra & Hi & Hmt & _ & Hext & Hm & _).
    destruct c as [mt merged]. simpl in *. subst mt.
    assert (Hseed : x = i).
    { apply elem_of_cons in Hin as [?|Hin]; [assumption|].
      apply Hext in Hin as (_ & l2 & Hl2 & Hs & _).
      rewrite Hx in Hl2. injection Hl2 as <-.
      destruct (same_empty_name ratio token_set_ratio lead lead1 Hn) as [_ Hf].
      congruence. }
    subst i. rewrite Hx in Hi. injection Hi as <-.
    assert (Hnil : extra = []).
    { destruct extra as [|j extra']; [reflexivity|]. exfalso.
      destruct (proj1 (Hext j)) as (_ & l2 & _ & Hs & _); [constructor|].
      destruct (same_empty_name ratio token_set_ratio lead l2 Hn) as [Hf _].
      congruence. }
    subst extra. rewrite (Hm eq_refl) in Hk.
    eapply list_elem_of_lookup_2. exact Hk.
Qed.


End DedupFacts.

(** ** The deduplicator on text-only records *)

Module DedupTotal.
Import DataProcessing PyFacts DedupFacts.

Definition is_str (v : value) : Prop := exists s, v = VStr s.

(** Every field of the record holds a string. *)
Definition string_valued (l : lead) : Prop :=
  map_Forall (fun _ v => is_str v) l.

Lemma get_is_str (l : lead) k :
  string_valued l -> is_str (get l k (VStr "")).
Proof.
  intros Hl. unfold get. destruct (l !! k) as [v|] eqn:E; simpl.
  - exact (Hl k v E).
  - eexists; reflexivity.
Qed.

Lemma insert_string_valued (l : lead) k v :
  is_str v -> string_valued l -> string_valued (<[k := v]> l).
Proof. intros Hv Hl. apply map_Forall_insert_2; assumption. Qed.

Lemma merge_joined_strings a b :
  exists r, merge_joined (VStr a) (VStr b) = Ok r /\
            (r = None \/ exists v, r = Some v /\ is_str v).
Proof.
  unfold merge_joined.
  destruct (truthy (VStr a) && truthy (VStr b) && negb (value_eqb (VStr a) (VStr b))).
  - cbn [existsb orb]. destruct (negb (value_eqb (VStr b) (VStr a) || false));
      eexists; (split; [reflexivity|]); right; eexists; split;
      try reflexivity; eexists; reflexivity.
  - destruct (negb (truthy (VStr a)) && truthy (VStr b)).
    + eexists. split; [reflexivity|]. right. eexists. split; [reflexivity|].
      eexists; reflexivity.
    + eexists. split; [reflexivity|]. left. reflexivity.
Qed.

Lemma assign_string_valued k r (l : lead) :
  (r = None \/ exists v, r = Some v /\ is_str v) ->
  string_valued l -> string_valued (assign k r l).
Proof.
  intros [->|(v & -> & Hv)] Hl; simpl; [exact Hl|].
  apply insert_string_valued; assumption.
Qed.

(** On text-only records no block of the merge raises, and the result is
    text-only again. *)
Lemma merge_strings_ok (lead1 lead2 : lead) :
  string_valued lead1 -> string_valued lead2 ->
  exists merged, _merge_lead_data lead1 lead2 = Ok merged /\
                 string_valued merged.
Proof.
  intros H1 H2. unfold _merge_lead_data.
  (* publication title *)
  unfold merge_publication_title at 1.
  destruct (get_is_str lead1 "publication_title" H1) as [a ->].
  destruct (get_is_str lead2 "publication_title" H2) as [b ->].
  destruct (merge_joined_strings a b) as (r & -> & Hr).
  cbn [mbind result_bind].
  pose proof (assign_string_valued "publication_title" r lead1 Hr H1) as Hm1.
  set (m1 := assign "publication_title" r lead1) in *. clearbody m1.
  (* email *)
  assert (Hm2 : string_valued (merge_email m1 lead2)).
  { unfold merge_email.
    repeat match goal with |- context [if ?c then _ else _] => destruct c end;
      try exact Hm1;
      (apply insert_string_valued;
       [first [apply get_is_str; assumption | eexists; reflexivity]
       |assumption]). }
  set (m2 := merge_email m1 lead2) in *. clearbody m2.
  (* location *)
  assert (Hm3 : string_valued (merge_location m2 lead2)).
  { unfold merge_location. destruct (_ && _); [|exact Hm2].
    apply insert_string_valued; [apply get_is_str|]; assumption. }
  set (m3 := merge_location m2 lead2) in *. clearbody m3.
  (* company *)
  assert (Hm4 : string_valued (merge_company m3 lead2)).
  { unfold merge_company. destruct (_ && _); [|exact Hm3].
    apply insert_string_valued; [apply get_is_str|]; assumption. }
  set (m4 := merge_company m3 lead2) in *. clearbody m4.
  (* author position *)
  assert (Hm5 : string_valued (merge_author_position m4 lead2)).
  { unfold merge_author_position. destruct (_ <? _); [|exact Hm4].
    apply insert_string_valued; [apply get_is_str|]; assumption. }
  set (m5 := merge_author_position m4 lead2) in *. clearbody m5.
  (* PubMed id *)
  assert (Hm6 : string_valued (merge_pubmed_id m5 lead2)).
  { unfold merge_pubmed_id.
    repeat match goal with |- context [if ?c then _ else _] => destruct c end;
      try exact Hm5;
      (apply insert_string_valued;
       [first [apply get_is_str; assumption | eexists; reflexivity]
       |assumption]). }
  set (m6 := merge_pubmed_id m5 lead2) in *. clearbody m6.
  (* journal *)
  unfold merge_publication_journal at 1.
  destruct (get_is_str m6 "publication_journal" Hm6) as [c ->].
  destruct (get_is_str lead2 "publication_journal" H2) as [d ->].
  destruct (merge_joined_strings c d) as (r' & -> & Hr').
  cbn [mbind result_bind].
  pose proof (assign_string_valued "publication_journal" r' m6 Hr' Hm6) as Hm7.
  set (m7 := assign "publication_journal" r' m6) in *. clearbody m7.
  (* date *)
  unfold merge_publication_date.
  destruct (get_is_str m7 "publication_date" Hm7) as [e He].
  destruct (get_is_str lead2 "publication_date" H2) as [f Hf].
  rewrite He. rewrite Hf in *. unfold value_gt.
  destruct (truthy (VStr f)); [destruct (negb (truthy (VStr e)))|];
    cbn [mbind result_bind]; eexists; (split; [reflexivity|]);
    try exact Hm7;
    try match goal with |- context [if ?c then _ else _] => destruct c end;
    try exact Hm7;
    (apply insert_string_valued; [eexists; reflexivity | assumption]).
Qed.

Section WithSimilarity.

Variable ratio : string -> string -> Z.
Variable token_set_ratio : string -> string -> Z.

Lemma scan_later_total lead1 later :
  Forall string_valued later ->
  forall j seen matching merged,
  string_valued merged ->
  exists st, scan_later ratio token_set_ratio lead1 later j
               (seen, matching, merged) = Ok st.
Proof.
  induction 1 as [|lead2 rest H2 _ IH]; intros j seen matching merged Hm.
  - eexists; reflexivity.
  - cbn [scan_later]. case_bool_decide; [apply IH; exact Hm|].
    destruct (_is_same_person _ _ _ _ _); [|apply IH; exact Hm].
    destruct (merge_strings_ok merged lead2 Hm H2) as (m' & -> & Hm').
    cbn [mbind result_bind]. apply IH; exact Hm'.
Qed.

Lemma scan_seeds_total remaining :
  Forall string_valued remaining ->
  forall i seen processed,
  exists clusters, scan_seeds ratio token_set_ratio remaining i seen processed
                   = Ok clusters.
Proof.
  induction 1 as [|lead1 later H1 Hlater IH]; intros i seen processed.
  - eexists; reflexivity.
  - cbn [scan_seeds]. case_bool_decide; [apply IH|].
    destruct (scan_later_total lead1 later Hlater (S i) seen [i] lead1 H1)
      as ([[seen' mt] merged] & ->).
    cbn [mbind result_bind]. apply IH.
Qed.

(** A batch of text-only records is always deduplicated: no merge raises. *)
Lemma deduplicate_clusters_total (leads : list lead) :
  Forall string_valued leads ->
  exists clusters, deduplicate_clusters ratio token_set_ratio leads
                   = Ok clusters.
Proof.
  intros H. unfold deduplicate_clusters. destruct leads.
  - eexists; reflexivity.
  - apply scan_seeds_total; exact H.
Qed.

End WithSimilarity.

End DedupTotal.

(** ** The merge policy and the clustering rule on examples *)

Module DedupExamples.
Import DataProcessing PyFacts MergeFacts DedupFacts.

(** Scores of the fuzzywuzzy package on the names used below, as
    [(ratio, token_set_ratio)]: ["john"] and ["smith"] share one letter,
    and each is a token of ["john smith"], which makes the token-set score
    100. *)
Definition sample_scores : list (string * string * (Z * Z)) :=
  [("john", "john smith", (57, 100));
   ("smith", "john smith", (67, 100));
   ("john", "smith", (22, 22))].

Definition sample_score (a b : string) : Z * Z :=
  if String.eqb a b then (100, 100)
  else
    match List.find (fun e => (String.eqb (fst (fst e)) a && String.eqb (snd (fst e)) b)
                              || (String.eqb (fst (fst e)) b && String.eqb (snd (fst e)) a))
            sample_scores with
    | Some e => snd e
    | None => (0, 0)
    end.

Definition sample_ratio (a b : string) : Z := fst (sample_score a b).
Definition sample_token_set_ratio (a b : string) : Z := snd (sample_score a b).

Definition named (name : string) : lead := {["name" := VStr name]}.

(** Three records: the third matches each of the first two, which do not
    match each other. *)
Definition three_names : list lead :=
  [named "John"; named "Smith"; named "John Smith"].

Example three_names_clusters :
  deduplicate_clusters sample_ratio sample_token_set_ratio three_names
  = Ok [([0%nat; 2%nat], named "John"); ([1%nat], named "Smith")].
Proof. vm_compute. reflexivity. Qed.

(** The clustering rule read without the proviso on consumed records: a
    later record is in a cluster exactly when it matches the seed. *)
Definition joins_iff_matches_seed (ratio token_set_ratio : string -> string -> Z)
    (leads : list lead) : Prop :=
  forall clusters,
    deduplicate_clusters ratio token_set_ratio leads = Ok clusters ->
    forall mt merged i lead1 j lead2,
      (mt, merged) ∈ clusters -> head mt = Some i ->
      leads !! i = Some lead1 -> leads !! j = Some lead2 -> (i < j)%nat ->
      (j ∈ mt <-> same ratio token_set_ratio lead1 lead2 = true).

(** "John Smith" matches the seed "Smith" of the second cluster and is
    not in it: the first cluster has consumed it. *)
Lemma consumed_record_matches_later_seed :
  ~ joins_iff_matches_seed sample_ratio sample_token_set_ratio three_names.
Proof.
  intros H.
  specialize (H _ three_names_clusters [1%nat] (named "Smith") 1%nat
                (named "Smith") 2%nat (named "John Smith")).
  assert (Hin : 2%nat ∈ [1%nat]).
  { apply H; try reflexivity; try lia.
    apply elem_of_cons. right. constructor. }
  apply list_elem_of_singleton in Hin. discriminate.
Qed.

Lemma clusters_decided_by_seed_witness :
  deduplicate_clusters sample_ratio sample_token_set_ratio three_names
  = Ok [([0%nat; 2%nat], named "John"); ([1%nat], named "Smith")] /\
  exists i lead1,
    three_names !! i = Some lead1 /\ head [0%nat; 2%nat] = Some i /\
    forall j lead2, three_names !! j = Some lead2 -> (i < j)%nat ->
      (j ∈ [0%nat; 2%nat] <->
       same sample_ratio sample_token_set_ratio lead1 lead2 = true /\
       forall k' mt' merged', (k' < 0)%nat ->
         [([0%nat; 2%nat], named "John"); ([1%nat], named "Smith")] !! k'
         = Some (mt', merged') -> j ∉ mt').
Proof.
  assert (E : deduplicate_clusters sample_ratio sample_token_set_ratio three_names
              = Ok [([0%nat; 2%nat], named "John"); ([1%nat], named "Smith")])
    by (vm_compute; reflexivity).
  split; [exact E|].
  exact (proj1 (clusters_decided_by_seed _ _ _ _ E) 0%nat _ _ eq_refl).
Defined.

(** Keeping the seed's location is stable under further merges. *)
Lemma location_kept_stable (seed : lead) :
  truthy (get seed "location" (VStr "")) = true ->
  merge_stable (fun merged => merged !! "location" = seed !! "location").
Proof.
  intros Hloc merged lead2 merged' Hm Hmerge.
  rewrite <- Hm. eapply merge_keeps_location; [|exact Hmerge].
  rewrite (get_lookup_eq _ _ _ _ Hm). exact Hloc.
Qed.

(** C5. The merge policy: two different emails are joined with ["; "]; a
    company ["Unknown"] gives way to a known one; the author position of
    the merge is the second lead's exactly when it outranks the first's
    under Corresponding Author (4) > First Author (3) > Last Author (2) >
    Co-Author (1), every other value ranking 0; and a location that the
    first lead has is kept by a merge, and so by the whole cluster built on
    a seed. *)
Theorem merge_field_policy :
  _merge_lead_data {["email" := VStr "a@x.com"]} {["email" := VStr "b@x.com"]}
  = Ok {["email" := VStr "a@x.com; b@x.com"]} /\
  _merge_lead_data {["company" := VStr "Unknown"]} {["company" := VStr "Acme"]}
  = Ok {["company" := VStr "Acme"]} /\
  _merge_lead_data {["author_position" := VStr "Co-Author"]}
    {["author_position" := VStr "Corresponding Author"]}
  = Ok {["author_position" := VStr "Corresponding Author"]} /\
  (position_priority (VStr "Corresponding Author") = 4 /\
   position_priority (VStr "First Author") = 3 /\
   position_priority (VStr "Last Author") = 2 /\
   position_priority (VStr "Co-Author") = 1 /\
   forall pos,
     pos <> VStr "Corresponding Author" -> pos <> VStr "First Author" ->
     pos <> VStr "Last Author" -> pos <> VStr "Co-Author" ->
     position_priority pos = 0) /\
  (forall lead1 lead2 merged,
     _merge_lead_data lead1 lead2 = Ok merged ->
     merged !! "author_position"
     = if position_priority (get lead1 "author_position" (VStr ""))
          <? position_priority (get lead2 "author_position" (VStr ""))
       then Some (get lead2 "author_position" (VStr ""))
       else lead1 !! "author_position") /\
  (forall lead1 lead2 merged,
     truthy (get lead1 "location" (VStr "")) = true ->
     _merge_lead_data lead1 lead2 = Ok merged ->
     merged !! "location" = lead1 !! "location") /\
  (forall ratio token_set_ratio leads clusters mt merged,
     deduplicate_clusters ratio token_set_ratio leads = Ok clusters ->
     (mt, merged) ∈ clusters ->
     exists i seed,
       head mt = Some i /\ leads !! i = Some seed /\
       (truthy (get seed "location" (VStr "")) = true ->
        merged !! "location" = seed !! "location")).
Proof.
  split; [vm_compute; reflexivity|].
  split; [vm_compute; reflexivity|].
  split; [vm_compute; reflexivity|].
  split.
  { repeat (split; [reflexivity|]). apply position_priority_unranked. }
  split; [intros lead1 lead2 merged H; exact (merge_author_position_rule _ _ _ H)|].
  split; [intros lead1 lead2 merged Hloc H; exact (merge_keeps_location _ _ _ Hloc H)|].
  intros ratio token_set_ratio leads clusters mt merged H Hin.
  apply deduplicate_clusters_spec in H as [Hok _].
  apply list_elem_of_lookup in Hin as [k Hk].
  destruct (Hok k _ Hk) as (i & seed & extra & Hi & Hmt & _ & _ & _ & Hstable).
  simpl in Hmt, Hstable. exists i, seed. rewrite Hmt.
  split; [reflexivity|]. split; [exact Hi|].
  intros Hloc. apply (Hstable _ (location_kept_stable seed Hloc)). reflexivity.
Qed.

Lemma merge_field_policy_witness :
  truthy (get {["location" := VStr "Boston"]} "location" (VStr "")) = true /\
  _merge_lead_data {["location" := VStr "Boston"]} {["location" := VStr "Basel"]}
  = Ok {["location" := VStr "Boston"]} /\
  ({["location" := VStr "Boston"]} : lead) !! "location"
  = ({["location" := VStr "Boston"]} : lead) !! "location".
Proof.
  assert (Hloc : truthy (get {["location" := VStr "Boston"]} "location" (VStr ""))
                 = true) by reflexivity.
  assert (E : _merge_lead_data {["location" := VStr "Boston"]}
                {["location" := VStr "Basel"]}
              = Ok {["location" := VStr "Boston"]}) by (vm_compute; reflexivity).
  split; [exact Hloc|]. split; [exact E|].
  exact (proj1 (proj2 (proj2 (proj2 (proj2 (proj2 merge_field_policy)))))
           _ _ _ Hloc E).
Defined.

End DedupExamples.

(** ** More on the scorer: errors, tiers and letter case *)

Module ScoringMore.
Import Scoring PyFacts ScoringFacts DedupTotal.

Ltac bind_inv H x Hx :=
  apply bind_Ok in H; destruct H as (x & Hx & H).

Lemma bind_Raise_inv {A B} (m : result A) (k : A -> result B) (e : exn) :
  m ≫= k = Raise e ->
  m = Raise e \/ exists a, m = Ok a /\ k a = Raise e.
Proof. destruct m as [a|e']; cbn; [eauto | intros [= ->]; auto]. Qed.

Lemma value_lower_raise v e : value_lower v = Raise e -> e = AttributeError.
Proof. destruct v; cbn; congruence. Qed.

Lemma value_lower_is_str v :
  is_str v -> exists s, value_lower v = Ok s.
Proof. intros [s ->]. eexists; reflexivity. Qed.

(** Each rule raises nothing but [AttributeError]. *)

Lemma role_fit_raise l e :
  _calculate_role_fit_score l = Raise e -> e = AttributeError.
Proof.
  unfold _calculate_role_fit_score. intros H.
  destruct (negb _) in H; [discriminate|].
  apply bind_Raise_inv in H as [H|(t & _ & H)].
  - eapply value_lower_raise; eassumption.
  - destruct (any_keyword_in _ _) in H; discriminate.
Qed.

Lemma scientific_intent_raise cy l e :
  _calculate_scientific_intent_score cy l = Raise e -> e = AttributeError.
Proof.
  unfold _calculate_scientific_intent_score. intros H.
  destruct (negb (truthy _)) in H; [discriminate|].
  apply bind_Raise_inv in H as [H|(t & _ & H)].
  - eapply value_lower_raise; eassumption.
  - destruct (negb (any_keyword_in _ _)) in H; [discriminate|].
    apply bind_Raise_inv in H as [H|(r & _ & H)].
    + destruct (truthy _) in H; [|discriminate].
      destruct (recency_check_guarded cy (get l "publication_date" (VStr "")))
        as [r Hr].
      congruence.
    + destruct r; discriminate.
Qed.

Lemma company_intent_raise l e :
  _calculate_company_intent_score l = Raise e -> e = AttributeError.
Proof.
  unfold _calculate_company_intent_score. intros H.
  destruct (negb _) in H; [discriminate|].
  apply bind_Raise_inv in H as [H|(t & _ & H)].
  - eapply value_lower_raise; eassumption.
  - destruct (_ || _) in H; [discriminate|].
    destruct (_ || _) in H; discriminate.
Qed.

Lemma technographic_raise l e :
  _calculate_technographic_score l = Raise e -> e = AttributeError.
Proof.
  unfold _calculate_technographic_score. intros H.
  apply bind_Raise_inv in H as [H|(i & _ & H)].
  - eapply value_lower_raise; eassumption.
  - apply bind_Raise_inv in H as [H|(t & _ & H)].
    + eapply value_lower_raise; eassumption.
    + destruct (existsb _ _) in H; discriminate.
Qed.

Lemma location_raise l e :
  _calculate_location_score l = Raise e -> e = AttributeError.
Proof.
  unfold _calculate_location_score. intros H.
  destruct (negb _) in H; [discriminate|].
  apply bind_Raise_inv in H as [H|(t & _ & H)].
  - eapply value_lower_raise; eassumption.
  - destruct (existsb _ _) in H; discriminate.
Qed.

Lemma calculate_raise cy l e :
  calculate_propensity_score cy l = Raise e -> e = AttributeError.
Proof.
  unfold calculate_propensity_score. intros H.
  apply bind_Raise_inv in H as [H|(rf & _ & H)];
    [eapply role_fit_raise; eassumption|].
  apply bind_Raise_inv in H as [H|(si & _ & H)];
    [eapply scientific_intent_raise; eassumption|].
  apply bind_Raise_inv in H as [H|(ci & _ & H)];
    [eapply company_intent_raise; eassumption|].
  apply bind_Raise_inv in H as [H|(tg & _ & H)];
    [eapply technographic_raise; eassumption|].
  apply bind_Raise_inv in H as [H|(lc & _ & H)];
    [eapply location_raise; eassumption|].
  discriminate.
Qed.

(** On a record whose fields are all strings every rule returns. *)

Section TextOnly.

Variable l : lead.
Hypothesis Hl : string_valued l.

Lemma lower_text k : exists s, value_lower (get l k (VStr "")) = Ok s.
Proof. apply value_lower_is_str, get_is_str, Hl. Qed.

Lemma role_fit_text_only : exists v, _calculate_role_fit_score l = Ok v.
Proof.
  unfold _calculate_role_fit_score.
  destruct (truthy (get_none l "linkedin_title"));
    [|destruct (truthy (get_none l "title"))].
  - destruct (negb _); [eauto|].
    destruct (lower_text "linkedin_title") as [s ->]. cbn [mbind result_bind].
    destruct (any_keyword_in _ _); eauto.
  - destruct (negb _); [eauto|].
    destruct (lower_text "title") as [s ->]. cbn [mbind result_bind].
    destruct (any_keyword_in _ _); eauto.
  - cbn. eauto.
Qed.

Lemma scientific_intent_text_only cy :
  exists v, _calculate_scientific_intent_score cy l = Ok v.
Proof.
  unfold _calculate_scientific_intent_score.
  destruct (negb (truthy _)); [eauto|].
  destruct (lower_text "publication_title") as [s ->].
  cbn [mbind result_bind].
  destruct (negb (any_keyword_in _ _)); [eauto|].
  destruct (truthy _).
  - destruct (recency_check_guarded cy (get l "publication_date" (VStr "")))
      as [r ->].
    cbn [mbind result_bind]. destruct r; eauto.
  - cbn [mbind result_bind]. eauto.
Qed.

Lemma company_intent_text_only :
  exists v, _calculate_company_intent_score l = Ok v.
Proof.
  unfold _calculate_company_intent_score.
  destruct (negb _); [eauto|].
  destruct (lower_text "company_funding_stage") as [s ->].
  cbn [mbind result_bind].
  destruct (_ || _); [eauto|]. destruct (_ || _); eauto.
Qed.

Lemma technographic_text_only :
  exists v, _calculate_technographic_score l = Ok v.
Proof.
  unfold _calculate_technographic_score.
  destruct (lower_text "company_industry") as [s ->].
  destruct (lower_text "publication_title") as [t ->].
  cbn [mbind result_bind]. destruct (existsb _ _); eauto.
Qed.

Lemma location_text_only : exists v, _calculate_location_score l = Ok v.
Proof.
  unfold _calculate_location_score.
  destruct (truthy (get_none l "person_location"));
    [|destruct (truthy (get_none l "company_hq"))].
  - destruct (negb _); [eauto|].
    destruct (lower_text "person_location") as [s ->]. cbn [mbind result_bind].
    destruct (existsb _ _); eauto.
  - destruct (negb _); [eauto|].
    destruct (lower_text "company_hq") as [s ->]. cbn [mbind result_bind].
    destruct (existsb _ _); eauto.
  - cbn. eauto.
Qed.

Lemma calculate_text_only cy :
  exists sd, calculate_propensity_score cy l = Ok sd.
Proof.
  unfold calculate_propensity_score.
  destruct role_fit_text_only as [rf ->].
  destruct (scientific_intent_text_only cy) as [si ->].
  destruct company_intent_text_only as [ci ->].
  destruct technographic_text_only as [tg ->].
  destruct location_text_only as [lc ->].
  cbn [mbind result_bind]. eauto.
Qed.

End TextOnly.

(** X1. The scorer raises nothing but [AttributeError]; it returns on every
    record whose fields are all strings; and a [company_industry] that is
    present and not a string (a JSON null, a number) makes it raise, upon
    which [run_stage3] gives the record the all-zero score and the tier
    Low. *)
Theorem scorer_failure_modes (current_year : Z) (l : lead) :
  (forall e, calculate_propensity_score current_year l = Raise e ->
             e = AttributeError) /\
  (string_valued l ->
   exists sd, calculate_propensity_score current_year l = Ok sd) /\
  (forall v, l !! "company_industry" = Some v -> (forall s, v <> VStr s) ->
     calculate_propensity_score current_year l = Raise AttributeError /\
     stage3_score current_year l = zero_score).
Proof.
  split; [apply calculate_raise|].
  split; [intros Hl; apply calculate_text_only; exact Hl|].
  intros v Hv Hns.
  assert (E : calculate_propensity_score current_year l = Raise AttributeError).
  { destruct (calculate_propensity_score current_year l) as [sd|e] eqn:E.
    - exfalso. unfold calculate_propensity_score in E.
      bind_inv E rf Hrf. bind_inv E si Hsi. bind_inv E ci Hci.
      bind_inv E tg Htg. unfold _calculate_technographic_score in Htg.
      bind_inv Htg i Hi. rewrite (get_Some _ _ _ _ Hv) in Hi.
      destruct v as [s| |]; [exact (Hns s eq_refl)|discriminate..].
    - f_equal. eapply calculate_raise; eassumption. }
  split; [exact E|]. unfold stage3_score. rewrite E. reflexivity.
Qed.

Lemma scorer_failure_modes_witness :
  string_valued full_marks /\
  (({["company_industry" := VNone]} : lead) !! "company_industry" = Some VNone) /\
  (exists sd, calculate_propensity_score 2026 full_marks = Ok sd) /\
  stage3_score 2026 {["company_industry" := VNone]} = zero_score.
Proof.
  assert (Hs : string_valued full_marks).
  { unfold full_marks. repeat (apply insert_string_valued; [eexists; reflexivity|]).
    apply map_Forall_empty. }
  split; [exact Hs|]. split; [reflexivity|].
  split.
  - exact (proj1 (proj2 (scorer_failure_modes 2026 full_marks)) Hs).
  - refine (proj2 (proj2 (proj2 (scorer_failure_modes 2026
                                   {["company_industry" := VNone]}))
                      VNone eq_refl _)).
    intros s; discriminate.
Defined.

(** X2. The tier is read off the score: High from 80 up, Medium from 50 to
    79, Low below 50. Without a scientific-intent match the other four rules
    reach 75 at most, so a record in the tier High always has the full
    scientific-intent score. This holds for the fields [run_stage3] attaches
    to any record, the fallback included. *)
Theorem priority_tiers (current_year : Z) (l : lead) :
  let sd := stage3_score current_year l in
  (priority_level sd = High <-> 80 <= propensity_score sd) /\
  (priority_level sd = Medium <-> 50 <= propensity_score sd < 80) /\
  (priority_level sd = Low <-> propensity_score sd < 50) /\
  (scientific_intent (score_breakdown sd) = 0 -> propensity_score sd <= 75) /\
  (priority_level sd = High -> scientific_intent (score_breakdown sd) = 40).
Proof.
  cbv zeta. unfold stage3_score.
  destruct (calculate_propensity_score current_year l) as [sd|e] eqn:E.
  - unfold calculate_propensity_score in E.
    bind_inv E rf Hrf. bind_inv E si Hsi. bind_inv E ci Hci.
    bind_inv E tg Htg. bind_inv E lc Hlc.
    apply role_fit_values in Hrf. apply scientific_intent_values in Hsi.
    apply company_intent_values in Hci. apply technographic_values in Htg.
    apply location_values in Hlc.
    injection E as <-.
    destruct Hrf as [-> | ->], Hsi as [-> | ->], Hci as [-> | [-> | ->]],
      Htg as [-> | ->], Hlc as [-> | ->];
      vm_compute; repeat split; intros; try discriminate; try reflexivity;
      try match goal with H : _ /\ _ |- _ => destruct H end;
      try congruence;
      try match goal with H : _ -> False |- _ => exfalso; apply H; reflexivity end.
  - vm_compute. repeat split; intros; try discriminate; try reflexivity;
      try match goal with H : _ /\ _ |- _ => destruct H end;
      try congruence;
      try match goal with H : _ -> False |- _ => exfalso; apply H; reflexivity end.
Qed.

(** *** Letter case *)

Definition lower_value (v : value) : value :=
  match v with
  | VStr s => VStr (lower s)
  | _ => v
  end.

(** The text fields the rules read. *)
Definition text_fields : list string :=
  ["linkedin_title"; "title"; "publication_title"; "company_funding_stage";
   "company_industry"; "person_location"; "company_hq"].

(** The record with its text fields in lower case. *)
Definition lowercase_text (l : lead) : lead :=
  map_imap (fun k v => Some (if bool_decide (k ∈ text_fields)
                             then lower_value v else v)) l.

Lemma lower_char_idem c : lower_char (lower_char c) = lower_char c.
Proof. destruct c as [[] [] [] [] [] [] [] []]; reflexivity. Qed.

Lemma lower_idem s : lower (lower s) = lower s.
Proof.
  induction s as [|c s IH]; [reflexivity|].
  cbn [lower]. rewrite lower_char_idem, IH. reflexivity.
Qed.

Lemma truthy_lower_value v : truthy (lower_value v) = truthy v.
Proof. destruct v as [[|c s]| |]; reflexivity. Qed.

Lemma value_lower_lower_value v : value_lower (lower_value v) = value_lower v.
Proof. destruct v; cbn; [rewrite lower_idem|..]; reflexivity. Qed.

Lemma lookup_lowercase_text (l : lead) k :
  lowercase_text l !! k
  = (if bool_decide (k ∈ text_fields) then lower_value else id) <$> l !! k.
Proof.
  unfold lowercase_text. rewrite map_lookup_imap.
  destruct (l !! k); cbn; [|reflexivity]. case_bool_decide; reflexivity.
Qed.

Lemma get_lowercase_text (l : lead) k :
  k ∈ text_fields ->
  get (lowercase_text l) k (VStr "") = lower_value (get l k (VStr "")) /\
  get_none (lowercase_text l) k = lower_value (get_none l k).
Proof.
  intros Hk. unfold get_none, get. rewrite lookup_lowercase_text.
  rewrite bool_decide_eq_true_2 by exact Hk.
  destruct (l !! k); split; reflexivity.
Qed.

Lemma get_lowercase_other (l : lead) k :
  k ∉ text_fields ->
  get (lowercase_text l) k (VStr "") = get l k (VStr "").
Proof.
  intros Hk. unfold get. rewrite lookup_lowercase_text.
  rewrite bool_decide_eq_false_2 by exact Hk.
  destruct (l !! k); reflexivity.
Qed.

(** Decides membership of a literal key in [text_fields]. *)
Ltac text_field := apply (bool_decide_unpack _); vm_compute; exact I.

Ltac lowered l k :=
  let H := fresh in
  assert (H : k ∈ text_fields) by text_field;
  rewrite ?(proj1 (get_lowercase_text l k H)),
    ?(proj2 (get_lowercase_text l k H));
  clear H.

Lemma role_fit_lowercase l :
  _calculate_role_fit_score (lowercase_text l) = _calculate_role_fit_score l.
Proof.
  unfold _calculate_role_fit_score.
  lowered l "linkedin_title". lowered l "title".
  rewrite !truthy_lower_value.
  destruct (truthy (get_none l "linkedin_title"));
    [|destruct (truthy (get_none l "title"))];
    rewrite ?truthy_lower_value, ?value_lower_lower_value; reflexivity.
Qed.

Lemma scientific_intent_lowercase cy l :
  _calculate_scientific_intent_score cy (lowercase_text l)
  = _calculate_scientific_intent_score cy l.
Proof.
  unfold _calculate_scientific_intent_score.
  lowered l "publication_title".
  rewrite (get_lowercase_other l "publication_date")
    by (intros H; apply (bool_decide_pack _) in H; vm_compute in H; exact H).
  rewrite truthy_lower_value, value_lower_lower_value. reflexivity.
Qed.

Lemma company_intent_lowercase l :
  _calculate_company_intent_score (lowercase_text l)
  = _calculate_company_intent_score l.
Proof.
  unfold _calculate_company_intent_score.
  lowered l "company_funding_stage".
  rewrite truthy_lower_value, value_lower_lower_value. reflexivity.
Qed.

Lemma technographic_lowercase l :
  _calculate_technographic_score (lowercase_text l)
  = _calculate_technographic_score l.
Proof.
  unfold _calculate_technographic_score.
  lowered l "company_industry". lowered l "publication_title".
  rewrite !value_lower_lower_value. reflexivity.
Qed.

Lemma location_lowercase l :
  _calculate_location_score (lowercase_text l) = _calculate_location_score l.
Proof.
  unfold _calculate_location_score.
  lowered l "person_location". lowered l "company_hq".
  rewrite !truthy_lower_value.
  destruct (truthy (get_none l "person_location"));
    [|destruct (truthy (get_none l "company_hq"))];
    rewrite ?truthy_lower_value, ?value_lower_lower_value; reflexivity.
Qed.

(** X3. The scorer is blind to letter case: putting the titles, the funding
    stage, the industry and the locations of a record in lower case changes
    neither its score, nor its breakdown, nor whether scoring raises. *)
Theorem score_ignores_letter_case (current_year : Z) (l : lead) :
  calculate_propensity_score current_year (lowercase_text l)
  = calculate_propensity_score current_year l /\
  stage3_score current_year (lowercase_text l) = stage3_score current_year l.
Proof.
  assert (E : calculate_propensity_score current_year (lowercase_text l)
              = calculate_propensity_score current_year l).
  { unfold calculate_propensity_score.
    rewrite role_fit_lowercase, scientific_intent_lowercase,
      company_intent_lowercase, technographic_lowercase, location_lowercase.
    reflexivity. }
  split; [exact E|]. unfold stage3_score. rewrite E. reflexivity.
Qed.

(** X4. Once the publication title carries a scientific keyword, the
    scientific-intent rule gives 40 whatever [publication_date] holds: a
    recent year, an old one, text that is no year, a number, or nothing. *)
Theorem keyword_match_scores_40_whatever_the_date (current_year : Z)
    (l : lead) (title : string) :
  l !! "publication_title" = Some (VStr title) ->
  any_keyword_in scientific_keywords (lower title) = true ->
  _calculate_scientific_intent_score current_year l = Ok 40.
Proof. apply scientific_intent_ignores_date. Qed.

Lemma keyword_match_scores_40_whatever_the_date_witness :
  (<["publication_date" := VInt 1999]> old_publication : lead)
    !! "publication_title" = Some (VStr "Hepatotoxicity in rats") /\
  any_keyword_in scientific_keywords (lower "Hepatotoxicity in rats") = true /\
  _calculate_scientific_intent_score 2026
    (<["publication_date" := VInt 1999]> old_publication) = Ok 40.
Proof.
  assert (H1 : (<["publication_date" := VInt 1999]> old_publication : lead)
                 !! "publication_title" = Some (VStr "Hepatotoxicity in rats"))
    by reflexivity.
  assert (H2 : any_keyword_in scientific_keywords
                 (lower "Hepatotoxicity in rats") = true) by reflexivity.
  split; [exact H1|]. split; [exact H2|].
  exact (keyword_match_scores_40_whatever_the_date 2026 _ _ H1 H2).
Defined.

End ScoringMore.

(** ** More on the merge, the deduplicator and the affiliation parsers *)

Module MergeMore.
Import DataProcessing PyFacts MergeFacts.

(** *** A record merged with itself *)

Lemma value_eqb_refl (v : value) : value_eqb v v = true.
Proof. unfold value_eqb. apply bool_decide_eq_true_2. reflexivity. Qed.

Lemma merge_joined_same (v : value) : merge_joined v v = Ok None.
Proof.
  unfold merge_joined. rewrite value_eqb_refl. cbn [negb].
  rewrite andb_false_r. destruct (truthy v); reflexivity.
Qed.

Lemma string_ltb_irrefl (s : string) : String.ltb s s = false.
Proof.
  unfold String.ltb. pose proof (String.compare_antisym s s) as H.
  destruct (String.compare s s); [reflexivity|discriminate|reflexivity].
Qed.

Lemma value_gt_same (v : value) :
  truthy v = true -> value_gt v v = Ok false.
Proof.
  destruct v as [s|n|]; cbn [truthy value_gt]; intros H.
  - rewrite string_ltb_irrefl. reflexivity.
  - rewrite Z.ltb_irrefl. reflexivity.
  - discriminate.
Qed.

(** X8. Merging a record with an identical copy changes nothing and never
    raises, whatever the record holds: no field is doubled into
    ["a; a"]. *)
Theorem merge_with_itself (l : lead) : _merge_lead_data l l = Ok l.
Proof.
  unfold _merge_lead_data, merge_publication_title.
  rewrite merge_joined_same. cbn [mbind result_bind assign].
  assert (He : merge_email l l = l).
  { unfold merge_email. rewrite value_eqb_refl. cbn [negb].
    rewrite andb_false_r. destruct (truthy _); reflexivity. }
  rewrite He.
  assert (Hl : merge_location l l = l).
  { unfold merge_location. destruct (truthy _); reflexivity. }
  rewrite Hl.
  assert (Hc : merge_company l l = l).
  { unfold merge_company.
    destruct (value_eqb (get l "company" (VStr "")) (VStr "Unknown"));
      cbn [negb andb]; [rewrite andb_false_r|]; reflexivity. }
  rewrite Hc.
  assert (Ha : merge_author_position l l = l).
  { unfold merge_author_position. rewrite Z.ltb_irrefl. reflexivity. }
  rewrite Ha.
  assert (Hp : merge_pubmed_id l l = l).
  { unfold merge_pubmed_id. rewrite value_eqb_refl. cbn [negb].
    rewrite andb_false_r. destruct (truthy _); reflexivity. }
  rewrite Hp. unfold merge_publication_journal.
  rewrite merge_joined_same. cbn [mbind result_bind assign].
  unfold merge_publication_date.
  destruct (truthy (get l "publication_date" (VStr ""))) eqn:Ht;
    cbn [negb]; [|reflexivity].
  rewrite (value_gt_same _ Ht). reflexivity.
Qed.

(** *** What the merge touches *)

Definition merged_fields : list string :=
  ["publication_title"; "email"; "location"; "company"; "author_position";
   "pubmed_id"; "publication_journal"; "publication_date"].

Lemma assign_grows k v (m : lead) k' :
  is_Some (m !! k') -> is_Some (assign k v m !! k').
Proof.
  intros H. destruct v; cbn [assign]; [|exact H].
  apply lookup_insert_is_Some. destruct (decide (k = k')); auto.
Qed.

Lemma insert_grows k (v : value) (m : lead) k' :
  is_Some (m !! k') -> is_Some (<[k := v]> m !! k').
Proof.
  intros H. apply lookup_insert_is_Some. destruct (decide (k = k')); auto.
Qed.

Ltac grows :=
  repeat match goal with
  | |- context [if ?b then _ else _] => destruct b
  end;
  first [assumption | apply insert_grows; assumption].

(** X9. The merge reads and writes eight fields only. Every other field of
    the result is the first record's, so what the second record holds
    there (a name, a title, a LinkedIn URL) is dropped; and no field that
    the first record has is ever removed. *)
Theorem merge_touches_eight_fields (lead1 lead2 merged : lead) :
  _merge_lead_data lead1 lead2 = Ok merged ->
  (forall k, k ∉ merged_fields -> merged !! k = lead1 !! k) /\
  (forall k, is_Some (lead1 !! k) -> is_Some (merged !! k)).
Proof.
  intros H. unfold _merge_lead_data in H.
  bind_inv H m1 H1. bind_inv H m2 H2. split.
  - intros k Hk. unfold merged_fields in Hk.
    repeat (apply not_elem_of_cons in Hk as [? Hk]).
    rewrite (merge_publication_date_frame _ _ _ _ H) by assumption.
    rewrite (merge_publication_journal_frame _ _ _ _ H2) by assumption.
    rewrite merge_pubmed_id_frame by assumption.
    rewrite merge_author_position_frame by assumption.
    rewrite merge_company_frame by assumption.
    rewrite merge_location_frame by assumption.
    rewrite merge_email_frame by assumption.
    apply (merge_publication_title_frame _ _ _ _ H1). assumption.
  - intros k Hk.
    assert (K1 : is_Some (m1 !! k)).
    { unfold merge_publication_title in H1. bind_inv H1 v Hv.
      injection H1 as <-. apply assign_grows. exact Hk. }
    assert (K2 : is_Some (merge_email m1 lead2 !! k)).
    { unfold merge_email. grows. }
    assert (K3 : is_Some (merge_location (merge_email m1 lead2) lead2 !! k)).
    { unfold merge_location. grows. }
    set (s3 := merge_location _ _) in *.
    assert (K4 : is_Some (merge_company s3 lead2 !! k)).
    { unfold merge_company. grows. }
    set (s4 := merge_company _ _) in *.
    assert (K5 : is_Some (merge_author_position s4 lead2 !! k)).
    { unfold merge_author_position. grows. }
    set (s5 := merge_author_position _ _) in *.
    assert (K6 : is_Some (merge_pubmed_id s5 lead2 !! k)).
    { unfold merge_pubmed_id. grows. }
    set (s6 := merge_pubmed_id _ _) in *.
    assert (K7 : is_Some (m2 !! k)).
    { unfold merge_publication_journal in H2. bind_inv H2 v Hv.
      injection H2 as <-. apply assign_grows. exact K6. }
    unfold merge_publication_date in H. bind_inv H newer Hn.
    injection H as <-. destruct newer; [apply insert_grows|]; exact K7.
Qed.

Lemma merge_touches_eight_fields_witness :
  ({["name" := VStr "Ann"; "email" := VStr "a@x.org"]} : lead) !! "name"
  = ({["name" := VStr "Ann"]} : lead) !! "name".
Proof.
  refine (proj1 (merge_touches_eight_fields
                   {["name" := VStr "Ann"]}
                   {["name" := VStr "Ann B."; "email" := VStr "a@x.org"]}
                   {["name" := VStr "Ann"; "email" := VStr "a@x.org"]} _)
            "name" _).
  - vm_compute. reflexivity.
  - apply (bool_decide_unpack _). vm_compute. exact I.
Defined.

(** *** The fill-in rule *)

Definition filled_fields : list string :=
  ["publication_title"; "email"; "location"; "pubmed_id";
   "publication_journal"; "publication_date"].

Lemma merge_joined_fill v1 v2 :
  truthy v1 = false -> truthy v2 = true -> merge_joined v1 v2 = Ok (Some v2).
Proof. unfold merge_joined. intros -> ->. reflexivity. Qed.

(** X10. A field among publication title, email, location, PubMed id,
    journal and publication date that is missing or empty in the first
    record and non-empty in the second is taken from the second. *)
Theorem merge_fills_empty_fields (lead1 lead2 merged : lead) (k : string) :
  _merge_lead_data lead1 lead2 = Ok merged ->
  k ∈ filled_fields ->
  truthy (get lead1 k (VStr "")) = false ->
  truthy (get lead2 k (VStr "")) = true ->
  merged !! k = Some (get lead2 k (VStr "")).
Proof.
  intros H Hk Hempty Hfull. unfold _merge_lead_data in H.
  bind_inv H m1 H1. bind_inv H m2 H2.
  unfold filled_fields in Hk.
  repeat (apply elem_of_cons in Hk as [->|Hk]); [..|inversion Hk].
  - (* publication_title *)
    rewrite (merge_publication_date_frame _ _ _ _ H) by discriminate.
    rewrite (merge_publication_journal_frame _ _ _ _ H2) by discriminate.
    rewrite merge_pubmed_id_frame by discriminate.
    rewrite merge_author_position_frame by discriminate.
    rewrite merge_company_frame by discriminate.
    rewrite merge_location_frame by discriminate.
    rewrite merge_email_frame by discriminate.
    unfold merge_publication_title in H1.
    rewrite (merge_joined_fill _ _ Hempty Hfull) in H1.
    injection H1 as <-. apply lookup_insert_eq.
  - (* email *)
    rewrite (merge_publication_date_frame _ _ _ _ H) by discriminate.
    rewrite (merge_publication_journal_frame _ _ _ _ H2) by discriminate.
    rewrite merge_pubmed_id_frame by discriminate.
    rewrite merge_author_position_frame by discriminate.
    rewrite merge_company_frame by discriminate.
    rewrite merge_location_frame by discriminate.
    assert (Hs : m1 !! "email" = lead1 !! "email")
      by (apply (merge_publication_title_frame _ _ _ _ H1); discriminate).
    unfold merge_email. rewrite (get_lookup_eq _ _ _ _ Hs), Hempty, Hfull.
    apply lookup_insert_eq.
  - (* location *)
    rewrite (merge_publication_date_frame _ _ _ _ H) by discriminate.
    rewrite (merge_publication_journal_frame _ _ _ _ H2) by discriminate.
    rewrite merge_pubmed_id_frame by discriminate.
    rewrite merge_author_position_frame by discriminate.
    rewrite merge_company_frame by discriminate.
    set (s := merge_email m1 lead2).
    assert (Hs : s !! "location" = lead1 !! "location").
    { unfold s. rewrite merge_email_frame by discriminate.
      apply (merge_publication_title_frame _ _ _ _ H1). discriminate. }
    unfold merge_location. rewrite (get_lookup_eq _ _ _ _ Hs), Hempty, Hfull.
    apply lookup_insert_eq.
  - (* pubmed_id *)
    rewrite (merge_publication_date_frame _ _ _ _ H) by discriminate.
    rewrite (merge_publication_journal_frame _ _ _ _ H2) by discriminate.
    set (s := merge_author_position _ _).
    assert (Hs : s !! "pubmed_id" = lead1 !! "pubmed_id").
    { unfold s. rewrite merge_author_position_frame by discriminate.
      rewrite merge_company_frame by discriminate.
      rewrite merge_location_frame by discriminate.
      rewrite merge_email_frame by discriminate.
      apply (merge_publication_title_frame _ _ _ _ H1). discriminate. }
    unfold merge_pubmed_id. rewrite (get_lookup_eq _ _ _ _ Hs), Hempty, Hfull.
    cbn [negb andb]. apply lookup_insert_eq.
  - (* publication_journal *)
    rewrite (merge_publication_date_frame _ _ _ _ H) by discriminate.
    set (s := merge_pubmed_id _ _) in *.
    assert (Hs : s !! "publication_journal" = lead1 !! "publication_journal").
    { unfold s. rewrite merge_pubmed_id_frame by discriminate.
      rewrite merge_author_position_frame by discriminate.
      rewrite merge_company_frame by discriminate.
      rewrite merge_location_frame by discriminate.
      rewrite merge_email_frame by discriminate.
      apply (merge_publication_title_frame _ _ _ _ H1). discriminate. }
    clearbody s. unfold merge_publication_journal in H2.
    rewrite (get_lookup_eq _ _ _ _ Hs) in H2.
    rewrite (merge_joined_fill _ _ Hempty Hfull) in H2.
    cbn [mbind result_bind assign] in H2.
    injection H2 as <-. apply lookup_insert_eq.
  - (* publication_date *)
    assert (Hs : m2 !! "publication_date" = lead1 !! "publication_date").
    { rewrite (merge_publication_journal_frame _ _ _ _ H2) by discriminate.
      rewrite merge_pubmed_id_frame by discriminate.
      rewrite merge_author_position_frame by discriminate.
      rewrite merge_company_frame by discriminate.
      rewrite merge_location_frame by discriminate.
      rewrite merge_email_frame by discriminate.
      apply (merge_publication_title_frame _ _ _ _ H1). discriminate. }
    unfold merge_publication_date in H.
    rewrite (get_lookup_eq _ _ _ _ Hs), Hempty, Hfull in H.
    cbn [negb mbind result_bind] in H. injection H as <-.
    apply lookup_insert_eq.
Qed.

Lemma merge_fills_empty_fields_witness :
  ({["email" := VStr "a@x.org"; "name" := VStr "Ann"]} : lead) !! "email"
  = Some (get ({["email" := VStr "a@x.org"]} : lead) "email" (VStr "")).
Proof.
  apply (merge_fills_empty_fields
           {["name" := VStr "Ann"]} {["email" := VStr "a@x.org"]}).
  - vm_compute. reflexivity.
  - apply (bool_decide_unpack _). vm_compute. exact I.
  - reflexivity.
  - reflexivity.
Defined.

(** *** The publication date *)

(** The later of two dates in the order of strings, which for ISO dates is
    the order of time. *)
Definition later_date (d1 d2 : string) : string :=
  if String.ltb d1 d2 then d2 else d1.

(** X11. When both publication dates are strings (a missing one counts as
    empty), the merge carries the later of the two in string order, so the
    most recent ISO date wins whichever record holds it. *)
Theorem merge_keeps_latest_date (lead1 lead2 merged : lead) (d1 d2 : string) :
  _merge_lead_data lead1 lead2 = Ok merged ->
  get lead1 "publication_date" (VStr "") = VStr d1 ->
  get lead2 "publication_date" (VStr "") = VStr d2 ->
  get merged "publication_date" (VStr "") = VStr (later_date d1 d2).
Proof.
  intros H Hd1 Hd2. unfold _merge_lead_data in H.
  bind_inv H m1 H1. bind_inv H m2 H2.
  assert (Hs : m2 !! "publication_date" = lead1 !! "publication_date").
  { rewrite (merge_publication_journal_frame _ _ _ _ H2) by discriminate.
    rewrite merge_pubmed_id_frame by discriminate.
    rewrite merge_author_position_frame by discriminate.
    rewrite merge_company_frame by discriminate.
    rewrite merge_location_frame by discriminate.
    rewrite merge_email_frame by discriminate.
    apply (merge_publication_title_frame _ _ _ _ H1). discriminate. }
  unfold merge_publication_date in H.
  rewrite (get_lookup_eq _ _ _ _ Hs), Hd1, Hd2 in H.
  unfold later_date. cbn [truthy value_gt] in H.
  destruct d2 as [|c2 r2].
  - cbn [String.eqb negb mbind result_bind] in H. injection H as <-.
    rewrite (get_lookup_eq _ _ _ _ Hs), Hd1.
    destruct d1; reflexivity.
  - cbn [String.eqb negb] in H. destruct d1 as [|c1 r1].
    + cbn [String.eqb negb mbind result_bind] in H. injection H as <-.
      unfold get. rewrite lookup_insert_eq. reflexivity.
    + cbn [String.eqb negb mbind result_bind] in H. injection H as <-.
      destruct (String.ltb _ _).
      * unfold get. rewrite lookup_insert_eq. reflexivity.
      * rewrite (get_lookup_eq _ _ _ _ Hs), Hd1. reflexivity.
Qed.

Lemma merge_keeps_latest_date_witness :
  get ({["publication_date" := VStr "2024-03-01"]} : lead)
    "publication_date" (VStr "")
  = VStr (later_date "2023-11-20" "2024-03-01").
Proof.
  apply (merge_keeps_latest_date
           {["publication_date" := VStr "2023-11-20"]}
           {["publication_date" := VStr "2024-03-01"]}).
  - vm_compute. reflexivity.
  - reflexivity.
  - reflexivity.
Defined.

End MergeMore.

(** ** More on the deduplicator: partition, batches without a match, text
    records *)

Module DedupMore.
Import DataProcessing PyFacts DedupFacts DedupTotal.

Section WithSimilarity.

Variable ratio : string -> string -> Z.
Variable token_set_ratio : string -> string -> Z.

(** The outer loop appends at most one cluster per record. *)
Lemma scan_seeds_length remaining :
  forall i seen processed out,
  scan_seeds ratio token_set_ratio remaining i seen processed = Ok out ->
  (length out <= length processed + length remaining)%nat.
Proof.
  induction remaining as [|lead1 later IH]; intros i seen processed out H.
  - injection H as <-. simpl. lia.
  - cbn [scan_seeds] in H. case_bool_decide.
    + apply IH in H. simpl. lia.
    + bind_inv H st Hst. destruct st as [[seen' mt] merged].
      apply IH in H. rewrite length_app in H. simpl in *. lia.
Qed.

(** No member of a cluster is in a cluster formed before it. *)
Lemma member_not_earlier leads earlier c x :
  cluster_ok ratio token_set_ratio leads earlier c -> x ∈ fst c ->
  (x < length leads)%nat /\ forall c', c' ∈ earlier -> x ∉ fst c'.
Proof.
  intros (i & lead1 & extra & Hi & Hc & Hseed & Hext & _) Hx.
  rewrite Hc in Hx. apply elem_of_cons in Hx as [->|Hx].
  - split; [eapply lookup_lt_Some; exact Hi | exact Hseed].
  - apply Hext in Hx as (_ & lead2 & Hj & _ & Hfree).
    split; [eapply lookup_lt_Some; exact Hj | exact Hfree].
Qed.

(** A batch in which no record matches a later one: every record is its
    own cluster. *)
Fixpoint singleton_clusters (i : nat) (leads : list lead)
    : list (list nat * lead) :=
  match leads with
  | [] => []
  | l :: rest => ([i], l) :: singleton_clusters (S i) rest
  end.

Lemma singleton_clusters_leads i leads :
  map snd (singleton_clusters i leads) = leads.
Proof.
  revert i. induction leads as [|l rest IH]; intros i; [reflexivity|].
  cbn [singleton_clusters map snd]. rewrite IH. reflexivity.
Qed.

Lemma scan_later_no_match lead1 later :
  Forall (fun lead2 => same ratio token_set_ratio lead1 lead2 = false) later ->
  forall j st,
  scan_later ratio token_set_ratio lead1 later j st = Ok st.
Proof.
  induction 1 as [|lead2 rest Hno _ IH]; intros j st; [reflexivity|].
  cbn [scan_later]. destruct st as [[seen mt] merged].
  case_bool_decide; [apply IH|].
  unfold DedupFacts.same in Hno. rewrite Hno. apply IH.
Qed.

Lemma scan_seeds_no_match remaining :
  ForallOrdPairs (fun a b => same ratio token_set_ratio a b = false)
    remaining ->
  forall i seen processed,
  (forall x, x ∈ seen -> (x < i)%nat) ->
  scan_seeds ratio token_set_ratio remaining i seen processed
  = Ok (processed ++ singleton_clusters i remaining).
Proof.
  induction 1 as [|lead1 later Hno _ IH]; intros i seen processed Hseen.
  - cbn [scan_seeds singleton_clusters]. rewrite app_nil_r. reflexivity.
  - cbn [scan_seeds singleton_clusters].
    rewrite bool_decide_eq_false_2
      by (intros Hin; apply Hseen in Hin; lia).
    rewrite (scan_later_no_match lead1 later Hno).
    cbn [mbind result_bind]. rewrite IH.
    + rewrite <- app_assoc. reflexivity.
    + intros x [Hx|Hx]%elem_of_union.
      * apply elem_of_singleton in Hx. lia.
      * apply Hseen in Hx. lia.
Qed.

(** Text-only records stay text-only through the loops. *)
Lemma scan_later_text lead1 later :
  Forall string_valued later ->
  forall j seen mt merged,
  string_valued merged ->
  exists seen' mt' merged',
    scan_later ratio token_set_ratio lead1 later j (seen, mt, merged)
    = Ok (seen', mt', merged') /\
    string_valued merged'.
Proof.
  induction 1 as [|lead2 rest H2 _ IH]; intros j seen mt merged Hm.
  - eexists _, _, _. split; [reflexivity | exact Hm].
  - cbn [scan_later]. case_bool_decide; [apply IH; exact Hm|].
    destruct (_is_same_person _ _ _ _ _); [|apply IH; exact Hm].
    destruct (merge_strings_ok merged lead2 Hm H2) as (m' & -> & Hm').
    cbn [mbind result_bind]. apply IH; exact Hm'.
Qed.

Lemma scan_seeds_text remaining :
  Forall string_valued remaining ->
  forall i seen processed,
  Forall (fun c => string_valued (snd c)) processed ->
  exists out,
    scan_seeds ratio token_set_ratio remaining i seen processed = Ok out /\
    Forall (fun c => string_valued (snd c)) out.
Proof.
  induction 1 as [|lead1 later H1 Hlater IH]; intros i seen processed Hp.
  - eexists. split; [reflexivity | exact Hp].
  - cbn [scan_seeds]. case_bool_decide; [apply IH; exact Hp|].
    destruct (scan_later_text lead1 later Hlater (S i) seen [i] lead1 H1)
      as (seen' & mt & merged & -> & Hm).
    cbn [mbind result_bind]. apply IH.
    apply Forall_app. split; [exact Hp|]. constructor; [exact Hm|constructor].
Qed.

End WithSimilarity.

(** X12. The clusters of [deduplicate_leads] partition the input: every
    record is in exactly one cluster, a cluster holds positions of the
    input only, so the output has at most as many records as the input,
    and at least one when the input is not empty. *)
Theorem clusters_partition_the_input
    (ratio token_set_ratio : string -> string -> Z)
    (leads : list lead) (clusters : list (list nat * lead)) :
  deduplicate_clusters ratio token_set_ratio leads = Ok clusters ->
  (forall x, (x < length leads)%nat ->
     exists k c,
       clusters !! k = Some c /\ x ∈ fst c /\
       forall k' c', clusters !! k' = Some c' -> x ∈ fst c' -> k' = k) /\
  (forall c x, c ∈ clusters -> x ∈ fst c -> (x < length leads)%nat) /\
  deduplicate_leads ratio token_set_ratio leads = Ok (map snd clusters) /\
  (length (map snd clusters) <= length leads)%nat /\
  (leads <> [] -> map snd clusters <> []).
Proof.
  intros H.
  pose proof (deduplicate_clusters_spec _ _ _ _ H) as [Hok Hall].
  assert (Hone : forall k k' c c' x,
             clusters !! k = Some c -> clusters !! k' = Some c' ->
             x ∈ fst c -> x ∈ fst c' -> (k < k')%nat -> False).
  { intros k k' c c' x Hk Hk' Hx Hx' Hlt.
    destruct (member_not_earlier _ _ _ _ _ _ (Hok k' c' Hk') Hx')
      as [_ Hfree].
    apply (Hfree c); [|exact Hx]. apply elem_of_take. eauto. }
  split; [|split; [|split; [|split]]].
  - intros x Hx. destruct (Hall x Hx) as (c & Hc & Hin).
    apply list_elem_of_lookup in Hc as [k Hk].
    exists k, c. split; [exact Hk|]. split; [exact Hin|].
    intros k' c' Hk' Hin'.
    destruct (Nat.lt_trichotomy k k') as [Hlt|[Heq|Hgt]].
    + exfalso. exact (Hone k k' c c' x Hk Hk' Hin Hin' Hlt).
    + symmetry. exact Heq.
    + exfalso. exact (Hone k' k c' c x Hk' Hk Hin' Hin Hgt).
  - intros c x Hc Hx. apply list_elem_of_lookup in Hc as [k Hk].
    exact (proj1 (member_not_earlier _ _ _ _ _ _ (Hok k c Hk) Hx)).
  - unfold deduplicate_leads. rewrite H. reflexivity.
  - rewrite length_map. destruct leads as [|l0 rest].
    + injection H as <-. simpl. lia.
    + unfold deduplicate_clusters in H.
      apply scan_seeds_length in H. simpl in H. exact H.
  - intros Hne. destruct leads as [|l0 rest]; [congruence|].
    destruct (Hall 0%nat) as (c & Hc & _); [simpl; lia|].
    destruct clusters; [inversion Hc | discriminate].
Qed.

(** Two records with nothing in common and one repeated. *)
Definition ann : lead := {["name" := VStr "Ann Lee"]}.
Definition bob : lead := {["name" := VStr "Bob Roy"]}.

(** Similarity scores that tell only equal strings alike. *)
Definition exact_ratio (a b : string) : Z :=
  if String.eqb a b then 100 else 0.

Lemma clusters_partition_the_input_witness :
  (length (map snd [([0; 2]%nat, ann); ([1]%nat, bob)]) <= 3)%nat.
Proof.
  refine (proj1 (proj2 (proj2 (proj2
            (clusters_partition_the_input exact_ratio exact_ratio
               [ann; bob; ann] [([0; 2]%nat, ann); ([1]%nat, bob)] _))))).
  vm_compute. reflexivity.
Defined.

(** X13. When no record of the batch matches a later one, the
    deduplicator returns the batch as it is, in its order, and raises
    nothing: no merge runs, so fields of any type pass through. *)
Theorem no_match_no_change (ratio token_set_ratio : string -> string -> Z)
    (leads : list lead) :
  ForallOrdPairs
    (fun a b => DedupFacts.same ratio token_set_ratio a b = false) leads ->
  deduplicate_leads ratio token_set_ratio leads = Ok leads.
Proof.
  intros Hno. unfold deduplicate_leads, deduplicate_clusters.
  destruct leads as [|l0 rest]; [reflexivity|].
  rewrite (scan_seeds_no_match ratio token_set_ratio _ Hno 0 ∅ []);
    [|intros x Hx; set_solver].
  cbn [mbind result_bind app]. rewrite singleton_clusters_leads. reflexivity.
Qed.

Lemma no_match_no_change_witness :
  deduplicate_leads exact_ratio exact_ratio [ann; bob] = Ok [ann; bob].
Proof.
  apply no_match_no_change.
  repeat constructor.
Defined.

(** X14. On records whose fields all hold text the deduplicator never
    raises, and what it returns is text-only again, no longer than the
    input, and not empty unless the input is. *)
Theorem text_records_always_deduplicate
    (ratio token_set_ratio : string -> string -> Z) (leads : list lead) :
  Forall string_valued leads ->
  exists out,
    deduplicate_leads ratio token_set_ratio leads = Ok out /\
    Forall string_valued out /\
    (length out <= length leads)%nat /\
    (leads <> [] -> out <> []).
Proof.
  intros Htext.
  assert (Hrun : exists clusters,
             deduplicate_clusters ratio token_set_ratio leads = Ok clusters /\
             Forall (fun c => string_valued (snd c)) clusters).
  { unfold deduplicate_clusters. destruct leads as [|l0 rest].
    - eexists. split; [reflexivity | constructor].
    - apply scan_seeds_text; [exact Htext | constructor]. }
  destruct Hrun as (clusters & Hrun & Hout).
  exists (map snd clusters).
  split; [unfold deduplicate_leads; rewrite Hrun; reflexivity|].
  split; [apply Forall_fmap; exact Hout|].
  rewrite length_map. split.
  - destruct leads as [|l0 rest].
    + injection Hrun as <-. simpl. lia.
    + unfold deduplicate_clusters in Hrun.
      apply scan_seeds_length in Hrun. simpl in Hrun. exact Hrun.
  - intros Hne. destruct leads as [|l0 rest]; [congruence|].
    destruct (proj2 (deduplicate_clusters_spec _ _ _ _ Hrun) 0%nat)
      as (c & Hc & _); [simpl; lia|].
    destruct clusters; [inversion Hc | discriminate].
Qed.

Lemma ann_text : string_valued ann.
Proof.
  unfold ann. apply map_Forall_insert_2; [eexists; reflexivity|].
  apply map_Forall_empty.
Qed.

Lemma text_records_always_deduplicate_witness :
  exists out,
    deduplicate_leads exact_ratio exact_ratio [ann; ann] = Ok out /\
    Forall string_valued out /\
    (length out <= 2)%nat /\
    ([ann; ann] <> [] -> out <> []).
Proof.
  apply (text_records_always_deduplicate exact_ratio exact_ratio [ann; ann]).
  repeat constructor; exact ann_text.
Defined.

End DedupMore.

Module ExtractMore.
Import DataProcessing ExtractFacts.

Lemma find_holds {A} (p : A -> bool) (xs : list A) (x : A) :
  List.find p xs = Some x -> x ∈ xs /\ p x = true.
Proof.
  intros H. apply List.find_some in H as [Hin Hp].
  split; [apply list_elem_of_In; exact Hin | exact Hp].
Qed.

(** X15. The company that [extract_company_from_affiliation] returns is
    never blank: it is ["Unknown"] or one of the trimmed comma-separated
    segments of the text without its email addresses, and either way has
    more than three characters. *)
Theorem extract_company_never_blank (affiliation : string) :
  let company := extract_company_from_affiliation affiliation in
  3 < len company /\
  (company = "Unknown" \/
   company ∈ map strip (split "," (sub_email affiliation))).
Proof.
  cbv zeta. unfold extract_company_from_affiliation.
  destruct (String.eqb affiliation ""); [split; [reflexivity | auto]|].
  rewrite first_company_find, first_substantial_find.
  destruct (List.find _ _) as [seg|] eqn:E1.
  - apply find_holds in E1 as [Hin Hp].
    apply andb_true_iff in Hp as [_ Hlen]. apply Z.ltb_lt in Hlen. auto.
  - destruct (List.find (fun seg => 5 <? len seg) _) as [seg|] eqn:E2.
    + apply find_holds in E2 as [Hin Hlen]. apply Z.ltb_lt in Hlen.
      split; [lia | auto].
    + split; [reflexivity | auto].
Qed.

Lemma last_items_two (pre : list string) (x y : string) :
  last_items 2 (pre ++ [x; y]) = [x; y].
Proof.
  unfold last_items. rewrite length_app. cbn [length].
  replace (length pre + 2 - 2)%nat with (length pre) by lia.
  apply drop_app_length.
Qed.

Lemma split_nonempty sep s : split sep s <> [].
Proof.
  destruct s as [|c r]; cbn [split]; [discriminate|].
  destruct (Ascii.eqb c sep); [discriminate|].
  destruct (split sep r); discriminate.
Qed.

(** The comma-separated segments the location is read from. *)
Definition segments_of (affiliation : string) : list string :=
  map strip (split "," (sub_email affiliation)).

(** X16. [extract_location_from_affiliation] returns the empty string for
    an empty affiliation and for one that is a single segment; for any
    other it returns the last two trimmed segments joined by [", "],
    whatever they are (the one-segment branch of the source is never
    taken). *)
Theorem extract_location_last_two (affiliation : string) :
  extract_location_from_affiliation "" = "" /\
  (forall only, segments_of affiliation = [only] ->
     extract_location_from_affiliation affiliation = "") /\
  (forall pre x y, affiliation <> "" ->
     segments_of affiliation = pre ++ [x; y] ->
     extract_location_from_affiliation affiliation = x +:+ ", " +:+ y) /\
  segments_of affiliation <> [].
Proof.
  unfold segments_of.
  split; [reflexivity|]. split; [|split].
  - intros only Hone. unfold extract_location_from_affiliation.
    destruct (String.eqb affiliation ""); [reflexivity|].
    cbv zeta. rewrite Hone. reflexivity.
  - intros pre x y Hne Htwo. unfold extract_location_from_affiliation.
    destruct (String.eqb_spec affiliation "") as [|_]; [contradiction|].
    cbv zeta. rewrite Htwo.
    assert (Hlen : (2 <=? length (pre ++ [x; y]))%nat = true).
    { apply Nat.leb_le. rewrite length_app. simpl. lia. }
    rewrite Hlen, last_items_two. reflexivity.
  - intros Hnil. apply map_eq_nil in Hnil.
    exact (split_nonempty _ _ Hnil).
Qed.

End ExtractMore.

(** ** Properties of the cache store *)

Module CacheFacts.
Import CacheManager.

(** *** Dicts as item lists *)

Definition keys (d : queries) : list string := map fst d.

Lemma dict_get_Some_elem k e (d : queries) :
  dict_get k d = Some e -> (k, e) ∈ d.
Proof.
  unfold dict_get. destruct (List.find _ d) as [[k' e']|] eqn:E; [|discriminate].
  intros [= <-]. apply find_some in E as [Hin Hk].
  apply String.eqb_eq in Hk. simpl in Hk. subst k'.
  apply list_elem_of_In. exact Hin.
Qed.

Lemma dict_get_elem k e (d : queries) :
  NoDup (keys d) -> (k, e) ∈ d -> dict_get k d = Some e.
Proof.
  unfold dict_get, keys. induction d as [|[k' e'] d IH]; intros Hnd Hin.
  - inversion Hin.
  - simpl. apply NoDup_cons in Hnd as [Hk' Hnd].
    destruct (String.eqb_spec k' k) as [->|Hne].
    + apply elem_of_cons in Hin as [[= <-]|Hin]; [reflexivity|].
      exfalso. apply Hk'. apply list_elem_of_fmap. exists (k, e). auto.
    + apply elem_of_cons in Hin as [[= -> ->]|Hin]; [congruence|].
      apply IH; assumption.
Qed.

Lemma dict_get_None k (d : queries) :
  k ∉ keys d -> dict_get k d = None.
Proof.
  intros Hk. destruct (dict_get k d) as [e|] eqn:E; [|reflexivity].
  exfalso. apply Hk. apply dict_get_Some_elem in E.
  apply list_elem_of_fmap. exists (k, e). auto.
Qed.

(** Deleting a list of keys one by one filters the items. *)
Lemma dict_del_all (ks : list string) : forall d : queries,
  foldl (fun d key => dict_del key d) d ks
  = List.filter (fun item => negb (existsb (String.eqb (fst item)) ks)) d.
Proof.
  induction ks as [|k ks IH]; intros d; simpl.
  - induction d as [|item d IHd]; simpl; [reflexivity|]. f_equal. exact IHd.
  - rewrite IH. unfold dict_del. clear IH.
    induction d as [|item d IHd]; simpl; [reflexivity|].
    destruct (String.eqb (fst item) k); simpl; [exact IHd|].
    destruct (existsb _ ks); simpl; [exact IHd | f_equal; exact IHd].
Qed.

Lemma dict_set_length k e (d : queries) :
  (length (dict_set k e d) <= S (length d))%nat.
Proof.
  induction d as [|item d IH]; simpl; [lia|].
  destruct (String.eqb (fst item) k); simpl; lia.
Qed.

(** *** The stable sort *)

Lemma insert_newest_first_perm x (d : queries) :
  Permutation (insert_newest_first x d) (x :: d).
Proof.
  induction d as [|y d IH]; simpl; [reflexivity|].
  destruct (String.leb _ _); [reflexivity|].
  rewrite IH. apply perm_swap.
Qed.

Lemma sorted_newest_first_perm (d : queries) :
  Permutation (sorted_newest_first d) d.
Proof.
  induction d as [|x d IH]; simpl; [reflexivity|].
  rewrite insert_newest_first_perm. constructor. exact IH.
Qed.

Lemma sorted_newest_first_length (d : queries) :
  length (sorted_newest_first d) = length d.
Proof. apply Permutation_length, sorted_newest_first_perm. Qed.

(** *** The manager's steps *)

Section ManagerFacts.

Variable clock : nat -> Z.
Variable isoformat : Z -> string.
Variable fromisoformat : string -> option Z.
Variable json_size : cache -> Z.
Variable expiry_days : Z.

(** The items the sweep leaves for the clock reading [t]. *)
Definition swept (t : Z) (items : queries) : queries :=
  foldl (fun d key => dict_del key d) items
    (expired_keys fromisoformat expiry_days t items).

Definition is_dict (m : meta) : Prop := exists md, m = MetaDict md.

(** Unfolds the monad of the manager in the goal. *)
Ltac run :=
  cbv beta iota zeta
    delta [mbind M_bind ret now_iso now getsize cache_file_exists];
  cbn [tick disk fst snd].

Lemma update_metadata_dict u (c : cache) :
  is_dict (cache_meta c) ->
  exists md, update_metadata u c = Ok (set_meta (MetaDict md) c).
Proof. intros [md Hmd]. unfold update_metadata. rewrite Hmd. eauto. Qed.

Lemma update_metadata_queries u (c c' : cache) :
  update_metadata u c = Ok c' ->
  search_queries c' = search_queries c /\ is_dict (cache_meta c').
Proof.
  unfold update_metadata. destruct (cache_meta c); intros [= <-].
  split; [reflexivity | eexists; reflexivity].
Qed.

(** The sweep: the disk is untouched; when it returns, the dict holds the
    swept items; and it returns whenever the metadata is a dict. *)
Lemma cleanup_spec (c : cache) (items : queries) (w : world) :
  search_queries c = Some items ->
  exists r w',
    _cleanup_expired_entries clock isoformat fromisoformat expiry_days (Some c) w
    = (r, w') /\
    disk w' = disk w /\
    (forall c', r = Ok c' ->
       search_queries c' = Some (swept (clock (tick w)) items) /\
       (is_dict (cache_meta c) -> is_dict (cache_meta c'))) /\
    (is_dict (cache_meta c) -> exists c', r = Ok c').
Proof.
  intros Hq. unfold _cleanup_expired_entries. rewrite Hq. run.
  fold (swept (clock (tick w)) items).
  destruct (expired_keys fromisoformat expiry_days (clock (tick w)) items)
    as [|k ks] eqn:Hexp.
  - eexists _, _. split; [reflexivity|]. split; [reflexivity|].
    split; [|eauto]. intros c' [= <-]. split; [reflexivity|auto].
  - eexists _, _. split; [reflexivity|]. split; [reflexivity|]. split.
    + intros c' H.
      destruct (update_metadata _ (set_queries _ c)) as [c1|] eqn:E1;
        [|discriminate].
      cbn [result_bind] in H.
      apply update_metadata_queries in E1 as [Hq1 _].
      apply update_metadata_queries in H as [Hq2 Hd2].
      split; [rewrite Hq2, Hq1; reflexivity | auto].
    + intros Hd.
      edestruct (update_metadata_dict) as [md Hmd];
        [|rewrite Hmd; cbn [result_bind]]; [exact Hd|].
      edestruct (update_metadata_dict) as [md' Hmd'];
        [|rewrite Hmd'; eauto]. eexists; reflexivity.
Qed.

(** The trim: the disk is untouched, the dict holds the [keep_count] items
    with the newest time stamps whether or not the call raises, and it does
    not raise when the metadata is a dict. *)
Lemma remove_oldest_spec (c : cache) (items : queries) (n : nat) (w : world) :
  search_queries c = Some items ->
  exists c' e w',
    _remove_oldest_entries clock isoformat c n w = ((c', e), w') /\
    disk w' = disk w /\
    search_queries c' = Some (take n (sorted_newest_first items)) /\
    (is_dict (cache_meta c) -> is_dict (cache_meta c') /\ e = None).
Proof.
  intros Hq. unfold _remove_oldest_entries. rewrite Hq.
  destruct (update_metadata _ (set_queries _ c)) as [c1|e1] eqn:E1.
  - run. apply update_metadata_queries in E1 as [Hq1 Hd1].
    destruct (update_metadata _ c1) as [c2|e2] eqn:E2.
    + apply update_metadata_queries in E2 as [Hq2 Hd2].
      eexists _, _, _. split; [reflexivity|]. split; [reflexivity|].
      split; [rewrite Hq2, Hq1; reflexivity|]. auto.
    + eexists _, _, _. split; [reflexivity|]. split; [reflexivity|].
      split; [rewrite Hq1; reflexivity|]. intros _. exfalso.
      destruct (update_metadata_dict
                  (with_last_cleanup (isoformat (clock (tick w)))) c1 Hd1)
        as [md Hmd].
      congruence.
  - run. eexists _, _, _. split; [reflexivity|]. split; [reflexivity|].
    split; [reflexivity|]. intros Hd. exfalso.
    edestruct (update_metadata_dict) as [md Hmd]; [|rewrite Hmd in E1];
      [exact Hd | discriminate].
Qed.

Lemma take_sorted_length (items : queries) (n : nat) :
  (length (take n (sorted_newest_first items)) <= n)%nat.
Proof. rewrite length_take. lia. Qed.

(** The size limits: the disk is untouched; when the step returns, the dict
    holds at most [MAX_CACHE_ENTRIES] items, either the ones it had or the
    newest of them; and it returns whenever the count was within the limit
    or the metadata is a dict. *)
Lemma trim_if_file_too_large_spec (f : faults) (c : cache) (items : queries)
    (w : world) :
  search_queries c = Some items ->
  exists c1 w1,
    trim_if_file_too_large clock isoformat f c w = (c1, w1) /\
    disk w1 = disk w /\
    (c1 = c \/
     (search_queries c1
      = Some (take MAX_CACHE_ENTRIES (sorted_newest_first items)) /\
      (is_dict (cache_meta c) -> is_dict (cache_meta c1)))).
Proof.
  intros Hq. unfold trim_if_file_too_large, getsize, mbind at 1, M_bind at 1.
  destruct (cache_file (disk w)) as [file|];
    [|eexists _, _; split; [reflexivity|]; split; [reflexivity|auto]].
  destruct (getsize_fails f);
    [eexists _, _; split; [reflexivity|]; split; [reflexivity|auto]|].
  destruct (_ <? size file);
    [|eexists _, _; split; [reflexivity|]; split; [reflexivity|auto]].
  destruct (remove_oldest_spec c items MAX_CACHE_ENTRIES w Hq)
    as (c' & e & w' & Hrun & Hdisk & Hq' & Hd').
  unfold mbind, M_bind, ret. rewrite Hrun. cbn [fst].
  eexists _, _. split; [reflexivity|]. split; [exact Hdisk|].
  right. split; [exact Hq'|]. intros Hd. apply Hd'. exact Hd.
Qed.

Lemma enforce_spec (f : faults) (c : cache) (items : queries) (w : world) :
  search_queries c = Some items ->
  exists r w',
    _enforce_size_limits clock isoformat f c w = (r, w') /\
    disk w' = disk w /\
    (forall c', r = Ok c' ->
       exists items',
         search_queries c' = Some items' /\
         (length items' <= MAX_CACHE_ENTRIES)%nat /\
         (items' = items \/
          items' = take MAX_CACHE_ENTRIES (sorted_newest_first items)) /\
         (is_dict (cache_meta c) -> is_dict (cache_meta c'))) /\
    ((length items <= MAX_CACHE_ENTRIES)%nat \/ is_dict (cache_meta c) ->
     exists c', r = Ok c').
Proof.
  intros Hq. unfold _enforce_size_limits. rewrite Hq.
  unfold mbind at 1, M_bind at 1.
  destruct (trim_if_file_too_large_spec f c items w Hq)
    as (c1 & w1 & -> & Hdisk1 & Hc1).
  assert (Hq1 : exists items1,
    search_queries c1 = Some items1 /\
    (items1 = items \/
     items1 = take MAX_CACHE_ENTRIES (sorted_newest_first items)) /\
    ((length items <= MAX_CACHE_ENTRIES)%nat ->
     (length items1 <= MAX_CACHE_ENTRIES)%nat) /\
    (is_dict (cache_meta c) -> is_dict (cache_meta c1))).
  { destruct Hc1 as [->|[Hq1 Hd1]].
    - exists items. auto.
    - eexists. split; [exact Hq1|]. split; [auto|]. split; [|exact Hd1].
      intros _. apply take_sorted_length. }
  destruct Hq1 as (items1 & Hq1 & Hitems1 & Hlen1 & Hd1).
  unfold entry_count. rewrite Hq1. cbn [default from_option id].
  destruct (Nat.ltb_spec MAX_CACHE_ENTRIES (length items1)) as [Hgt|Hle].
  - destruct (remove_oldest_spec c1 items1 MAX_CACHE_ENTRIES w1 Hq1)
      as (c' & e & w' & Hrun & Hdisk & Hq' & Hd').
    unfold mbind, M_bind, ret. rewrite Hrun. cbn [fst snd].
    eexists _, _. split; [reflexivity|].
    split; [rewrite Hdisk; exact Hdisk1|]. split.
    + intros c2 H. destruct e; [discriminate|]. injection H as <-.
      destruct Hitems1 as [->| ->].
      * eexists. split; [exact Hq'|]. split; [apply take_sorted_length|].
        split; [auto|]. intros Hd. apply Hd', Hd1, Hd.
      * exfalso. pose proof (take_sorted_length items MAX_CACHE_ENTRIES). lia.
    + intros [Hlen|Hd]; [apply Hlen1 in Hlen; lia|].
      destruct (Hd' (Hd1 Hd)) as [_ ->]. eauto.
  - unfold ret. eexists _, _. split; [reflexivity|].
    split; [exact Hdisk1|]. split; [|eauto].
    intros c2 [= <-]. exists items1. auto.
Qed.

(** *** What the sweep removes *)

(** The test the sweep applies to an entry for the clock reading [t]: the
    time stamp is not empty and does not parse to an instant within the
    expiry window. *)
Definition sweep_removes (t : Z) (e : entry) : Prop :=
  timestamp_str e <> "" /\
  older_than_expiry fromisoformat expiry_days t (timestamp_str e)
  <> Some false.

Lemma expired_keys_elem (t : Z) (items : queries) (k : string) :
  k ∈ expired_keys fromisoformat expiry_days t items <->
  exists e, (k, e) ∈ items /\ sweep_removes t e.
Proof.
  unfold sweep_removes. induction items as [|[k' e'] items IH].
  - split; [intros H; inversion H | intros (e & H & _); inversion H].
  - cbn [expired_keys].
    destruct (String.eqb_spec (timestamp_str e') "") as [Hs|Hs]; cbn [negb].
    + rewrite IH. split.
      * intros (e & Hin & He). exists e. split; [|exact He].
        apply elem_of_cons. auto.
      * intros (e & [[= -> ->]|Hin]%elem_of_cons & He & Hold);
          [contradiction|eauto].
    + destruct (older_than_expiry _ _ t (timestamp_str e')) as [[|]|] eqn:Eo.
      * rewrite elem_of_cons, IH. split.
        -- intros [->|(e & Hin & He)].
           ++ exists e'. split; [constructor|]. rewrite Eo. split; congruence.
           ++ exists e. split; [apply elem_of_cons; auto | exact He].
        -- intros (e & [[= -> ->]|Hin]%elem_of_cons & He); [auto|eauto].
      * rewrite IH. split.
        -- intros (e & Hin & He). exists e. split; [|exact He].
           apply elem_of_cons. auto.
        -- intros (e & [[= -> ->]|Hin]%elem_of_cons & He & Hold);
             [congruence|eauto].
      * rewrite elem_of_cons, IH. split.
        -- intros [->|(e & Hin & He)].
           ++ exists e'. split; [constructor|]. rewrite Eo. split; congruence.
           ++ exists e. split; [apply elem_of_cons; auto | exact He].
        -- intros (e & [[= -> ->]|Hin]%elem_of_cons & He); [auto|eauto].
Qed.

Lemma existsb_eqb_elem (k : string) (ks : list string) :
  existsb (String.eqb k) ks = true <-> k ∈ ks.
Proof.
  rewrite existsb_exists, list_elem_of_In. split.
  - intros (k' & Hin & ->%String.eqb_eq). exact Hin.
  - intros Hin. exists k. split; [exact Hin | apply String.eqb_refl].
Qed.

(** The swept items: those whose key the sweep did not mark. *)
Lemma swept_elem (t : Z) (items : queries) (item : string * entry) :
  item ∈ swept t items <->
  item ∈ items /\ fst item ∉ expired_keys fromisoformat expiry_days t items.
Proof.
  unfold swept. rewrite dict_del_all. split.
  - intros Hin. apply list_elem_of_In, filter_In in Hin as [Hin Hk].
    split; [apply list_elem_of_In; exact Hin|].
    intros Hex. apply existsb_eqb_elem in Hex. rewrite Hex in Hk.
    discriminate.
  - intros [Hin Hk]. apply list_elem_of_In, filter_In.
    split; [apply list_elem_of_In; exact Hin|].
    apply negb_true_iff. apply not_true_is_false.
    intros Hex. apply Hk, existsb_eqb_elem. exact Hex.
Qed.

Lemma filter_keys_NoDup (p : string * entry -> bool) (d : queries) :
  NoDup (keys d) -> NoDup (keys (List.filter p d)).
Proof.
  unfold keys. induction d as [|item d IH]; intros Hnd; [constructor|].
  apply NoDup_cons in Hnd as [Hk Hnd]. simpl.
  destruct (p item); [|auto]. simpl. apply NoDup_cons. split; [|auto].
  intros Hin. apply Hk. apply list_elem_of_fmap in Hin as (it & -> & Hin).
  apply list_elem_of_fmap. exists it. split; [reflexivity|].
  apply list_elem_of_In in Hin. apply filter_In in Hin as [Hin _].
  apply list_elem_of_In. exact Hin.
Qed.

Lemma swept_NoDup (t : Z) (items : queries) :
  NoDup (keys items) -> NoDup (keys (swept t items)).
Proof. unfold swept. rewrite dict_del_all. apply filter_keys_NoDup. Qed.

Lemma swept_length (t : Z) (items : queries) :
  (length (swept t items) <= length items)%nat.
Proof. unfold swept. rewrite dict_del_all. apply filter_length_le. Qed.

(** With distinct keys, an entry that the sweep does not remove is kept
    under its key and one that it removes is gone. *)
Lemma swept_keeps (t : Z) (items : queries) k e :
  NoDup (keys items) -> (k, e) ∈ items -> ~ sweep_removes t e ->
  (k, e) ∈ swept t items.
Proof.
  intros Hnd Hin Hkeep. apply swept_elem. split; [exact Hin|].
  cbn [fst]. intros (e' & Hin' & Hrem)%expired_keys_elem.
  assert (e' = e) as ->; [|contradiction].
  apply dict_get_elem in Hin; [|exact Hnd].
  apply dict_get_elem in Hin'; [|exact Hnd]. congruence.
Qed.

Lemma swept_removes (t : Z) (items : queries) k e :
  (k, e) ∈ items -> sweep_removes t e -> k ∉ keys (swept t items).
Proof.
  intros Hin Hrem (item & -> & Hitem)%list_elem_of_fmap.
  apply swept_elem in Hitem as [_ Hk]. apply Hk.
  apply expired_keys_elem. eauto.
Qed.

(** *** Loading *)

Definition is_empty_store (c : cache) : Prop :=
  exists created_at cleanup_at, c = empty_cache created_at cleanup_at.

Lemma create_empty_spec (w : world) :
  exists c w',
    _create_empty_cache clock isoformat w = (c, w') /\
    disk w' = disk w /\ is_empty_store c.
Proof.
  unfold _create_empty_cache. run.
  eexists _, _. split; [reflexivity|]. split; [reflexivity|].
  eexists _, _. reflexivity.
Qed.

Lemma empty_store_count (c : cache) :
  is_empty_store c -> entry_count c = 0%nat.
Proof. intros (t1 & t2 & ->). reflexivity. Qed.

(** What a successful load shows of the cache dict [c0] of the file, for the
    clock reading [t] of the sweep: the swept items, trimmed to the newest
    [MAX_CACHE_ENTRIES] when the size limits fired. *)
Definition view_of (t : Z) (c0 c : cache) : Prop :=
  match search_queries c0 with
  | None => c = c0
  | Some items =>
      exists items',
        search_queries c = Some items' /\
        (length items' <= MAX_CACHE_ENTRIES)%nat /\
        (items' = swept t items \/
         items' = take MAX_CACHE_ENTRIES (sorted_newest_first (swept t items)))
  end.

(** The quarantine of the cache file [file] at the instant [t]: the file
    is kept under the second of [t], in place of a backup made in that
    same second; the other backups stay. *)
Definition quarantined (t : Z) (file : file) (d : fs) : fs :=
  {| cache_file := None; temp_file := temp_file d;
     corrupted :=
       (backup_second t, file)
       :: List.filter (fun backup => negb (fst backup =? backup_second t))
            (corrupted d) |}.

(** Every outcome of [load_cache]. The disk is as it was, unless the file
    did not parse and was renamed aside; the dict returned is a fresh empty
    store or a view of the dict in the file. *)
Lemma load_cache_spec (f : faults) (w : world) :
  exists c w',
    load_cache clock isoformat fromisoformat expiry_days f w = (c, w') /\
    (disk w' = disk w \/
     exists file,
       cache_file (disk w) = Some file /\ content file = Unparsable /\
       read_fails f = false /\ backup_rename_fails f = false /\
       disk w' = quarantined (clock (tick w)) file (disk w)) /\
    (is_empty_store c \/
     exists file c0,
       cache_file (disk w) = Some file /\ content file = Document c0 /\
       read_fails f = false /\ view_of (clock (tick w)) c0 c).
Proof.
  unfold load_cache, cache_file_exists. unfold mbind at 1, M_bind at 1.
  destruct (cache_file (disk w)) as [file|] eqn:Hfile.
  2:{ rewrite bool_decide_eq_false_2 by (intros [? ?]; discriminate).
      cbn [negb].
      destruct (create_empty_spec w) as (c & w' & -> & Hdisk & Hempty).
      eexists _, _. split; [reflexivity|]. auto. }
  rewrite bool_decide_eq_true_2 by eauto. cbn [negb].
  unfold mbind at 1, M_bind at 1, load_body, read_cache_file.
  unfold mbind at 1, M_bind at 1. rewrite Hfile.
  destruct (read_fails f) eqn:Hread.
  { unfold ret.
    destruct (create_empty_spec w) as (c & w' & -> & Hdisk & Hempty).
    eexists _, _. split; [reflexivity|]. auto. }
  destruct (content file) as [| | |c0|] eqn:Hcontent.
  - (* the file does not parse *)
    unfold ret, _backup_corrupted_cache, cache_file_exists.
    run. rewrite Hfile. rewrite bool_decide_eq_true_2 by eauto.
    unfold rename_to_backup. cbn [disk].
    destruct (backup_rename_fails f) eqn:Hrename.
    + match goal with |- context [_create_empty_cache _ _ ?w0] =>
        destruct (create_empty_spec w0) as (c & w' & E & Hdisk & Hempty) end.
      unfold _create_empty_cache in E. revert E. run. intros E.
      eexists _, _. split; [exact E|]. auto.
    + rewrite Hfile.
      match goal with |- context [_create_empty_cache _ _ ?w0] =>
        destruct (create_empty_spec w0) as (c & w' & E & Hdisk & Hempty) end.
      unfold _create_empty_cache in E. revert E. run. intros E.
      eexists _, _. split; [exact E|]. split; [|auto].
      right. exists file. rewrite Hdisk. auto.
  - (* not a dict *)
    destruct (create_empty_spec w) as (c & w' & E & Hdisk & Hempty).
    unfold mbind, M_bind, ret. rewrite E.
    eexists _, _. split; [reflexivity|]. auto.
  - (* the queries are not a dict of dicts *)
    unfold _cleanup_expired_entries. run.
    match goal with |- context [_create_empty_cache _ _ ?w0] =>
      destruct (create_empty_spec w0) as (c & w' & E & Hdisk & Hempty) end.
    unfold _create_empty_cache in E. revert E. run. intros E.
    eexists _, _. split; [exact E|]. auto.
  - (* a cache dict *)
    destruct (search_queries c0) as [items|] eqn:Hq.
    + destruct (cleanup_spec c0 items w Hq)
        as (r & w1 & Hclean & Hdisk1 & Hok & _).
      unfold mbind at 1, M_bind at 1. rewrite Hclean. destruct r as [c1|e].
      * destruct (Hok c1 eq_refl) as [Hq1 _].
        destruct (enforce_spec f c1 _ w1 Hq1)
          as (r2 & w2 & Henf & Hdisk2 & Hok2 & _).
        rewrite Henf. destruct r2 as [c2|e].
        -- unfold ret. eexists _, _. split; [reflexivity|].
           split; [left; congruence|]. right. exists file, c0.
           split; [reflexivity|]. split; [exact Hcontent|].
           split; [reflexivity|]. unfold view_of. rewrite Hq.
           destruct (Hok2 c2 eq_refl) as (items' & ? & ? & ? & _). eauto.
        -- assert (Hrest : exists c w',
             match e with
             | JSONDecodeError =>
                 _ ← _backup_corrupted_cache clock f;
                 _create_empty_cache clock isoformat
             | _ => _create_empty_cache clock isoformat
             end w2 = (c, w') /\ disk w' = disk w2 /\ is_empty_store c).
           { destruct e; try apply create_empty_spec.
             (* [_enforce_size_limits] raises what [update_metadata] does *)
             exfalso. revert Henf. unfold _enforce_size_limits.
             rewrite Hq1. unfold mbind at 1, M_bind at 1.
             destruct (trim_if_file_too_large clock isoformat f c1 w1)
               as [c1' w1'].
             destruct (_ <? _)%nat; [|discriminate].
             unfold mbind, M_bind, ret, _remove_oldest_entries.
             destruct (search_queries c1'); [|discriminate].
             unfold update_metadata.
             destruct (cache_meta (set_queries _ c1')) eqn:Em;
               try discriminate; try (rewrite Em; discriminate). }
           destruct Hrest as (c & w' & -> & Hdisk' & Hempty).
           eexists _, _. split; [reflexivity|].
           split; [left; congruence|auto].
      * assert (Hrest : exists c w',
          match e with
          | JSONDecodeError =>
              _ ← _backup_corrupted_cache clock f;
              _create_empty_cache clock isoformat
          | _ => _create_empty_cache clock isoformat
          end w1 = (c, w') /\ disk w' = disk w1 /\ is_empty_store c).
        { destruct e; try apply create_empty_spec.
          exfalso. revert Hclean. unfold _cleanup_expired_entries.
          rewrite Hq. run.
          destruct (expired_keys _ _ _ _); [discriminate|].
          unfold update_metadata at 2.
          destruct (cache_meta (set_queries _ c0)) eqn:Em;
            try discriminate;
            cbn [result_bind]; unfold update_metadata;
            cbn [cache_meta set_meta]; discriminate. }
        destruct Hrest as (c & w' & E & Hdisk' & Hempty).
        unfold ret at 1. cbv beta iota. rewrite E.
        eexists _, _. split; [reflexivity|].
        split; [left; congruence|auto].
    + unfold _cleanup_expired_entries. rewrite Hq. run.
      unfold _enforce_size_limits. rewrite Hq. run.
      eexists _, _. split; [reflexivity|]. split; [auto|].
      right. exists file, c0. unfold view_of. rewrite Hq. auto.
  - (* the bytes are not text *)
    destruct (create_empty_spec w) as (c & w' & E & Hdisk & Hempty).
    unfold ret. rewrite E.
    eexists _, _. split; [reflexivity|]. auto.
Qed.

(** A cache dict with well-formed metadata always loads: no step raises. *)
Lemma load_cache_document (f : faults) (w : world) (file : file) (c0 : cache) :
  cache_file (disk w) = Some file -> content file = Document c0 ->
  read_fails f = false -> is_dict (cache_meta c0) ->
  exists c w',
    load_cache clock isoformat fromisoformat expiry_days f w = (c, w') /\
    disk w' = disk w /\ view_of (clock (tick w)) c0 c /\
    is_dict (cache_meta c).
Proof.
  intros Hfile Hcontent Hread Hd.
  unfold load_cache, cache_file_exists. unfold mbind at 1, M_bind at 1.
  rewrite Hfile, bool_decide_eq_true_2 by eauto. cbn [negb].
  unfold mbind at 1, M_bind at 1, load_body, read_cache_file.
  unfold mbind at 1, M_bind at 1. rewrite Hfile, Hread, Hcontent.
  destruct (search_queries c0) as [items|] eqn:Hq.
  - destruct (cleanup_spec c0 items w Hq)
      as (r & w1 & Hclean & Hdisk1 & Hok & Hsure).
    unfold mbind at 1, M_bind at 1. rewrite Hclean.
    destruct (Hsure Hd) as [c1 ->].
    destruct (Hok c1 eq_refl) as [Hq1 Hd1]. specialize (Hd1 Hd).
    destruct (enforce_spec f c1 _ w1 Hq1)
      as (r2 & w2 & Henf & Hdisk2 & Hok2 & Hsure2).
    rewrite Henf. destruct (Hsure2 (or_intror Hd1)) as [c2 ->].
    unfold ret. eexists _, _. split; [reflexivity|].
    split; [congruence|]. unfold view_of. rewrite Hq.
    destruct (Hok2 c2 eq_refl) as (items' & ? & ? & ? & Hd2).
    split; [eauto | exact (Hd2 Hd1)].
  - unfold _cleanup_expired_entries. rewrite Hq. run.
    unfold _enforce_size_limits. rewrite Hq. run.
    eexists _, _. split; [reflexivity|]. split; [reflexivity|].
    unfold view_of. rewrite Hq. auto.
Qed.

(** A view holds only swept items, and all of them when they were within
    the limit. *)
Lemma view_items_swept t (c0 c : cache) items items' :
  view_of t c0 c -> search_queries c0 = Some items ->
  search_queries c = Some items' ->
  forall item, item ∈ items' -> item ∈ swept t items.
Proof.
  unfold view_of. intros Hv Hq Hq'. rewrite Hq in Hv.
  destruct Hv as (items1 & Hq1 & _ & Hitems). rewrite Hq' in Hq1.
  injection Hq1 as <-. destruct Hitems as [->| ->]; [auto|].
  intros item Hin. apply elem_of_take in Hin as (i & Hi & _).
  apply list_elem_of_lookup_2 in Hi.
  rewrite <- (sorted_newest_first_perm (swept t items)). exact Hi.
Qed.

Lemma view_items_all t (c0 c : cache) items items' :
  view_of t c0 c -> search_queries c0 = Some items ->
  search_queries c = Some items' ->
  (length items <= MAX_CACHE_ENTRIES)%nat ->
  Permutation items' (swept t items).
Proof.
  unfold view_of. intros Hv Hq Hq' Hlen. rewrite Hq in Hv.
  destruct Hv as (items1 & Hq1 & _ & Hitems). rewrite Hq' in Hq1.
  injection Hq1 as <-. destruct Hitems as [->| ->]; [reflexivity|].
  rewrite take_ge; [apply sorted_newest_first_perm|].
  rewrite sorted_newest_first_length.
  pose proof (swept_length t items). lia.
Qed.

(** A file that does not parse: the caller gets an empty store, and the
    file is renamed aside unless the rename itself fails. *)
Lemma load_cache_unparsable (f : faults) (w : world) (file : file) :
  cache_file (disk w) = Some file -> content file = Unparsable ->
  read_fails f = false ->
  exists c w',
    load_cache clock isoformat fromisoformat expiry_days f w = (c, w') /\
    is_empty_store c /\
    disk w' = if backup_rename_fails f then disk w
              else quarantined (clock (tick w)) file (disk w).
Proof.
  intros Hfile Hcontent Hread.
  destruct (load_cache_spec f w) as (c & w' & Hload & Hdisk & Hview).
  exists c, w'. split; [exact Hload|]. split.
  { destruct Hview as [?|(file' & c0 & Hf & Hc & _)]; [assumption|].
    rewrite Hfile in Hf. injection Hf as <-. congruence. }
  revert Hload. unfold load_cache, cache_file_exists.
  unfold mbind at 1, M_bind at 1.
  rewrite Hfile, bool_decide_eq_true_2 by eauto. cbn [negb].
  unfold mbind at 1, M_bind at 1, load_body, read_cache_file.
  unfold mbind at 1, M_bind at 1. rewrite Hfile, Hread, Hcontent.
  unfold ret, _backup_corrupted_cache, cache_file_exists, _create_empty_cache.
  run. rewrite Hfile, bool_decide_eq_true_2 by eauto.
  unfold rename_to_backup. cbn [disk].
  destruct (backup_rename_fails f).
  - run. intros [= _ <-]. reflexivity.
  - rewrite Hfile. run. intros [= _ <-]. reflexivity.
Qed.

(** *** Saving *)

(** [save_cache] returns [True] exactly when the temporary file was written
    and moved onto the cache file, which then holds the dict with its
    queries; otherwise the cache file is as it was. *)
Lemma save_cache_spec (f : faults) (c : cache) (w : world) :
  exists b w',
    save_cache clock isoformat json_size f c w = (b, w') /\
    (b = true ->
     write_fault f = NoFault /\ replace_fault f = NoFault /\
     cache_meta c <> MetaBad /\
     exists c',
       cache_file (disk w')
       = Some {| content := Document c'; size := json_size c' |} /\
       search_queries c' = search_queries c) /\
    (b = false -> cache_file (disk w') = cache_file (disk w)) /\
    (forall e w1,
       save_body clock isoformat json_size f c w = (Raise e, w1) ->
       b = false).
Proof.
  unfold save_cache, save_body, update_metadata, write_temp_file,
    replace_cache_file, remove_temp_file.
  destruct (cache_meta c) as [| |md] eqn:Hmeta;
    run; cbn; try rewrite Hmeta; run; cbn;
    destruct (write_fault f) eqn:Hwrite;
    destruct (replace_fault f) eqn:Hreplace;
    destruct (write_leaves_partial f);
    destruct (remove_fails f);
    run; cbn;
    destruct (temp_file (disk w));
    run; cbn;
    eexists _, _;
    (split; [reflexivity|]);
    (split; [try discriminate;
             intros _; repeat (split; [congruence|]);
             eexists; split; reflexivity|]);
    (split; [try discriminate; intros _; reflexivity|]);
    intros e w1 H; try reflexivity; discriminate H.
Qed.

(** *** Lookups and writes *)

Lemma entry_count_load (f : faults) (w : world) :
  (entry_count (fst (load_cache clock isoformat fromisoformat expiry_days f w))
   <= MAX_CACHE_ENTRIES)%nat.
Proof.
  destruct (load_cache_spec f w) as (c & w' & -> & _ & Hview). cbn [fst].
  destruct Hview as [Hempty|(file & c0 & _ & _ & _ & Hview)].
  - rewrite (empty_store_count c Hempty). lia.
  - unfold view_of in Hview. unfold entry_count.
    destruct (search_queries c0) as [items|] eqn:Hq.
    + destruct Hview as (items' & -> & Hlen & _). exact Hlen.
    + subst c. rewrite Hq. simpl. lia.
Qed.

(** An entry that the sweep removes is not served, and the lookup leaves
    the disk as it was: the entry stays in the file. *)
Lemma get_expired_not_served (f : faults) (w : world) (file : file)
    (c0 : cache) (items : queries) (k : string) (e : entry) :
  cache_file (disk w) = Some file -> content file = Document c0 ->
  search_queries c0 = Some items -> (k, e) ∈ items ->
  sweep_removes (clock (tick w)) e ->
  exists w',
    get_cached_results clock isoformat fromisoformat json_size expiry_days
      f k w = (None, w') /\
    disk w' = disk w.
Proof.
  intros Hfile Hcontent Hq Hin Hrem. unfold get_cached_results.
  unfold mbind at 1, M_bind at 1.
  destruct (load_cache_spec f w) as (c & w1 & -> & Hdisk & Hview).
  assert (Hsame : disk w1 = disk w).
  { destruct Hdisk as [?|(file' & Hf & Hc & _)]; [assumption|].
    rewrite Hfile in Hf. injection Hf as <-. congruence. }
  assert (Hmiss : dict_get k (default [] (search_queries c)) = None).
  { destruct Hview as [(t1 & t2 & ->)|(file' & c0' & Hf & Hc & _ & Hview)];
      [reflexivity|].
    rewrite Hfile in Hf. injection Hf as <-.
    rewrite Hcontent in Hc. injection Hc as <-.
    pose proof Hview as Hview'. unfold view_of in Hview'. rewrite Hq in Hview'.
    destruct Hview' as (items' & Hq' & _). rewrite Hq'. cbn [default from_option id].
    apply dict_get_None. intros (item & -> & Hitem)%list_elem_of_fmap.
    apply (view_items_swept _ _ _ _ _ Hview Hq Hq') in Hitem.
    apply (swept_removes _ _ _ _ Hin Hrem).
    apply list_elem_of_fmap. eauto. }
  rewrite Hmiss. unfold ret. eauto.
Qed.

(** An entry with an empty time stamp is served from a store that loads and
    holds no more entries than the limit, whatever the clock reads. *)
Lemma get_empty_timestamp_served (f : faults) (w : world) (file : file)
    (c0 : cache) (items : queries) (k : string) (e : entry) :
  cache_file (disk w) = Some file -> content file = Document c0 ->
  read_fails f = false -> is_dict (cache_meta c0) ->
  search_queries c0 = Some items -> NoDup (keys items) ->
  (length items <= MAX_CACHE_ENTRIES)%nat ->
  dict_get k items = Some e -> timestamp_str e = "" ->
  exists w',
    get_cached_results clock isoformat fromisoformat json_size expiry_days
      f k w = (Some (default [] (results e)), w') /\
    disk w' = disk w.
Proof.
  intros Hfile Hcontent Hread Hd Hq Hnd Hlen Hget Hstamp.
  unfold get_cached_results. unfold mbind at 1, M_bind at 1.
  destruct (load_cache_document f w file c0 Hfile Hcontent Hread Hd)
    as (c & w1 & -> & Hdisk & Hview & _).
  pose proof Hview as Hview'. unfold view_of in Hview'. rewrite Hq in Hview'.
  destruct Hview' as (items' & Hq' & _). rewrite Hq'. cbn [default from_option id].
  pose proof (view_items_all _ _ _ _ _ Hview Hq Hq' Hlen) as Hperm.
  assert (Hget' : dict_get k items' = Some e).
  { apply dict_get_elem.
    - unfold keys. rewrite Hperm. apply swept_NoDup. exact Hnd.
    - rewrite Hperm. apply swept_keeps; [exact Hnd| |].
      + apply dict_get_Some_elem. exact Hget.
      + intros [Hne _]. contradiction. }
  rewrite Hget', Hstamp. cbn [String.eqb negb]. unfold ret. eauto.
Qed.

(** A write that reports success leaves a file with at most one entry more
    than the limit: the limit is applied when the store is loaded, before
    the new entry goes in. *)
Lemma put_persists_at_most_one_over (f : faults) (k : string)
    (payload : list lead) (w w' : world) :
  save_query_results clock isoformat fromisoformat json_size expiry_days
    f k payload w = (true, w') ->
  exists c,
    cache_file (disk w')
    = Some {| content := Document c; size := json_size c |} /\
    (entry_count c <= S MAX_CACHE_ENTRIES)%nat.
Proof.
  unfold save_query_results. unfold mbind at 1, M_bind at 1.
  pose proof (entry_count_load f w) as Hcount.
  destruct (load_cache clock isoformat fromisoformat expiry_days f w)
    as [c w1]. cbn [fst] in Hcount. run.
  match goal with |- save_cache _ _ _ _ ?c1 ?w2 = _ -> _ =>
    destruct (save_cache_spec f c1 w2) as (b & w3 & -> & Htrue & _) end.
  intros [= -> <-]. destruct (Htrue eq_refl) as (_ & _ & _ & c' & Hfile & Hq).
  exists c'. split; [exact Hfile|].
  unfold entry_count in *. rewrite Hq. cbn [search_queries set_queries].
  cbn [default from_option id].
  pose proof (dict_set_length k
    {| timestamp := Some (isoformat (clock (tick w1)));
       results := Some payload;
       count := Some (Z.of_nat (length payload)) |}
    (default [] (search_queries c))).
  unfold default in *. lia.
Qed.

(** The trim keeps the newest: it never drops an entry whose time stamp is
    above that of an entry it keeps. *)
Lemma insert_newest_first_sorted x (d : queries) :
  StronglySorted (fun a b => String.le (timestamp_str (snd b))
                                       (timestamp_str (snd a))) d ->
  StronglySorted (fun a b => String.le (timestamp_str (snd b))
                                       (timestamp_str (snd a)))
    (insert_newest_first x d).
Proof.
  induction 1 as [|y d Hd IH Hy]; cbn [insert_newest_first].
  - repeat constructor.
  - destruct (String.leb _ _) eqn:Hle.
    + constructor; [constructor; assumption|].
      constructor; [unfold String.le; rewrite Hle; exact I|].
      eapply Forall_impl; [exact Hy|]. cbn beta. intros z Hz.
      etrans; [exact Hz|]. unfold String.le. rewrite Hle. exact I.
    + assert (Hxy : String.le (timestamp_str (snd x)) (timestamp_str (snd y))).
      { destruct (total String.le (timestamp_str (snd x))
                    (timestamp_str (snd y))) as [?|Hyx]; [assumption|].
        unfold String.le in Hyx. rewrite Hle in Hyx. contradiction. }
      constructor; [exact IH|].
      rewrite insert_newest_first_perm. constructor; assumption.
Qed.

Lemma sorted_newest_first_sorted (d : queries) :
  StronglySorted (fun a b => String.le (timestamp_str (snd b))
                                       (timestamp_str (snd a)))
    (sorted_newest_first d).
Proof.
  induction d as [|x d IH]; cbn [sorted_newest_first foldr]; [constructor|].
  apply insert_newest_first_sorted. exact IH.
Qed.

Lemma trim_keeps_newest (n : nat) (d : queries) (kept dropped : string * entry) :
  kept ∈ take n (sorted_newest_first d) ->
  dropped ∈ drop n (sorted_newest_first d) ->
  String.le (timestamp_str (snd dropped)) (timestamp_str (snd kept)).
Proof.
  intros Hk Hd. pose proof (sorted_newest_first_sorted d) as Hs.
  rewrite <- (take_drop n (sorted_newest_first d)) in Hs.
  exact (StronglySorted_app_1_elem_of _ _ _ kept dropped Hs Hk Hd).
Qed.

End ManagerFacts.

End CacheFacts.

(** ** A concrete clock and calendar for the examples *)

Module SampleEnv.
Import CacheManager.

(** 2024-01-01T00:00:00 and 2020-01-01T00:00:00 in microseconds since the
    epoch. *)
Definition start_2024 : Z := 1704067200000000.
Definition start_2020 : Z := 1577836800000000.

(** The clock is read once a second from the start of 2024. *)
Definition sample_clock (n : nat) : Z := start_2024 + Z.of_nat n * 1000000.

Definition two_digits (n : Z) : string :=
  if n <? 10 then "0" +:+ pretty n else pretty n.

(** [isoformat] of an instant in the first hour of 2024 that falls on a
    whole second. *)
Definition sample_isoformat (t : Z) : string :=
  let seconds := (t - start_2024) / 1000000 in
  "2024-01-01T00:" +:+ two_digits (seconds / 60) +:+ ":"
    +:+ two_digits (seconds mod 60).

Definition two_digit_value (a b : ascii) : option Z :=
  if isdigit a && isdigit b then Some (10 * digit_val a + digit_val b)
  else None.

(** [fromisoformat] on the stamps that [sample_isoformat] writes and on the
    first instant of 2020; other strings do not parse. *)
Definition sample_fromisoformat (s : string) : option Z :=
  if String.eqb s "2020-01-01T00:00:00" then Some start_2020
  else if starts_with "2024-01-01T00:" s then
    match string_drop 14 s with
    | String m1 (String m2 (String ":" (String s1 (String s2 EmptyString)))) =>
        match two_digit_value m1 m2, two_digit_value s1 s2 with
        | Some m, Some sec =>
            if (m <? 60) && (sec <? 60)
            then Some (start_2024 + (60 * m + sec) * 1000000)
            else None
        | _, _ => None
        end
    | _ => None
    end
  else None.

(** A stand-in for the size of the JSON text: a hundred bytes of frame and
    two hundred per entry. *)
Definition sample_json_size (c : cache) : Z :=
  100 + 200 * Z.of_nat (entry_count c).

Definition empty_disk : fs :=
  {| cache_file := None; temp_file := None; corrupted := [] |}.

Definition fresh_world : world := {| disk := empty_disk; tick := 0 |}.

End SampleEnv.

(** ** The cache store: failure handling, expiry and limits *)

Module CacheClaims.
Import CacheManager CacheFacts SampleEnv.

Section Failures.

Variable clock : nat -> Z.
Variable isoformat : Z -> string.
Variable fromisoformat : string -> option Z.
Variable json_size : cache -> Z.
Variable expiry_days : Z.

(** Whatever the body of [load_cache] raises, the caller gets an empty
    store. *)
Lemma load_body_raise_empty (f : faults) (w w1 : world) (e : exn) :
  load_body clock isoformat fromisoformat expiry_days f w = (Raise e, w1) ->
  is_empty_store
    (fst (load_cache clock isoformat fromisoformat expiry_days f w)).
Proof.
  intros Hbody. unfold load_cache, cache_file_exists.
  unfold mbind at 1, M_bind at 1.
  destruct (bool_decide (is_Some (cache_file (disk w)))); cbn [negb].
  - unfold mbind at 1, M_bind at 1. rewrite Hbody.
    destruct e;
      try (destruct (create_empty_spec clock isoformat w1)
             as (c & w' & -> & _ & Hc); exact Hc).
    unfold mbind, M_bind.
    destruct (_backup_corrupted_cache clock f w1) as [u w2].
    destruct (create_empty_spec clock isoformat w2) as (c & w' & -> & _ & Hc).
    exact Hc.
  - destruct (create_empty_spec clock isoformat w) as (c & w' & -> & _ & Hc).
    exact Hc.
Qed.

End Failures.

(** *** Failures of the load *)

(** A file fails to parse when its text is not JSON or its bytes are not
    text. *)
Definition fails_to_parse (c : file_content) : Prop :=
  c = Unparsable \/ c = Undecodable.

(** The quarantine as the specification words it: after the load, a file
    that failed to parse is no longer the cache file and is among the files
    set aside. *)
Definition parse_failure_is_quarantined (clock : nat -> Z)
    (isoformat : Z -> string) (fromisoformat : string -> option Z)
    (expiry_days : Z) : Prop :=
  forall (f : faults) (w : world) (file : file),
    cache_file (disk w) = Some file -> fails_to_parse (content file) ->
    let w' := snd (load_cache clock isoformat fromisoformat expiry_days f w) in
    cache_file (disk w') = None /\
    exists second, (second, file) ∈ corrupted (disk w').

(** A store of the wrong shape read as a load failure: a dict whose
    ['metadata'] is not a dict comes back as the empty store. *)
Definition wrong_shape_gives_empty_store (clock : nat -> Z)
    (isoformat : Z -> string) (fromisoformat : string -> option Z)
    (expiry_days : Z) : Prop :=
  forall (f : faults) (w : world) (file : file) (c0 : cache),
    cache_file (disk w) = Some file -> content file = Document c0 ->
    cache_meta c0 = MetaBad ->
    is_empty_store
      (fst (load_cache clock isoformat fromisoformat expiry_days f w)).

Definition one_result : list lead := [{["name" := VStr "Jane Doe"]}].

(** A cache file whose bytes are not UTF-8 text, one whose text is not
    JSON, and a dict whose ['metadata'] is a string. *)
Definition binary_file : file := {| content := Undecodable; size := 17 |}.

Definition garbled_file : file := {| content := Unparsable; size := 17 |}.

Definition misshapen_store : cache :=
  {| version := Some "1.0"; created := Some "2024-01-01T00:00:00";
     search_queries := Some []; cache_meta := MetaBad |}.

Definition world_holding (file : file) : world :=
  {| disk := {| cache_file := Some file; temp_file := None;
                corrupted := [] |};
     tick := 0 |}.

Definition binary_world : world := world_holding binary_file.
Definition garbled_world : world := world_holding garbled_file.

(** The environment in which the rename to the backup name fails. *)
Definition rename_refused : faults :=
  {| read_fails := false; getsize_fails := false;
     backup_rename_fails := true; write_fault := NoFault;
     write_leaves_partial := false; replace_fault := NoFault;
     remove_fails := false |}.

(** The disk after a first write that follows the load of [w]. *)
Definition after_first_write (f : faults) (w : world) : fs :=
  disk (snd (save_query_results sample_clock sample_isoformat
               sample_fromisoformat sample_json_size CACHE_EXPIRY_DAYS
               f "dili_20_5" one_result w)).

(** Whether the cache file of the disk holds a cache dict. *)
Definition holds_a_store (d : fs) : bool :=
  match cache_file d with
  | Some {| content := Document _ |} => true
  | _ => false
  end.

(** The claim fails on the code in three places. A file whose bytes are
    not text fails to parse and is not renamed aside: the load leaves it in
    place, and the first write replaces it, nothing having been set aside.
    The same happens to a file whose text is not JSON when the rename to
    the backup name fails. And a dict whose ['metadata'] is not a dict is
    handed to the caller as it is, not as the empty store. *)
Lemma unparsed_file_is_overwritten :
  ~ parse_failure_is_quarantined sample_clock sample_isoformat
      sample_fromisoformat CACHE_EXPIRY_DAYS /\
  (disk (snd (load_cache sample_clock sample_isoformat sample_fromisoformat
                CACHE_EXPIRY_DAYS no_faults binary_world))
   = disk binary_world /\
   holds_a_store (after_first_write no_faults binary_world) = true /\
   corrupted (after_first_write no_faults binary_world) = []) /\
  (disk (snd (load_cache sample_clock sample_isoformat sample_fromisoformat
                CACHE_EXPIRY_DAYS rename_refused garbled_world))
   = disk garbled_world /\
   holds_a_store (after_first_write rename_refused garbled_world) = true /\
   corrupted (after_first_write rename_refused garbled_world) = []) /\
  ~ wrong_shape_gives_empty_store sample_clock sample_isoformat
      sample_fromisoformat CACHE_EXPIRY_DAYS.
Proof.
  split; [|split; [|split]].
  - intros H.
    destruct (H no_faults binary_world binary_file eq_refl
                (or_intror eq_refl)) as [Hgone _].
    vm_compute in Hgone. discriminate Hgone.
  - vm_compute. repeat split.
  - vm_compute. repeat split.
  - intros H.
    specialize (H no_faults (world_holding {| content := Document misshapen_store;
                                              size := 100 |})
                  _ misshapen_store eq_refl eq_refl eq_refl).
    vm_compute in H. destruct H as (t1 & t2 & H). discriminate H.
Qed.

(** C8, as the code has it. [load_cache] hands the caller a dict in every
    case: a missing file, a file that cannot be read, whose bytes are not
    text or whose text is not JSON, a JSON value that is not a dict or
    whose queries are not a dict of dicts, and any exception raised while
    loading all yield the empty store; a dict is validated no further, so
    what the caller gets is the empty store or the dict of the file after
    the sweep and the trim. A file that was read and is not JSON is renamed
    aside when the rename succeeds, under a name stamped to the second, in
    place of a backup of that same second, and stays where it is when the
    rename fails; loading never writes the cache file. [save_cache] answers
    with a boolean: [True] when the dict was written and moved onto the
    cache file, [False], the cache file left as it was, whenever a step
    raised. *)
Theorem load_and_save_never_raise (clock : nat -> Z) (isoformat : Z -> string)
    (fromisoformat : string -> option Z) (json_size : cache -> Z)
    (expiry_days : Z) (f : faults) (w : world) :
  (exists c w',
     load_cache clock isoformat fromisoformat expiry_days f w = (c, w') /\
     (forall e w1,
        load_body clock isoformat fromisoformat expiry_days f w
        = (Raise e, w1) ->
        is_empty_store c) /\
     (cache_file (disk w) = None -> is_empty_store c) /\
     (forall file,
        cache_file (disk w) = Some file ->
        read_fails f = true \/ content file = Undecodable \/
        content file = Unparsable \/
        content file = NotADict \/ content file = BadQueries ->
        is_empty_store c) /\
     (is_empty_store c \/
      exists file c0,
        cache_file (disk w) = Some file /\ content file = Document c0 /\
        read_fails f = false /\
        view_of fromisoformat expiry_days (clock (tick w)) c0 c) /\
     (forall file,
        cache_file (disk w) = Some file -> content file = Unparsable ->
        read_fails f = false ->
        disk w' = if backup_rename_fails f then disk w
                  else quarantined (clock (tick w)) file (disk w)) /\
     (cache_file (disk w') = cache_file (disk w) \/
      cache_file (disk w') = None)) /\
  (forall c,
     exists b w',
       save_cache clock isoformat json_size f c w = (b, w') /\
       (b = true ->
        exists c',
          cache_file (disk w')
          = Some {| content := Document c'; size := json_size c' |} /\
          search_queries c' = search_queries c) /\
       (b = false -> cache_file (disk w') = cache_file (disk w)) /\
       (forall e w1,
          save_body clock isoformat json_size f c w = (Raise e, w1) ->
          b = false)).
Proof.
  split.
  - destruct (load_cache_spec clock isoformat fromisoformat expiry_days f w)
      as (c & w' & Hload & Hdisk & Hview).
    exists c, w'. split; [exact Hload|].
    split.
    { intros e w1 Hbody.
      pose proof (load_body_raise_empty clock isoformat fromisoformat
                    expiry_days f w w1 e Hbody) as H.
      rewrite Hload in H. exact H. }
    split.
    { intros Hnone. destruct Hview as [?|(file & c0 & Hf & _)];
        [assumption | congruence]. }
    split.
    { intros file Hfile Hbad.
      destruct Hview as [?|(file' & c0 & Hf & Hc & Hr & _)]; [assumption|].
      rewrite Hfile in Hf. injection Hf as <-.
      destruct Hbad as [?|[?|[?|[?|?]]]]; congruence. }
    split; [exact Hview|].
    split.
    { intros file Hfile Hcontent Hread.
      destruct (load_cache_unparsable clock isoformat fromisoformat
                  expiry_days f w file Hfile Hcontent Hread)
        as (c1 & w1 & Hload1 & _ & Hd).
      rewrite Hload in Hload1. injection Hload1 as -> ->. exact Hd. }
    destruct Hdisk as [->|(file & _ & _ & _ & _ & ->)]; auto.
  - intros c.
    destruct (save_cache_spec clock isoformat json_size f c w)
      as (b & w' & Hsave & Htrue & Hfalse & Hraise).
    exists b, w'. split; [exact Hsave|]. split; [|auto].
    intros Hb. destruct (Htrue Hb) as (_ & _ & _ & H). exact H.
Qed.

Lemma load_and_save_never_raise_witness :
  cache_file (disk garbled_world) = Some garbled_file /\
  content garbled_file = Unparsable /\
  read_fails no_faults = false /\
  exists c w',
    load_cache sample_clock sample_isoformat sample_fromisoformat
      CACHE_EXPIRY_DAYS no_faults garbled_world = (c, w') /\
    disk w' = quarantined (sample_clock 0) garbled_file (disk garbled_world).
Proof.
  split; [reflexivity|]. split; [reflexivity|]. split; [reflexivity|].
  destruct (load_and_save_never_raise sample_clock sample_isoformat
              sample_fromisoformat sample_json_size CACHE_EXPIRY_DAYS
              no_faults garbled_world)
    as [(c & w' & Hload & _ & _ & _ & _ & Hq & _) _].
  exists c, w'. split; [exact Hload|].
  exact (Hq garbled_file eq_refl eq_refl eq_refl).
Defined.

(** Two files set aside within one second: the second backup takes the
    name of the first, which is lost. *)
Lemma same_second_backup_is_replaced (t : Z) (earlier later : file) (d : fs) :
  earlier <> later ->
  ~ In (backup_second t, earlier)
       (corrupted (quarantined t later (quarantined t earlier d))).
Proof.
  intros Hne Hin. unfold quarantined in Hin. cbn [corrupted In] in Hin.
  destruct Hin as [Heq|Hin]; [injection Heq as ->; exact (Hne eq_refl)|].
  apply filter_In in Hin as [_ Hkept]. cbn [fst] in Hkept.
  rewrite Z.eqb_refl in Hkept. discriminate Hkept.
Qed.

(** *** Expiry *)


Definition well_formed_meta (n : Z) : meta :=
  MetaDict {| total_queries := Some n;
              last_cleanup := Some "2020-01-01T00:00:00";
              last_updated := Some "2020-01-01T00:00:00" |}.

Definition store_of (items : queries) : cache :=
  {| version := Some "1.0"; created := Some "2020-01-01T00:00:00";
     search_queries := Some items;
     cache_meta := well_formed_meta (Z.of_nat (length items)) |}.

Definition world_with (items : queries) : world :=
  {| disk := {| cache_file := Some {| content := Document (store_of items);
                                      size := sample_json_size (store_of items) |};
                temp_file := None; corrupted := [] |};
     tick := 0 |}.

(** An entry written on the first day of 2020, read four years later. *)
Definition stale_entry : entry :=
  {| timestamp := Some "2020-01-01T00:00:00"; results := Some one_result;
     count := Some 1 |}.

Definition stale_world : world := world_with [("dili_20_5", stale_entry)].

(** C7. The claim has an expired entry removed from the persisted store by
    the lookup or by the sweep at load. The lookup does answer [None], but
    the file is as before and still holds the entry: the sweep works on the
    dict in memory, and the lookup then returns at "key not found", before
    its own delete-and-save branch. *)
Theorem expired_entry_stays_on_disk :
  sample_clock 0 - start_2020 > CACHE_EXPIRY_DAYS * microseconds_per_day /\
  fst (get_cached_results sample_clock sample_isoformat sample_fromisoformat
         sample_json_size CACHE_EXPIRY_DAYS no_faults "dili_20_5" stale_world)
  = None /\
  disk (snd (get_cached_results sample_clock sample_isoformat
               sample_fromisoformat sample_json_size CACHE_EXPIRY_DAYS
               no_faults "dili_20_5" stale_world))
  = disk stale_world /\
  cache_file (disk stale_world)
  = Some {| content := Document (store_of [("dili_20_5", stale_entry)]);
            size := 300 |}.
Proof. vm_compute. repeat split. Qed.

(** *** Entries without a time stamp *)

(** The exemption read as unconditional: a store that loads serves every
    entry whose time stamp is empty. *)
Definition empty_timestamp_always_served (clock : nat -> Z)
    (isoformat : Z -> string) (fromisoformat : string -> option Z)
    (json_size : cache -> Z) (expiry_days : Z) : Prop :=
  forall (f : faults) (w : world) (file : file) (c0 : cache)
         (items : queries) (k : string) (e : entry),
    cache_file (disk w) = Some file -> content file = Document c0 ->
    read_fails f = false -> is_dict (cache_meta c0) ->
    search_queries c0 = Some items -> NoDup (keys items) ->
    dict_get k items = Some e -> timestamp_str e = "" ->
    fst (get_cached_results clock isoformat fromisoformat json_size
           expiry_days f k w)
    = Some (default [] (results e)).

Definition unstamped_entry : entry :=
  {| timestamp := Some ""; results := Some one_result; count := Some 1 |}.

Definition fresh_entry : entry :=
  {| timestamp := Some "2024-01-01T00:00:00"; results := Some one_result;
     count := Some 1 |}.

(** Fifty-one entries: one without a time stamp and fifty written at the
    instant of the lookup. *)
Definition crowded_items : queries :=
  ("q0", unstamped_entry)
  :: map (fun n => ("q" +:+ pretty n, fresh_entry)) (seq 1 50).

(** With fifty-one entries the trim at load drops the entry without a time
    stamp, which sorts as the oldest, and the lookup answers [None]. *)
Lemma crowded_store_drops_unstamped_entry :
  ~ empty_timestamp_always_served sample_clock sample_isoformat
      sample_fromisoformat sample_json_size CACHE_EXPIRY_DAYS.
Proof.
  intros H.
  specialize (H no_faults (world_with crowded_items) _ _ crowded_items "q0"
                unstamped_entry eq_refl eq_refl eq_refl).
  assert (Hnd : NoDup (keys crowded_items)).
  { apply (bool_decide_unpack _). vm_compute. exact I. }
  specialize (H (ex_intro _ _ eq_refl) eq_refl Hnd eq_refl eq_refl).
  vm_compute in H. discriminate H.
Qed.

(** C10, as the code has it. An entry whose time stamp is empty is exempt
    from expiry: for every clock reading the sweep neither marks its key nor
    removes it, and only entries with a non-empty time stamp are marked;
    [get_cached_results] serves its payload, whatever the clock reads and
    however long the expiry window, from a store that loads (the file reads,
    the metadata is a dict) and holds no more than [MAX_CACHE_ENTRIES]
    entries, so that the trim at load, to which an empty time stamp is the
    oldest, leaves it in. *)
Theorem empty_timestamp_exempt_from_expiry (clock : nat -> Z)
    (isoformat : Z -> string) (fromisoformat : string -> option Z)
    (json_size : cache -> Z) (expiry_days : Z) :
  (forall t items k e,
     NoDup (keys items) -> (k, e) ∈ items -> timestamp_str e = "" ->
     (k ∉ expired_keys fromisoformat expiry_days t items) /\
     (k, e) ∈ swept fromisoformat expiry_days t items) /\
  (forall t items k,
     k ∈ expired_keys fromisoformat expiry_days t items ->
     exists e, (k, e) ∈ items /\ timestamp_str e <> "") /\
  (forall (f : faults) (w : world) (file : file) (c0 : cache)
          (items : queries) (k : string) (e : entry),
     cache_file (disk w) = Some file -> content file = Document c0 ->
     read_fails f = false -> is_dict (cache_meta c0) ->
     search_queries c0 = Some items -> NoDup (keys items) ->
     (length items <= MAX_CACHE_ENTRIES)%nat ->
     dict_get k items = Some e -> timestamp_str e = "" ->
     exists w',
       get_cached_results clock isoformat fromisoformat json_size
         expiry_days f k w
       = (Some (default [] (results e)), w') /\
       disk w' = disk w).
Proof.
  split; [|split].
  - intros t items k e Hnd Hin Hstamp.
    assert (Hkeep : ~ sweep_removes fromisoformat expiry_days t e)
      by (intros [Hne _]; contradiction).
    pose proof (swept_keeps fromisoformat expiry_days t items k e Hnd Hin Hkeep)
      as Hswept.
    split; [|exact Hswept].
    apply swept_elem in Hswept as [_ Hk]. exact Hk.
  - intros t items k (e & Hin & Hne & _)%expired_keys_elem. eauto.
  - intros f w file c0 items k e. apply get_empty_timestamp_served.
Qed.

(** A single entry without a time stamp, in a store last touched in 2020. *)
Lemma empty_timestamp_exempt_from_expiry_witness :
  cache_file (disk (world_with [("q0", unstamped_entry)]))
  = Some {| content := Document (store_of [("q0", unstamped_entry)]);
            size := 300 |} /\
  NoDup (keys [("q0", unstamped_entry)]) /\
  (length [("q0", unstamped_entry)] <= MAX_CACHE_ENTRIES)%nat /\
  exists w',
    get_cached_results sample_clock sample_isoformat sample_fromisoformat
      sample_json_size CACHE_EXPIRY_DAYS no_faults "q0"
      (world_with [("q0", unstamped_entry)])
    = (Some one_result, w') /\
    disk w' = disk (world_with [("q0", unstamped_entry)]).
Proof.
  assert (Hnd : NoDup (keys [("q0", unstamped_entry)])).
  { apply NoDup_cons. split; [intros H; inversion H | constructor]. }
  assert (Hlen : (length [("q0", unstamped_entry)] <= MAX_CACHE_ENTRIES)%nat).
  { unfold MAX_CACHE_ENTRIES. simpl. lia. }
  split; [reflexivity|]. split; [exact Hnd|]. split; [exact Hlen|].
  exact (proj2 (proj2 (empty_timestamp_exempt_from_expiry sample_clock
                         sample_isoformat sample_fromisoformat
                         sample_json_size CACHE_EXPIRY_DAYS))
           no_faults (world_with [("q0", unstamped_entry)]) _ _
           [("q0", unstamped_entry)] "q0" unstamped_entry
           eq_refl eq_refl eq_refl (ex_intro _ _ eq_refl) eq_refl
           Hnd Hlen eq_refl eq_refl).
Defined.

(** *** The limits *)

Definition query_keys (n : nat) : list string :=
  map (fun i => "q" +:+ pretty i) (seq 0 n).

(** [save_query_results] for each key in turn, with one record to store:
    the answers and the world after the last write. *)
Definition put_all (json_size : cache -> Z) (ks : list string) (w : world)
    : list bool * world :=
  foldl (fun st k =>
           let r := save_query_results sample_clock sample_isoformat
                      sample_fromisoformat json_size CACHE_EXPIRY_DAYS
                      no_faults k one_result (snd st) in
           (fst st ++ [fst r], snd r))
    ([], w) ks.

Definition persisted (w : world) : option (nat * Z) :=
  match cache_file (disk w) with
  | Some {| content := Document c; size := bytes |} =>
      Some (entry_count c, bytes)
  | _ => None
  end.

(** The text of every store takes 300 MB: a stand-in for a payload of that
    size. *)
Definition huge_json_size (c : cache) : Z := 300000000.

(** C2. The claim bounds the persisted store after every write by
    [MAX_CACHE_ENTRIES] entries and [MAX_CACHE_SIZE_MB] megabytes. Fifty-one
    writes under distinct keys to an empty store all succeed and leave
    fifty-one entries in the file, one more than the limit of fifty that
    [get_cache_info] then reports; and a store whose text takes 300 MB is
    written and kept at that size, above the limit of 100 MB. The limits
    are applied when the store is loaded, before the new entry goes in, and
    the size check trims by entry count only. *)
Theorem writes_exceed_the_limits :
  fst (put_all sample_json_size (query_keys 51) fresh_world)
  = repeat true 51 /\
  persisted (snd (put_all sample_json_size (query_keys 51) fresh_world))
  = Some (51%nat, 10300) /\
  (MAX_CACHE_ENTRIES < 51)%nat /\
  fst (info_total_queries sample_clock sample_isoformat sample_fromisoformat
         CACHE_EXPIRY_DAYS no_faults
         (snd (put_all sample_json_size (query_keys 51) fresh_world)))
  = 50 /\
  fst (put_all huge_json_size (query_keys 2) fresh_world) = [true; true] /\
  persisted (snd (put_all huge_json_size (query_keys 2) fresh_world))
  = Some (2%nat, 300000000) /\
  300000000 > MAX_CACHE_SIZE_MB * (1024 * 1024).
Proof.
  repeat match goal with |- _ /\ _ => split end;
    first [vm_compute; reflexivity | unfold MAX_CACHE_ENTRIES; lia].
Qed.

End CacheClaims.

(** ** More on the cache store: saving, lookups, writes and clearing *)

Module CacheMore.
Import CacheManager CacheFacts SampleEnv.

(** *** The dict operations *)

Lemma dict_get_set_same k e (d : queries) :
  dict_get k (dict_set k e d) = Some e.
Proof.
  unfold dict_get.
  induction d as [|[k' e'] rest IH]; cbn [dict_set List.find fst].
  - rewrite String.eqb_refl. reflexivity.
  - destruct (String.eqb k' k) eqn:E; cbn [List.find fst].
    + rewrite String.eqb_refl. reflexivity.
    + rewrite E. exact IH.
Qed.

Lemma dict_get_set_other k k' e (d : queries) :
  k' <> k -> dict_get k' (dict_set k e d) = dict_get k' d.
Proof.
  intros Hne. unfold dict_get.
  induction d as [|[k0 e0] rest IH]; cbn [dict_set List.find fst].
  - destruct (String.eqb_spec k k'); [congruence | reflexivity].
  - destruct (String.eqb_spec k0 k) as [->|Hk0]; cbn [List.find fst].
    + destruct (String.eqb_spec k k'); [congruence | reflexivity].
    + destruct (String.eqb k0 k'); [reflexivity | exact IH].
Qed.

Lemma dict_del_removes k (d : queries) : k ∉ keys (dict_del k d).
Proof.
  unfold keys, dict_del. intros (item & -> & Hin)%list_elem_of_fmap.
  apply list_elem_of_In, filter_In in Hin as [_ Hne].
  rewrite String.eqb_refl in Hne. discriminate.
Qed.

Lemma dict_get_del_other k k' (d : queries) :
  k' <> k -> dict_get k' (dict_del k d) = dict_get k' d.
Proof.
  intros Hne. unfold dict_get, dict_del.
  induction d as [|[k0 e0] rest IH]; cbn [List.filter List.find fst];
    [reflexivity|].
  destruct (String.eqb_spec k0 k) as [->|Hk0]; cbn [negb List.find fst].
  - destruct (String.eqb_spec k k'); [congruence | exact IH].
  - destruct (String.eqb k0 k'); [reflexivity | exact IH].
Qed.

Lemma dict_mem_keys k (d : queries) : dict_mem k d = true <-> k ∈ keys d.
Proof.
  unfold dict_mem, keys. rewrite existsb_exists, list_elem_of_fmap. split.
  - intros (item & Hin & Hk). apply String.eqb_eq in Hk.
    exists item. split; [congruence | apply list_elem_of_In; exact Hin].
  - intros (item & -> & Hin). exists item.
    split; [apply list_elem_of_In; exact Hin | apply String.eqb_refl].
Qed.

(** The dict in the cache file, when the file exists and holds one. *)
Definition stored_dict (w : world) : option cache :=
  match cache_file (disk w) with
  | Some file =>
      match content file with
      | Document c => Some c
      | _ => None
      end
  | None => None
  end.

Section Operations.

Variable clock : nat -> Z.
Variable isoformat : Z -> string.
Variable fromisoformat : string -> option Z.
Variable json_size : cache -> Z.
Variable expiry_days : Z.

Ltac run :=
  cbv beta iota zeta
    delta [mbind M_bind ret now_iso now getsize cache_file_exists];
  cbn [tick disk fst snd].

(** The file that holds the dict [c]. *)
Definition file_of (c : cache) : file :=
  {| content := Document c; size := json_size c |}.

(** The dict [save_cache] writes for [c] at the instant [t]: [c] with the
    entry count and the time of the save in its metadata. *)
Definition stamped (md : metadata) (c : cache) (t : Z) : Prop :=
  total_queries md = Some (Z.of_nat (entry_count c)) /\
  last_updated md = Some (isoformat t).

Lemma save_cache_outcome (f : faults) (c : cache) (w : world) :
  exists b w',
    save_cache clock isoformat json_size f c w = (b, w') /\
    (b = true ->
     exists md,
       stamped md c (clock (tick w)) /\
       disk w'
       = {| cache_file := Some (file_of (set_meta (MetaDict md) c));
            temp_file := None; corrupted := corrupted (disk w) |}) /\
    (b = false ->
     cache_file (disk w') = cache_file (disk w) /\
     corrupted (disk w') = corrupted (disk w)).
Proof.
  unfold save_cache, save_body, update_metadata, write_temp_file,
    replace_cache_file, remove_temp_file, file_of, stamped.
  destruct (cache_meta c) as [| |md] eqn:Hmeta;
    run; cbn; try rewrite Hmeta; run; cbn;
    destruct (write_fault f) eqn:Hwrite;
    destruct (replace_fault f) eqn:Hreplace;
    destruct (write_leaves_partial f);
    destruct (remove_fails f);
    run; cbn;
    destruct (temp_file (disk w));
    run; cbn;
    eexists _, _;
    (split; [reflexivity|]);
    (split; [try discriminate;
             intros _; eexists; (split; [|reflexivity]); split; reflexivity
            |]);
    try discriminate; intros _; split; reflexivity.
Qed.

(** X17. [save_cache] replaces the cache file as a whole or not at all.
    When it answers [True], the file holds the dict it was given, with the
    number of its entries in ['total_queries'] and the time of the save in
    ['last_updated'], and the temporary file is gone; when it answers
    [False], the cache file is what it was before the call. *)
Theorem save_is_all_or_nothing (f : faults) (c : cache) (w : world) :
  let r := save_cache clock isoformat json_size f c w in
  (fst r = true ->
   exists md,
     total_queries md = Some (Z.of_nat (entry_count c)) /\
     last_updated md = Some (isoformat (clock (tick w))) /\
     cache_file (disk (snd r)) = Some (file_of (set_meta (MetaDict md) c)) /\
     temp_file (disk (snd r)) = None) /\
  (fst r = false -> cache_file (disk (snd r)) = cache_file (disk w)) /\
  corrupted (disk (snd r)) = corrupted (disk w).
Proof.
  cbv zeta.
  destruct (save_cache_outcome f c w) as (b & w' & -> & Htrue & Hfalse).
  cbn [fst snd]. split; [|split].
  - intros ->. destruct (Htrue eq_refl) as (md & [Htot Hupd] & Hdisk).
    exists md. rewrite Hdisk. auto.
  - intros ->. exact (proj1 (Hfalse eq_refl)).
  - destruct b.
    + destruct (Htrue eq_refl) as (md & _ & ->). reflexivity.
    + exact (proj2 (Hfalse eq_refl)).
Qed.

(** X18. The ['total_queries'] that [get_cache_info] reports is never
    negative and never above [MAX_CACHE_ENTRIES], whatever the file holds:
    it counts the entries of the loaded dict, after the sweep and the
    trim. *)
Theorem reported_total_within_limit (f : faults) (w : world) :
  0 <= fst (info_total_queries clock isoformat fromisoformat expiry_days f w)
    <= Z.of_nat MAX_CACHE_ENTRIES.
Proof.
  enough (H : exists m : nat,
             fst (info_total_queries clock isoformat fromisoformat
                    expiry_days f w) = Z.of_nat m /\
             (m <= MAX_CACHE_ENTRIES)%nat)
    by (destruct H as (m & -> & Hm); lia).
  unfold info_total_queries, cache_file_exists, getsize.
  unfold mbind at 1, M_bind at 1.
  destruct (bool_decide (is_Some (cache_file (disk w))));
    [|exists 0%nat; split; [reflexivity | lia]].
  unfold mbind at 1, M_bind at 1.
  destruct (cache_file (disk w)) as [file|];
    [|exists 0%nat; split; [reflexivity | lia]].
  destruct (getsize_fails f); [exists 0%nat; split; [reflexivity | lia]|].
  unfold mbind, M_bind, ret.
  pose proof (entry_count_load clock isoformat fromisoformat expiry_days f w)
    as Hcount.
  destruct (load_cache clock isoformat fromisoformat expiry_days f w)
    as [c w1].
  cbn [fst] in *. exists (entry_count c). split; [reflexivity | exact Hcount].
Qed.

(** X19. [_remove_oldest_entries] keeps the newest: the dict it leaves
    holds [keep_count] of the items, or all of them when there are fewer;
    kept and dropped items together are the items it was given; and no
    dropped item has a time stamp above that of a kept one, in the order of
    strings in which the source compares the stamps. The disk is not
    touched. *)
Theorem remove_oldest_keeps_newest (c : cache) (items : queries)
    (keep_count : nat) (w : world) :
  search_queries c = Some items ->
  let r := _remove_oldest_entries clock isoformat c keep_count w in
  exists kept dropped,
    search_queries (fst (fst r)) = Some kept /\
    length kept = Nat.min keep_count (length items) /\
    kept ++ dropped ≡ₚ items /\
    (forall a b, a ∈ kept -> b ∈ dropped ->
       String.le (timestamp_str (snd b)) (timestamp_str (snd a))) /\
    disk (snd r) = disk w.
Proof.
  intros Hq. cbv zeta.
  destruct (remove_oldest_spec clock isoformat c items keep_count w Hq)
    as (c' & e & w' & -> & Hdisk & Hq' & _).
  cbn [fst snd].
  exists (take keep_count (sorted_newest_first items)),
    (drop keep_count (sorted_newest_first items)).
  split; [exact Hq'|]. split.
  { rewrite length_take, sorted_newest_first_length. reflexivity. }
  split; [rewrite take_drop; apply sorted_newest_first_perm|].
  split; [|exact Hdisk].
  intros a b Ha Hb. exact (trim_keeps_newest keep_count items a b Ha Hb).
Qed.

(** *** Lookups *)

Abbreviation load := (load_cache clock isoformat fromisoformat expiry_days).
Abbreviation lookup_results :=
  (get_cached_results clock isoformat fromisoformat json_size expiry_days).
Abbreviation window := (expiry_days * microseconds_per_day).

(** X20. A lookup serves only what the file holds and only what is not
    expired. When [get_cached_results] returns results, the cache file
    holds an entry under that key with these results, the time stamp of the
    entry is empty or parses to an instant within [expiry_days] of both
    clock readings it is tested against (the sweep at load and the test of
    the lookup), and the lookup has left the disk as it was. *)
Theorem served_results_are_stored_and_fresh (f : faults) (k : string)
    (w w' : world) (rs : list lead) :
  lookup_results f k w = (Some rs, w') ->
  disk w' = disk w /\
  exists file c0 items e,
    cache_file (disk w) = Some file /\ content file = Document c0 /\
    search_queries c0 = Some items /\ (k, e) ∈ items /\
    rs = default [] (results e) /\
    (timestamp_str e = "" \/
     exists d,
       fromisoformat (timestamp_str e) = Some d /\
       clock (tick w) - window <= d /\
       clock (tick (snd (load f w))) - window <= d).
Proof.
  intros H. unfold get_cached_results in H.
  unfold mbind at 1, M_bind at 1 in H.
  destruct (load_cache_spec clock isoformat fromisoformat expiry_days f w)
    as (c & w1 & Hload & Hdisk & Hview).
  rewrite Hload in H |- *. cbn [snd].
  destruct Hview as [(t1 & t2 & ->)|(file & c0 & Hfile & Hcontent & Hread & Hview)];
    [discriminate H|].
  assert (Hsame : disk w1 = disk w).
  { destruct Hdisk as [?|(file' & Hf & Hc & _)]; [assumption|].
    rewrite Hfile in Hf. injection Hf as <-. congruence. }
  destruct (search_queries c0) as [items|] eqn:Hq.
  2:{ unfold view_of in Hview. rewrite Hq in Hview. subst c.
      rewrite Hq in H. discriminate H. }
  pose proof Hview as Hview'. unfold view_of in Hview'. rewrite Hq in Hview'.
  destruct Hview' as (items' & Hq' & _). rewrite Hq' in H.
  cbn [default from_option id] in H.
  destruct (dict_get k items') as [e|] eqn:Hget; [|discriminate H].
  apply dict_get_Some_elem in Hget.
  apply (view_items_swept _ _ _ _ _ _ _ Hview Hq Hq') in Hget.
  apply swept_elem in Hget as [Hin Hkept]. cbn [fst] in Hkept.
  assert (Hnot : ~ sweep_removes fromisoformat expiry_days (clock (tick w)) e).
  { intros Hrem. apply Hkept. apply expired_keys_elem. eauto. }
  destruct (String.eqb_spec (timestamp_str e) "") as [Hstamp|Hstamp];
    cbn [negb] in H.
  - injection H as <- <-. split; [exact Hsame|].
    exists file, c0, items, e. auto 10.
  - destruct (fromisoformat (timestamp_str e)) as [d|] eqn:Hparse;
      [|discriminate H].
    revert H. run.
    destruct (d <? clock (tick w1) - window) eqn:Hold.
    { destruct (save_cache _ _ _ _ _ _) as [b w2]. discriminate. }
    intros [= <- <-]. split; [exact Hsame|].
    exists file, c0, items, e. repeat (split; [auto; fail|]).
    right. exists d. split; [exact Hparse|].
    split; [|apply Z.ltb_ge; exact Hold].
    destruct (Z.le_gt_cases (clock (tick w) - window) d) as [?|Hlt];
      [assumption|].
    exfalso. apply Hnot. split; [exact Hstamp|].
    unfold older_than_expiry. rewrite Hparse.
    apply Z.ltb_lt in Hlt. rewrite Hlt. discriminate.
Qed.

(** An entry within the expiry window is served from a store that loads
    and holds no more entries than the limit. *)
Lemma fresh_served (f : faults) (w : world) (file : file) (c0 : cache)
    (items : queries) (k : string) (e : entry) (d : Z) :
  cache_file (disk w) = Some file -> content file = Document c0 ->
  read_fails f = false -> is_dict (cache_meta c0) ->
  search_queries c0 = Some items -> NoDup (keys items) ->
  (length items <= MAX_CACHE_ENTRIES)%nat ->
  dict_get k items = Some e ->
  fromisoformat (timestamp_str e) = Some d ->
  clock (tick w) - window <= d ->
  clock (tick (snd (load f w))) - window <= d ->
  exists w',
    lookup_results f k w = (Some (default [] (results e)), w') /\
    disk w' = disk w.
Proof.
  intros Hfile Hcontent Hread Hd Hq Hnd Hlen Hget Hparse Hsweep Htest.
  unfold get_cached_results. unfold mbind at 1, M_bind at 1.
  destruct (load_cache_document clock isoformat fromisoformat expiry_days
              f w file c0 Hfile Hcontent Hread Hd)
    as (c & w1 & Hload & Hdisk & Hview & _).
  rewrite Hload in Htest |- *. cbn [snd] in Htest.
  pose proof Hview as Hview'. unfold view_of in Hview'. rewrite Hq in Hview'.
  destruct Hview' as (items' & Hq' & _). rewrite Hq'.
  cbn [default from_option id].
  pose proof (view_items_all _ _ _ _ _ _ _ Hview Hq Hq' Hlen) as Hperm.
  assert (Hget' : dict_get k items' = Some e).
  { apply dict_get_elem.
    - unfold keys. rewrite Hperm. apply swept_NoDup. exact Hnd.
    - rewrite Hperm. apply swept_keeps; [exact Hnd| |].
      + apply dict_get_Some_elem. exact Hget.
      + intros [_ Hold]. apply Hold. unfold older_than_expiry.
        rewrite Hparse. f_equal. apply Z.ltb_ge. exact Hsweep. }
  rewrite Hget'.
  destruct (String.eqb (timestamp_str e) ""); cbn [negb];
    [unfold ret; eauto|].
  rewrite Hparse. run.
  rewrite (proj2 (Z.ltb_ge _ _) Htest). eauto.
Qed.

(** X21. A stored entry is served while it is fresh: from a readable file
    with well-formed metadata, distinct keys and no more entries than the
    limit, the lookup of a key whose time stamp parses to an instant within
    [expiry_days] of both clock readings returns the stored results and
    leaves the disk as it was. *)
Theorem fresh_entry_is_served (f : faults) (w : world) (file : file)
    (c0 : cache) (items : queries) (k : string) (e : entry) (d : Z) :
  cache_file (disk w) = Some file -> content file = Document c0 ->
  read_fails f = false -> is_dict (cache_meta c0) ->
  search_queries c0 = Some items -> NoDup (keys items) ->
  (length items <= MAX_CACHE_ENTRIES)%nat ->
  dict_get k items = Some e ->
  fromisoformat (timestamp_str e) = Some d ->
  clock (tick w) - window <= d ->
  clock (tick (snd (load f w))) - window <= d ->
  exists w',
    lookup_results f k w = (Some (default [] (results e)), w') /\
    disk w' = disk w.
Proof. apply fresh_served. Qed.

(** *** Writes *)

Abbreviation store_results :=
  (save_query_results clock isoformat fromisoformat json_size expiry_days).

(** The entry that [save_query_results] builds at the instant [t]. *)
Definition new_entry (t : Z) (payload : list lead) : entry :=
  {| timestamp := Some (isoformat t); results := Some payload;
     count := Some (Z.of_nat (length payload)) |}.

Lemma put_outcome (f : faults) (k : string) (payload : list lead)
    (w w' : world) :
  store_results f k payload w = (true, w') ->
  exists md c1,
    c1 = set_queries
           (Some (dict_set k (new_entry (clock (tick (snd (load f w)))) payload)
                    (default [] (search_queries (fst (load f w))))))
           (fst (load f w)) /\
    total_queries md = Some (Z.of_nat (entry_count c1)) /\
    disk w'
    = {| cache_file := Some (file_of (set_meta (MetaDict md) c1));
         temp_file := None;
         corrupted := corrupted (disk (snd (load f w))) |}.
Proof.
  unfold save_query_results. unfold mbind at 1, M_bind at 1.
  destruct (load f w) as [c w1]. cbn [fst snd]. run.
  match goal with |- save_cache _ _ _ _ ?c1 ?w2 = _ -> _ =>
    destruct (save_cache_outcome f c1 w2) as (b & w3 & -> & Htrue & _) end.
  intros [= -> <-].
  destruct (Htrue eq_refl) as (md & [Htot _] & Hdisk).
  eexists md, _. split; [reflexivity|]. split; [exact Htot|]. exact Hdisk.
Qed.

(** X22. A write that reports success leaves the new entry in the cache
    file under its key, holding the results, their number and the time of
    the write; the other keys of the loaded store are as they were; the
    file holds at most one entry more than [MAX_CACHE_ENTRIES]; and its
    ['total_queries'] is the number of its entries. *)
Theorem write_stores_the_entry (f : faults) (k : string)
    (payload : list lead) (w w' : world) :
  store_results f k payload w = (true, w') ->
  exists c',
    stored_dict w' = Some c' /\
    dict_get k (default [] (search_queries c'))
    = Some (new_entry (clock (tick (snd (load f w)))) payload) /\
    (forall k', k' <> k ->
       dict_get k' (default [] (search_queries c'))
       = dict_get k' (default [] (search_queries (fst (load f w))))) /\
    (entry_count c' <= S MAX_CACHE_ENTRIES)%nat /\
    exists md,
      cache_meta c' = MetaDict md /\
      total_queries md = Some (Z.of_nat (entry_count c')).
Proof.
  intros H. destruct (put_outcome f k payload w w' H)
    as (md & c1 & Hc1 & Htot & Hdisk).
  exists (set_meta (MetaDict md) c1).
  split; [unfold stored_dict; rewrite Hdisk; reflexivity|].
  subst c1. cbn [search_queries set_meta set_queries default from_option id].
  split; [apply dict_get_set_same|].
  split; [intros k' Hne; apply dict_get_set_other; exact Hne|].
  split; [|exists md; split; [reflexivity | exact Htot]].
  unfold entry_count. cbn [search_queries set_meta set_queries default from_option id].
  pose proof (entry_count_load clock isoformat fromisoformat expiry_days f w)
    as Hcount.
  pose proof (dict_set_length k
                (new_entry (clock (tick (snd (load f w)))) payload)
                (default [] (search_queries (fst (load f w))))) as Hset.
  unfold entry_count in Hcount. lia.
Qed.

(** A read after a write: the entry just written is found by the lookup. *)
Lemma read_after_write (f f' : faults) (k : string) (payload : list lead)
    (w w' : world) (c' : cache) :
  store_results f k payload w = (true, w') ->
  stored_dict w' = Some c' ->
  NoDup (keys (default [] (search_queries c'))) ->
  (entry_count c' <= MAX_CACHE_ENTRIES)%nat ->
  read_fails f' = false ->
  fromisoformat (isoformat (clock (tick (snd (load f w)))))
  = Some (clock (tick (snd (load f w)))) ->
  clock (tick w') - window <= clock (tick (snd (load f w))) ->
  clock (tick (snd (load f' w'))) - window <= clock (tick (snd (load f w))) ->
  exists w'',
    lookup_results f' k w' = (Some payload, w'') /\ disk w'' = disk w'.
Proof.
  intros H Hstored Hnd Hlen Hread Hparse Hsweep Htest.
  destruct (put_outcome f k payload w w' H)
    as (md & c1 & Hc1 & Htot & Hdisk).
  assert (Hc' : c' = set_meta (MetaDict md) c1).
  { unfold stored_dict in Hstored. rewrite Hdisk in Hstored.
    cbn in Hstored. congruence. }
  set (e := new_entry (clock (tick (snd (load f w)))) payload) in *.
  assert (Hq : search_queries c'
               = Some (dict_set k e
                         (default [] (search_queries (fst (load f w)))))).
  { rewrite Hc', Hc1. reflexivity. }
  rewrite Hq in Hnd. cbn [default from_option id] in Hnd.
  unfold entry_count in Hlen. rewrite Hq in Hlen.
  cbn [default from_option id] in Hlen.
  change (Some payload) with (Some (default [] (results e))).
  eapply (fresh_served f' w' (file_of c') c' _ k e
            (clock (tick (snd (load f w))))).
  - rewrite Hdisk, Hc'. reflexivity.
  - reflexivity.
  - exact Hread.
  - rewrite Hc'. eexists. reflexivity.
  - exact Hq.
  - exact Hnd.
  - exact Hlen.
  - apply dict_get_set_same.
  - exact Hparse.
  - exact Hsweep.
  - exact Htest.
Qed.

(** X23. What is written can be read back. After a write that reports
    success, when the file it leaves holds distinct keys and no more
    entries than the limit, the time stamp it wrote parses back to the
    instant of the write, and the clock readings of the lookup are within
    [expiry_days] of that instant, the lookup of the key returns the
    results that were written. *)
Theorem write_then_read (f f' : faults) (k : string) (payload : list lead)
    (w w' : world) (c' : cache) :
  store_results f k payload w = (true, w') ->
  stored_dict w' = Some c' ->
  NoDup (keys (default [] (search_queries c'))) ->
  (entry_count c' <= MAX_CACHE_ENTRIES)%nat ->
  read_fails f' = false ->
  fromisoformat (isoformat (clock (tick (snd (load f w)))))
  = Some (clock (tick (snd (load f w)))) ->
  clock (tick w') - window <= clock (tick (snd (load f w))) ->
  clock (tick (snd (load f' w'))) - window <= clock (tick (snd (load f w))) ->
  exists w'',
    lookup_results f' k w' = (Some payload, w'') /\ disk w'' = disk w'.
Proof. apply read_after_write. Qed.

(** *** Clearing *)

Lemma lookup_without_file (f : faults) (k : string) (w : world) :
  cache_file (disk w) = None -> fst (lookup_results f k w) = None.
Proof.
  intros Hnone. unfold get_cached_results. unfold mbind at 1, M_bind at 1.
  destruct (load_cache_spec clock isoformat fromisoformat expiry_days f w)
    as (c & w1 & -> & _ & Hview).
  destruct Hview as [(t1 & t2 & ->)|(file & c0 & Hfile & _)];
    [reflexivity | congruence].
Qed.

(** X24. [clear_all_cache] answers [True] when the cache file is gone
    (removed, or absent to begin with), and then every lookup misses; it
    answers [False] only when removing the file failed, and then nothing
    has changed. The temporary file and the files set aside as corrupted
    are never touched. *)
Theorem clear_all_cache_outcome (f : faults) (w : world) :
  let r := clear_all_cache f w in
  (fst r = true ->
   cache_file (disk (snd r)) = None /\
   forall f' k, fst (lookup_results f' k (snd r)) = None) /\
  (fst r = false -> remove_fails f = true /\ snd r = w) /\
  temp_file (disk (snd r)) = temp_file (disk w) /\
  corrupted (disk (snd r)) = corrupted (disk w) /\
  tick (snd r) = tick w.
Proof.
  cbv zeta. unfold clear_all_cache, cache_file_exists, remove_cache_file.
  unfold mbind, M_bind, ret.
  destruct (cache_file (disk w)) as [file|] eqn:Hfile.
  - rewrite bool_decide_eq_true_2 by eauto.
    destruct (remove_fails f); cbn [fst snd set_disk disk tick cache_file
                                    temp_file corrupted].
    + split; [discriminate|]. auto.
    + split; [|split; [discriminate | auto]].
      intros _. split; [reflexivity|].
      intros f' k. apply lookup_without_file. reflexivity.
  - rewrite bool_decide_eq_false_2 by (intros [? ?]; discriminate).
    cbn [fst snd]. split; [|split; [discriminate | auto]].
    intros _. split; [exact Hfile|].
    intros f' k. apply lookup_without_file. exact Hfile.
Qed.

Abbreviation clear_query :=
  (clear_query_cache clock isoformat fromisoformat json_size expiry_days).

(** The keys of the dict that [load_cache] hands to the caller. *)
Definition loaded_keys (f : faults) (w : world) : list string :=
  keys (default [] (search_queries (fst (load f w)))).

(** X25. The outcomes of [clear_query_cache]. It answers [True] either
    because the loaded store does not hold the key, and then it writes
    nothing, or because it wrote a file without the key in which every
    other key of the loaded store is as before. It answers [False] when the
    save failed, the cache file left as it was. And it raises, to the
    caller, [KeyError] when the loaded dict has no ['metadata'] and
    [TypeError] when its ['metadata'] is not a dict, without writing. *)
Theorem clear_query_cache_outcome (f : faults) (k : string) (w : world) :
  let c := fst (load f w) in
  let w1 := snd (load f w) in
  let r := clear_query f k w in
  match fst r with
  | Ok true =>
      ((k ∉ loaded_keys f w) /\ snd r = w1) \/
      (k ∈ loaded_keys f w /\
       exists c',
         stored_dict (snd r) = Some c' /\
         (k ∉ keys (default [] (search_queries c'))) /\
         forall k', k' <> k ->
           dict_get k' (default [] (search_queries c'))
           = dict_get k' (default [] (search_queries c)))
  | Ok false =>
      k ∈ loaded_keys f w /\
      cache_file (disk (snd r)) = cache_file (disk w1)
  | Raise e =>
      k ∈ loaded_keys f w /\ snd r = w1 /\
      ((e = KeyError /\ cache_meta c = MetaMissing) \/
       (e = TypeError /\ cache_meta c = MetaBad))
  end.
Proof.
  cbv zeta. unfold loaded_keys.
  destruct (clear_query f k w) as [r w'] eqn:E. cbn [fst snd].
  unfold clear_query_cache in E. unfold mbind at 1, M_bind at 1 in E.
  destruct (load f w) as [c w1]. cbn [fst snd].
  destruct (dict_mem k (default [] (search_queries c))) eqn:Hmem.
  2:{ injection E as <- <-. left. split; [|reflexivity].
      intros Hin. apply dict_mem_keys in Hin. congruence. }
  apply dict_mem_keys in Hmem.
  unfold update_metadata in E. cbn [cache_meta set_queries] in E.
  destruct (cache_meta c) as [| |md] eqn:Hmeta;
    [injection E as <- <-; auto 10..|].
  unfold mbind, M_bind, ret in E.
  match type of E with context [save_cache _ _ _ _ ?c1 ?w2] =>
    destruct (save_cache_outcome f c1 w2) as (b & w3 & Hsave & Htrue & Hfalse)
  end.
  rewrite Hsave in E. injection E as <- <-. destruct b.
  - right. split; [exact Hmem|].
    destruct (Htrue eq_refl) as (md' & _ & Hdisk).
    eexists. split; [unfold stored_dict; rewrite Hdisk; reflexivity|].
    cbn [search_queries set_meta set_queries default from_option id].
    split; [apply dict_del_removes|].
    intros k' Hne. apply dict_get_del_other. exact Hne.
  - split; [exact Hmem | exact (proj1 (Hfalse eq_refl))].
Qed.

(** A file whose dict has no ['metadata'] still loads when nothing is
    swept and the entries are within the limit; the dict comes back without
    metadata. *)
Lemma load_without_metadata (f : faults) (w : world) (file : file)
    (c0 : cache) (items : queries) :
  cache_file (disk w) = Some file -> content file = Document c0 ->
  read_fails f = false -> cache_meta c0 = MetaMissing ->
  search_queries c0 = Some items ->
  expired_keys fromisoformat expiry_days (clock (tick w)) items = [] ->
  (length items <= MAX_CACHE_ENTRIES)%nat ->
  exists c w1 items',
    load f w = (c, w1) /\ disk w1 = disk w /\
    cache_meta c = MetaMissing /\
    search_queries c = Some items' /\ items' ≡ₚ items.
Proof.
  intros Hfile Hcontent Hread Hmeta Hq Hexp Hlen.
  unfold load_cache, cache_file_exists. unfold mbind at 1, M_bind at 1.
  rewrite Hfile, bool_decide_eq_true_2 by eauto. cbn [negb].
  unfold mbind at 1, M_bind at 1, load_body, read_cache_file.
  unfold mbind at 1, M_bind at 1. rewrite Hfile, Hread, Hcontent.
  unfold _cleanup_expired_entries. rewrite Hq. run. rewrite Hexp.
  cbn [foldl]. unfold _enforce_size_limits.
  cbn [search_queries set_queries]. unfold trim_if_file_too_large, getsize.
  run. rewrite Hfile.
  assert (Hcount : forall items' : queries, items' ≡ₚ items ->
            (MAX_CACHE_ENTRIES <? length items')%nat = false).
  { intros items' Hperm. apply Nat.ltb_ge. rewrite Hperm. exact Hlen. }
  destruct (getsize_fails f).
  { unfold entry_count.
    cbn [search_queries set_queries default from_option id].
    rewrite (Hcount items) by reflexivity.
    eexists _, _, items. repeat (split; [reflexivity || assumption|]).
    reflexivity. }
  destruct (_ <? size file).
  - unfold _remove_oldest_entries, update_metadata.
    cbn [search_queries cache_meta set_queries]. rewrite Hmeta.
    unfold ret. cbn [fst snd]. unfold entry_count.
    cbn [search_queries set_queries default from_option id].
    assert (Hperm : take MAX_CACHE_ENTRIES (sorted_newest_first items)
                    ≡ₚ items).
    { rewrite take_ge by (rewrite sorted_newest_first_length; exact Hlen).
      apply sorted_newest_first_perm. }
    rewrite (Hcount _ Hperm).
    eexists _, _, _. repeat (split; [reflexivity || assumption|]).
    exact Hperm.
  - unfold entry_count.
    cbn [search_queries set_queries default from_option id].
    rewrite (Hcount items) by reflexivity.
    eexists _, _, items. repeat (split; [reflexivity || assumption|]).
    reflexivity.
Qed.

(** X26. On a cache file whose dict has no ['metadata'] key, with nothing
    to sweep and no more entries than the limit, [clear_query_cache] for a
    key the file holds raises [KeyError] to the caller and leaves the disk
    as it was: the entry is not removed. *)
Theorem clear_query_cache_raises_without_metadata (f : faults) (w : world)
    (file : file) (c0 : cache) (items : queries) (k : string) :
  cache_file (disk w) = Some file -> content file = Document c0 ->
  read_fails f = false -> cache_meta c0 = MetaMissing ->
  search_queries c0 = Some items ->
  expired_keys fromisoformat expiry_days (clock (tick w)) items = [] ->
  (length items <= MAX_CACHE_ENTRIES)%nat ->
  k ∈ keys items ->
  exists w',
    clear_query f k w = (Raise KeyError, w') /\ disk w' = disk w.
Proof.
  intros Hfile Hcontent Hread Hmeta Hq Hexp Hlen Hk.
  destruct (load_without_metadata f w file c0 items Hfile Hcontent Hread
              Hmeta Hq Hexp Hlen)
    as (c & w1 & items' & Hload & Hdisk & Hmeta' & Hq' & Hperm).
  unfold clear_query_cache. unfold mbind at 1, M_bind at 1.
  rewrite Hload, Hq'. cbn [default from_option id].
  assert (Hmem : dict_mem k items' = true).
  { apply dict_mem_keys. unfold keys. rewrite Hperm. exact Hk. }
  rewrite Hmem. unfold update_metadata. cbn [cache_meta set_queries].
  rewrite Hmeta'. unfold ret. eauto.
Qed.

End Operations.

(** *** The operations on a sample store *)

Definition sample_payload : list lead := [{["name" := VStr "Jane Doe"]}].

(** An entry stamped five seconds into 2024, and one stamped in 2020. *)
Definition recent_entry : entry :=
  {| timestamp := Some "2024-01-01T00:00:05"; results := Some sample_payload;
     count := Some 1 |}.

Definition old_entry : entry :=
  {| timestamp := Some "2020-01-01T00:00:00"; results := Some [];
     count := Some 0 |}.

Definition sample_metadata : metadata :=
  {| total_queries := Some 1; last_cleanup := None; last_updated := None |}.

Definition sample_store (m : meta) (items : queries) : cache :=
  {| version := Some "1.0"; created := Some "2024-01-01T00:00:00";
     search_queries := Some items; cache_meta := m |}.

Definition world_of (c : cache) : world :=
  {| disk := {| cache_file := Some {| content := Document c;
                                      size := sample_json_size c |};
                temp_file := None; corrupted := [] |};
     tick := 0 |}.

Definition recent_world : world :=
  world_of (sample_store (MetaDict sample_metadata)
              [("dili_20_2", recent_entry)]).

Definition bare_world : world :=
  world_of (sample_store MetaMissing [("dili_20_2", recent_entry)]).

Abbreviation sample_lookup :=
  (get_cached_results sample_clock sample_isoformat sample_fromisoformat
     sample_json_size CACHE_EXPIRY_DAYS).
Abbreviation sample_write :=
  (save_query_results sample_clock sample_isoformat sample_fromisoformat
     sample_json_size CACHE_EXPIRY_DAYS).
Abbreviation sample_load :=
  (load_cache sample_clock sample_isoformat sample_fromisoformat
     CACHE_EXPIRY_DAYS).

Lemma remove_oldest_keeps_newest_witness :
  exists kept dropped,
    search_queries
      (fst (fst (_remove_oldest_entries sample_clock sample_isoformat
                   (sample_store (MetaDict sample_metadata)
                      [("old", old_entry); ("new", recent_entry)])
                   1 fresh_world)))
    = Some kept /\
    length kept = Nat.min 1 2 /\
    kept ++ dropped ≡ₚ [("old", old_entry); ("new", recent_entry)] /\
    (forall a b, a ∈ kept -> b ∈ dropped ->
       String.le (timestamp_str (snd b)) (timestamp_str (snd a))) /\
    disk (snd (_remove_oldest_entries sample_clock sample_isoformat
                 (sample_store (MetaDict sample_metadata)
                    [("old", old_entry); ("new", recent_entry)])
                 1 fresh_world))
    = disk fresh_world.
Proof.
  apply (remove_oldest_keeps_newest sample_clock sample_isoformat
           (sample_store (MetaDict sample_metadata)
              [("old", old_entry); ("new", recent_entry)])
           [("old", old_entry); ("new", recent_entry)] 1 fresh_world).
  reflexivity.
Defined.

Lemma served_results_are_stored_and_fresh_witness :
  disk (snd (sample_lookup no_faults "dili_20_2" recent_world))
  = disk recent_world.
Proof.
  refine (proj1 (served_results_are_stored_and_fresh
                   sample_clock sample_isoformat sample_fromisoformat
                   sample_json_size CACHE_EXPIRY_DAYS no_faults "dili_20_2"
                   recent_world
                   (snd (sample_lookup no_faults "dili_20_2" recent_world))
                   sample_payload _)).
  vm_compute. reflexivity.
Defined.

Lemma fresh_entry_is_served_witness :
  exists w',
    sample_lookup no_faults "dili_20_2" recent_world
    = (Some (default [] (results recent_entry)), w') /\
    disk w' = disk recent_world.
Proof.
  apply (fresh_entry_is_served sample_clock sample_isoformat
           sample_fromisoformat sample_json_size CACHE_EXPIRY_DAYS no_faults
           recent_world
           {| content := Document (sample_store (MetaDict sample_metadata)
                                     [("dili_20_2", recent_entry)]);
              size := sample_json_size
                        (sample_store (MetaDict sample_metadata)
                           [("dili_20_2", recent_entry)]) |}
           (sample_store (MetaDict sample_metadata)
              [("dili_20_2", recent_entry)])
           [("dili_20_2", recent_entry)] "dili_20_2" recent_entry
           (start_2024 + 5000000)).
  - reflexivity.
  - reflexivity.
  - reflexivity.
  - eexists. reflexivity.
  - reflexivity.
  - apply (bool_decide_unpack _). vm_compute. exact I.
  - unfold MAX_CACHE_ENTRIES. simpl. lia.
  - reflexivity.
  - vm_compute. reflexivity.
  - vm_compute. discriminate.
  - vm_compute. discriminate.
Defined.

Definition written_world : world :=
  snd (sample_write no_faults "dili_20_2" sample_payload fresh_world).

Lemma write_stores_the_entry_witness :
  exists c',
    stored_dict written_world = Some c' /\
    dict_get "dili_20_2" (default [] (search_queries c'))
    = Some (new_entry sample_isoformat
              (sample_clock (tick (snd (sample_load no_faults fresh_world))))
              sample_payload) /\
    (forall k', k' <> "dili_20_2" ->
       dict_get k' (default [] (search_queries c'))
       = dict_get k'
           (default []
              (search_queries (fst (sample_load no_faults fresh_world))))) /\
    (entry_count c' <= S MAX_CACHE_ENTRIES)%nat /\
    exists md,
      cache_meta c' = MetaDict md /\
      total_queries md = Some (Z.of_nat (entry_count c')).
Proof.
  apply (write_stores_the_entry sample_clock sample_isoformat
           sample_fromisoformat sample_json_size CACHE_EXPIRY_DAYS no_faults
           "dili_20_2" sample_payload fresh_world written_world).
  vm_compute. reflexivity.
Defined.

(** The dict that the sample write leaves in the file. *)
Definition written_dict : cache :=
  match stored_dict written_world with
  | Some c => c
  | None => sample_store MetaMissing []
  end.

Lemma write_then_read_witness :
  exists w'',
    sample_lookup no_faults "dili_20_2" written_world
    = (Some sample_payload, w'') /\
    disk w'' = disk written_world.
Proof.
  apply (write_then_read sample_clock sample_isoformat sample_fromisoformat
           sample_json_size CACHE_EXPIRY_DAYS no_faults no_faults "dili_20_2"
           sample_payload fresh_world written_world written_dict).
  - vm_compute. reflexivity.
  - vm_compute. reflexivity.
  - apply (bool_decide_unpack _). vm_compute. exact I.
  - apply (bool_decide_unpack _). vm_compute. exact I.
  - reflexivity.
  - vm_compute. reflexivity.
  - vm_compute. discriminate.
  - vm_compute. discriminate.
Defined.

Lemma clear_query_cache_raises_without_metadata_witness :
  exists w',
    clear_query_cache sample_clock sample_isoformat sample_fromisoformat
      sample_json_size CACHE_EXPIRY_DAYS no_faults "dili_20_2" bare_world
    = (Raise KeyError, w') /\
    disk w' = disk bare_world.
Proof.
  apply (clear_query_cache_raises_without_metadata sample_clock
           sample_isoformat sample_fromisoformat sample_json_size
           CACHE_EXPIRY_DAYS no_faults bare_world
           {| content := Document (sample_store MetaMissing
                                     [("dili_20_2", recent_entry)]);
              size := sample_json_size
                        (sample_store MetaMissing
                           [("dili_20_2", recent_entry)]) |}
           (sample_store MetaMissing [("dili_20_2", recent_entry)])
           [("dili_20_2", recent_entry)] "dili_20_2").
  - reflexivity.
  - reflexivity.
  - reflexivity.
  - reflexivity.
  - reflexivity.
  - vm_compute. reflexivity.
  - unfold MAX_CACHE_ENTRIES. simpl. lia.
  - apply (bool_decide_unpack _). vm_compute. exact I.
Defined.

End CacheMore.

(** ** Stage 1 over the cache and the deduplicator *)

Module Stage1More.
Import CacheManager DataProcessing Stage1 CacheFacts DedupFacts DedupMore
  CacheMore SampleEnv.

Section Runs.

Variable clock : nat -> Z.
Variable isoformat : Z -> string.
Variable fromisoformat : string -> option Z.
Variable json_size : cache -> Z.
Variable ratio : string -> string -> Z.
Variable token_set_ratio : string -> string -> Z.

Abbreviation stage1 search :=
  (run_stage1 clock isoformat fromisoformat json_size ratio token_set_ratio
     search).
Abbreviation gather_with search :=
  (gather clock isoformat fromisoformat json_size search).
Abbreviation or_keep := (deduplicate_or_keep ratio token_set_ratio).
Abbreviation cache_lookup :=
  (get_cached_results clock isoformat fromisoformat json_size
     CACHE_EXPIRY_DAYS).
Abbreviation cache_write :=
  (save_query_results clock isoformat fromisoformat json_size
     CACHE_EXPIRY_DAYS).
Abbreviation cache_load :=
  (load_cache clock isoformat fromisoformat CACHE_EXPIRY_DAYS).

(** The key under which stage 1 caches a keyword. *)
Definition key_of (keyword : string) (results_per_keyword years_back : Z)
    : string :=
  keyword +:+ "_" +:+ pretty results_per_keyword +:+ "_"
    +:+ pretty years_back.

Lemma gather_blank search (f : faults) (keywords : list string)
    (results_per_keyword years_back : Z) (acc : list lead) (w : world) :
  Forall (fun keyword => strip keyword = "") keywords ->
  gather_with search f keywords results_per_keyword years_back acc w
  = (acc, w).
Proof.
  induction 1 as [|keyword rest Hblank _ IH]; [reflexivity|].
  cbn [gather]. rewrite Hblank. exact IH.
Qed.

(** X27. Keywords that are all blank make stage 1 return no lead without
    reading the clock, touching the disk or consulting the search; so does
    an empty list of keywords. *)
Theorem blank_keywords_find_nothing search (f : faults)
    (keywords : list string) (results_per_keyword years_back : Z)
    (w : world) :
  Forall (fun keyword => strip keyword = "") keywords ->
  stage1 search f keywords results_per_keyword years_back w = ([], w).
Proof.
  intros Hblank. unfold run_stage1.
  destruct keywords as [|keyword rest]; [reflexivity|].
  unfold mbind, M_bind. rewrite (gather_blank _ _ _ _ _ _ _ Hblank).
  reflexivity.
Qed.

(** X28. The last step of stage 1 never yields more leads than were
    gathered and never loses all of them, and when the deduplication
    raises it hands back the leads as gathered. *)
Theorem deduplicate_or_keep_bounds (all_results : list lead) :
  (length (or_keep all_results) <= length all_results)%nat /\
  (all_results <> [] -> or_keep all_results <> []) /\
  (forall e,
     deduplicate_leads ratio token_set_ratio all_results = Raise e ->
     or_keep all_results = all_results).
Proof.
  unfold deduplicate_or_keep, deduplicate_leads.
  destruct all_results as [|l0 rest]; [repeat split; [lia|congruence]|].
  destruct (deduplicate_clusters ratio token_set_ratio (l0 :: rest))
    as [clusters|e] eqn:E; cbn [mbind result_bind].
  - split; [|split; [|discriminate]].
    + rewrite length_map. unfold deduplicate_clusters in E.
      apply scan_seeds_length in E. simpl in E. exact E.
    + intros _.
      destruct (proj2 (deduplicate_clusters_spec _ _ _ _ E) 0%nat)
        as (c & Hc & _); [simpl; lia|].
      destruct clusters; [inversion Hc | discriminate].
  - split; [lia|]. split; [intros _; discriminate | reflexivity].
Qed.

(** X29. What stage 1 has cached it does not search again. When a run on
    one keyword misses the cache, the search returns leads and the write
    of these leads succeeds, the run returns them deduplicated; and, under
    the conditions of a read after a write (distinct keys and no more
    entries than the limit in the file, a time stamp that parses back, the
    clock within the expiry window), a second run on that keyword returns
    the same leads whatever the search would answer, failure included, and
    leaves the disk as it is. *)
Theorem second_run_is_served_from_cache search (f f' : faults)
    (keyword : string) (results_per_keyword years_back : Z)
    (found : list lead) (w w' : world) (c' : cache) :
  let key := key_of (strip keyword) results_per_keyword years_back in
  let missed := cache_lookup f key w in
  strip keyword <> "" ->
  nonempty_list (default [] (fst missed)) = false ->
  search (strip keyword) results_per_keyword years_back = Ok found ->
  found <> [] ->
  cache_write f key found (snd missed) = (true, w') ->
  stored_dict w' = Some c' ->
  NoDup (keys (default [] (search_queries c'))) ->
  (entry_count c' <= MAX_CACHE_ENTRIES)%nat ->
  read_fails f' = false ->
  fromisoformat (isoformat (clock (tick (snd (cache_load f (snd missed))))))
  = Some (clock (tick (snd (cache_load f (snd missed))))) ->
  clock (tick w') - CACHE_EXPIRY_DAYS * microseconds_per_day
  <= clock (tick (snd (cache_load f (snd missed)))) ->
  clock (tick (snd (cache_load f' w')))
    - CACHE_EXPIRY_DAYS * microseconds_per_day
  <= clock (tick (snd (cache_load f (snd missed)))) ->
  stage1 search f [keyword] results_per_keyword years_back w
  = (or_keep found, w') /\
  forall search',
    exists w'',
      stage1 search' f' [keyword] results_per_keyword years_back w'
      = (or_keep found, w'') /\
      disk w'' = disk w'.
Proof.
  cbv zeta. unfold key_of.
  intros Hkw Hmiss Hsearch Hfound Hwrite Hstored Hnd Hlen Hread Hparse
    Hsweep Htest.
  assert (Hne : String.eqb (strip keyword) "" = false)
    by (apply String.eqb_neq; exact Hkw).
  assert (Hsome : nonempty_list found = true)
    by (destruct found; [congruence | reflexivity]).
  split.
  - unfold run_stage1. unfold mbind at 1, M_bind at 1.
    cbn [gather]. rewrite Hne. unfold mbind at 1, M_bind at 1.
    destruct (cache_lookup f _ w) as [cached w0]. cbn [fst snd] in *.
    rewrite Hmiss, Hsearch, Hsome.
    unfold mbind at 1, M_bind at 1. rewrite Hwrite.
    cbn [app]. reflexivity.
  - intros search'.
    destruct (read_after_write clock isoformat fromisoformat json_size
                CACHE_EXPIRY_DAYS f f' _ found _ w' c' Hwrite Hstored Hnd
                Hlen Hread Hparse Hsweep Htest)
      as (w'' & Hhit & Hdisk).
    exists w''. split; [|exact Hdisk].
    unfold run_stage1. unfold mbind at 1, M_bind at 1.
    cbn [gather]. rewrite Hne. unfold mbind at 1, M_bind at 1.
    rewrite Hhit. cbn [default from_option id]. rewrite Hsome.
    cbn [app]. reflexivity.
Qed.

End Runs.

(** *** A sample run *)

Definition found_leads : list lead := [ann; bob; ann].

Definition sample_search (keyword : string) (max_results years_back : Z)
    : result (list lead) :=
  Ok found_leads.

Definition failing_search (keyword : string) (max_results years_back : Z)
    : result (list lead) :=
  Raise OSError.

Abbreviation sample_stage1 search :=
  (run_stage1 sample_clock sample_isoformat sample_fromisoformat
     sample_json_size exact_ratio exact_ratio search).

Lemma blank_keywords_find_nothing_witness :
  sample_stage1 sample_search no_faults ["  "; ""] 20 2 fresh_world
  = ([], fresh_world).
Proof.
  apply blank_keywords_find_nothing.
  repeat constructor.
Defined.

Definition first_run_world : world :=
  snd (sample_stage1 sample_search no_faults [" dili "] 20 2 fresh_world).

Definition first_run_dict : cache :=
  match stored_dict first_run_world with
  | Some c => c
  | None => empty_cache "" ""
  end.

Lemma second_run_is_served_from_cache_witness :
  sample_stage1 sample_search no_faults [" dili "] 20 2 fresh_world
  = (deduplicate_or_keep exact_ratio exact_ratio found_leads,
     first_run_world) /\
  forall search',
    exists w'',
      sample_stage1 search' no_faults [" dili "] 20 2 first_run_world
      = (deduplicate_or_keep exact_ratio exact_ratio found_leads, w'') /\
      disk w'' = disk first_run_world.
Proof.
  apply (second_run_is_served_from_cache sample_clock sample_isoformat
           sample_fromisoformat sample_json_size exact_ratio exact_ratio
           sample_search no_faults no_faults " dili " 20 2 found_leads
           fresh_world first_run_world first_run_dict).
  - vm_compute. discriminate.
  - vm_compute. reflexivity.
  - reflexivity.
  - discriminate.
  - vm_compute. reflexivity.
  - vm_compute. reflexivity.
  - apply (bool_decide_unpack _). vm_compute. exact I.
  - apply (bool_decide_unpack _). vm_compute. exact I.
  - reflexivity.
  - vm_compute. reflexivity.
  - vm_compute. discriminate.
  - vm_compute. discriminate.
Defined.

End Stage1More.

(** ** The priority filter against the tiers of the scorer *)

Module DashboardMore.
Import Scoring Dashboard PyFacts ScoringFacts.

Ltac bind_inv H x Hx :=
  apply bind_Ok in H; destruct H as (x & Hx & H).

(** The label under which the dashboard offers a tier. *)
Definition label_of (p : priority) : string :=
  match p with
  | High => "High (80+)"
  | Medium => "Medium (50-79)"
  | Low => "Low (<50)"
  end.

Definition tier_of (score : Z) : priority :=
  if 80 <=? score then High else if 50 <=? score then Medium else Low.

Lemma stage3_tier (current_year : Z) (l : lead) :
  let sd := stage3_score current_year l in
  0 <= propensity_score sd <= 100 /\
  priority_level sd = tier_of (propensity_score sd).
Proof.
  cbv zeta. unfold stage3_score.
  destruct (calculate_propensity_score current_year l) as [sd|e] eqn:E;
    [|split; [simpl; lia | reflexivity]].
  pose proof (calculate_within_bounds _ _ _ E) as Hb.
  split.
  - destruct Hb as (H1 & H2 & H3 & H4 & H5 & ->).
    unfold sum, values. simpl. lia.
  - unfold calculate_propensity_score in E.
    bind_inv E rf Erf. bind_inv E si Esi. bind_inv E ci Eci.
    bind_inv E tg Etg. bind_inv E lc Elc. injection E as <-. reflexivity.
Qed.

(** One label of the filter against one scored record. *)
Lemma level_matches_tier (score : Z) (level : string) :
  0 <= score <= 100 ->
  match priority_map_get level with
  | Some range =>
      (fst range <=? score) && (score <=? snd range)
      = String.eqb (label_of (tier_of score)) level
  | None => String.eqb (label_of (tier_of score)) level = false
  end.
Proof.
  intros Hs. unfold priority_map_get, priority_map.
  cbn [List.find fst snd option_map].
  destruct (String.eqb_spec "High (80+)" level) as [<-|Hh].
  { cbn [option_map snd fst]. unfold tier_of.
    destruct (Z.leb_spec 80 score); [|destruct (Z.leb_spec 50 score)];
      cbn; lia || (destruct (Z.leb_spec score 100); [reflexivity | lia])
      || reflexivity. }
  destruct (String.eqb_spec "Medium (50-79)" level) as [<-|Hm].
  { cbn [option_map snd fst]. unfold tier_of.
    destruct (Z.leb_spec 80 score); [|destruct (Z.leb_spec 50 score)];
      cbn [label_of andb].
    - destruct (Z.leb_spec score 79); [lia|].
      rewrite andb_false_r. reflexivity.
    - destruct (Z.leb_spec score 79); [reflexivity | lia].
    - reflexivity. }
  destruct (String.eqb_spec "Low (<50)" level) as [<-|Hl].
  { cbn [option_map snd fst]. unfold tier_of.
    destruct (Z.leb_spec 80 score); [|destruct (Z.leb_spec 50 score)];
      cbn [label_of].
    - destruct (Z.leb_spec score 49); [lia|].
      rewrite andb_false_r. reflexivity.
    - destruct (Z.leb_spec score 49); [lia|].
      rewrite andb_false_r. reflexivity.
    - destruct (Z.leb_spec 0 score); [|lia].
      destruct (Z.leb_spec score 49); [reflexivity | lia]. }
  cbn [option_map]. apply String.eqb_neq.
  destruct (tier_of score); cbn [label_of]; assumption.
Qed.

Lemma ranges_match_tier (score : Z) (levels : list string) :
  0 <= score <= 100 ->
  in_some_range (calculate_priority_ranges levels) score
  = existsb (String.eqb (label_of (tier_of score))) levels.
Proof.
  intros Hs. induction levels as [|level rest IH]; [reflexivity|].
  cbn [calculate_priority_ranges existsb].
  pose proof (level_matches_tier score level Hs) as Hl.
  destruct (priority_map_get level) as [range|].
  - unfold in_some_range in *. cbn [existsb]. rewrite Hl, IH. reflexivity.
  - rewrite Hl, IH. reflexivity.
Qed.

(** X30. The priority filter of the dashboard agrees with the tiers of the
    scorer. On the scores that stage 3 attaches, filtering by a list of
    labels that names some tier keeps exactly the records whose tier is
    named, in their order; and a list that names no tier (empty, or
    unknown labels only) gives no range, upon which the filter keeps every
    record. *)
Theorem priority_filter_selects_tiers (current_year : Z) (leads : list lead)
    (levels : list string) :
  let rows := map (stage3_score current_year) leads in
  let ranges := calculate_priority_ranges levels in
  (ranges = [] <-> forall p, label_of p ∉ levels) /\
  (ranges = [] ->
   filter_by_priority_range propensity_score rows ranges = rows) /\
  (ranges <> [] ->
   filter_by_priority_range propensity_score rows ranges
   = List.filter
       (fun sd => existsb (String.eqb (label_of (priority_level sd))) levels)
       rows).
Proof.
  cbv zeta. split; [|split].
  - induction levels as [|level rest IH].
    { split; [intros _ p Hin; inversion Hin | reflexivity]. }
    cbn [calculate_priority_ranges].
    pose proof (level_matches_tier 80 level ltac:(lia)) as Hh.
    pose proof (level_matches_tier 50 level ltac:(lia)) as Hm.
    pose proof (level_matches_tier 0 level ltac:(lia)) as Hl.
    destruct (priority_map_get level) as [range|] eqn:E.
    + split; [discriminate|]. intros Hno. exfalso.
      unfold priority_map_get, priority_map in E.
      cbn [List.find fst] in E.
      destruct (String.eqb_spec "High (80+)" level) as [<-|_];
        [apply (Hno High); constructor|].
      destruct (String.eqb_spec "Medium (50-79)" level) as [<-|_];
        [apply (Hno Medium); constructor|].
      destruct (String.eqb_spec "Low (<50)" level) as [<-|_];
        [apply (Hno Low); constructor|].
      discriminate.
    + rewrite IH. split.
      * intros Hno p [Heq|Hin]%elem_of_cons; [|exact (Hno p Hin)].
        subst level.
        destruct p; vm_compute in Hh, Hm, Hl; discriminate.
      * intros Hno p Hin. apply (Hno p). apply elem_of_cons. auto.
  - intros ->. reflexivity.
  - intros Hne. unfold filter_by_priority_range.
    destruct (calculate_priority_ranges levels) as [|r rs] eqn:E;
      [congruence|].
    rewrite <- E. clear E Hne r rs.
    apply List.filter_ext_in. intros sd Hin.
    apply in_map_iff in Hin as (l & <- & _).
    destruct (stage3_tier current_year l) as [Hb Ht].
    rewrite Ht. apply ranges_match_tier. exact Hb.
Qed.

End DashboardMore.

